(** * iFixit repair-score site: the client-side state/render pipeline

    A shallow embedding of the browser script of the site (the most
    feature-complete variant of the script, the one with the
    include-unscored toggle and the comparison drawer) and of its chart
    module, with the properties of the filter, the sort, the selection
    tracker, the histogram, the teardown ordering and the URL
    synchroniser.

    Modelling conventions.
    - JavaScript strings are Rocq strings; the development covers their
      ASCII fragment ([toLowerCase] folds A-Z only, [parseInt] skips the
      ASCII white space).
    - JSON numbers are rationals ([Q]); a field that is [null] or missing
      is [None].
    - A property read on a device record ([a[key]]) looks at the fields
      of the record: what every object inherits is the same for all
      records and compares equal, like an absent field.  The read
      [TAG_PRIORITY[a]] finds the inherited properties too.
    - [Array.prototype.sort] is stable (ECMAScript 2019); it is modelled
      by a stable insertion sort driven by the sign of the comparator.
    - DOM elements read by the script are fields of a record holding
      their values; the elements with id [scoreFilter] are kept as a list
      in document order ([getElementById] returns the first one); the
      select [#brandFilter] has its options, and takes a value only if
      an option carries it.
    - [location.search] is text; [URLSearchParams] parses and prints it
      as the URL standard's application/x-www-form-urlencoded format. *)

From Stdlib Require Import ZArith QArith Qround String Ascii List Sorted Permutation Lia Bool DecimalString.
From Stdlib Require OrderedTypeEx DecimalPos.
From stdpp Require Import gmap strings list.

Local Open Scope string_scope.
Local Open Scope list_scope.
Local Open Scope Z_scope.

(** ** Strings *)

Module Js.

(** [String.prototype.toLowerCase] on strings of ASCII characters: the
    letters A-Z are folded, every other character is kept.  Outside
    ASCII the method folds further letters; statements that speak of
    letter case are made for ASCII text. *)
Definition lowerChar (c : ascii) : ascii :=
  let n := nat_of_ascii c in
  if (65 <=? n)%nat && (n <=? 90)%nat then ascii_of_nat (n + 32) else c.

Fixpoint toLowerCase (s : string) : string :=
  match s with
  | EmptyString => EmptyString
  | String c s' => String (lowerChar c) (toLowerCase s')
  end.

(** [s.startsWith(sub)] *)
Fixpoint startsWith (s sub : string) : bool :=
  match sub, s with
  | EmptyString, _ => true
  | String _ _, EmptyString => false
  | String a sub', String b s' => if Ascii.eqb a b then startsWith s' sub' else false
  end.

(** [s.includes(sub)]: [sub] occurs in [s] at some position. *)
Fixpoint includes (s sub : string) : bool :=
  startsWith s sub ||
  match s with
  | EmptyString => false
  | String _ s' => includes s' sub
  end.

(** [s.split(c)] for a one-character separator. *)
Fixpoint split (c : ascii) (s : string) : list string :=
  match s with
  | EmptyString => [EmptyString]
  | String a s' =>
      if Ascii.eqb a c then EmptyString :: split c s'
      else match split c s' with
           | h :: t => String a h :: t
           | [] => [String a EmptyString]
           end
  end.

(** [a < b] on strings: lexicographic on the character codes. *)
Definition strLt (a b : string) : bool :=
  match String.compare a b with Lt => true | _ => false end.

(** Truthiness of a string: only the empty string is falsy. *)
Definition truthy (s : string) : bool :=
  match s with EmptyString => false | _ => true end.

(** White space skipped by [parseInt] (ASCII part of StrWhiteSpaceChar). *)
Definition isWhite (c : ascii) : bool :=
  let n := nat_of_ascii c in
  (n =? 32)%nat || ((9 <=? n)%nat && (n <=? 13)%nat).

Fixpoint trimStart (s : string) : string :=
  match s with
  | String c s' => if isWhite c then trimStart s' else s
  | EmptyString => EmptyString
  end.

(** Value of a digit in the given radix (10 or 16), if it is one. *)
Definition digitVal (radix : Z) (c : ascii) : option Z :=
  let n := Z.of_nat (nat_of_ascii c) in
  let v :=
    if (48 <=? n) && (n <=? 57) then Some (n - 48)
    else if (97 <=? n) && (n <=? 122) then Some (n - 87)
    else if (65 <=? n) && (n <=? 90) then Some (n - 55)
    else None in
  match v with
  | Some d => if d <? radix then Some d else None
  | None => None
  end.

(** The longest prefix of digits, folded left to right: [None] when the
    prefix is empty. *)
Fixpoint digitsFrom (radix : Z) (acc : option Z) (s : string) : option Z :=
  match s with
  | EmptyString => acc
  | String c s' =>
      match digitVal radix c with
      | Some d => digitsFrom radix (Some (default 0 acc * radix + d)) s'
      | None => acc
      end
  end.

(** [parseInt(s)] without a radix argument; [None] is [NaN].  The
    result is the integer the digits denote: this is the number
    JavaScript returns as long as it is at most 2^53 in absolute value
    (beyond, the result is rounded to a double). *)
Definition parseInt (s : string) : option Z :=
  let s1 := trimStart s in
  let '(sign, s2) :=
    match s1 with
    | String "-" r => (-1, r)
    | String "+" r => (1, r)
    | _ => (1, s1)
    end in
  let '(radix, s3) :=
    match s2 with
    | String "0" (String "x" r) => (16, r)
    | String "0" (String "X" r) => (16, r)
    | _ => (10, s2)
    end in
  match digitsFrom radix None s3 with
  | Some m => Some (sign * m)
  | None => None
  end.

(** [String(n)] for an integer [n]. *)
Definition numberToString (n : Z) : string :=
  NilZero.string_of_int (Z.to_int n).

End Js.

(** ** Data model *)

Record Teardown := mkTeardown {
  title : string;
  url : string;
  difficulty : option string;
  tags : option (list string)
}.

Record Device := mkDevice {
  name : string;
  brand : option string;
  link : option string;
  repairability_score : option Q;
  teardown_urls : option (list Teardown)
}.

Inductive Direction := asc | desc.

Record SortState := mkSort { key : string; direction : Direction }.

(** The form controls the script reads. *)
Record Dom := mkDom {
  searchInput : string;          (* #searchInput.value *)
  brandFilter : string;          (* #brandFilter.value *)
  scoreFilterEls : list string;  (* values of the #scoreFilter inputs *)
  includeNoScore : option bool   (* #includeNoScore.checked, if present *)
}.

(** [document.getElementById('scoreFilter')?.value || ''] *)
Definition scoreFilterValue (dom : Dom) : string :=
  match scoreFilterEls dom with
  | v :: _ => v
  | [] => EmptyString
  end.

(** [document.getElementById('includeNoScore')?.checked === true] *)
Definition includeNoScoreChecked (dom : Dom) : bool :=
  match includeNoScore dom with
  | Some b => b
  | None => false
  end.

(** ** Filter/Sort engine *)

(** [d.repairability_score === n] for [n] the result of [parseInt]. *)
Definition scoreStrictEq (s : option Q) (n : option Z) : bool :=
  match s, n with
  | Some q, Some z => Qeq_bool q (inject_Z z)
  | _, _ => false
  end.

(** The arrow function passed to [devicesData.filter]. *)
Definition recordKept (dom : Dom) (d : Device) : bool :=
  let searchValue := Js.toLowerCase (searchInput dom) in
  let brandValue := brandFilter dom in
  let scoreFilter := scoreFilterValue dom in
  let includeNoScore := includeNoScoreChecked dom in
  let matchesSearch := Js.includes (Js.toLowerCase (name d)) searchValue in
  let matchesBrand :=
    negb (Js.truthy brandValue) ||
    match brand d with
    | Some b => String.eqb b brandValue
    | None => false
    end in
  let matchesScore :=
    negb (Js.truthy scoreFilter) ||
    scoreStrictEq (repairability_score d) (Js.parseInt scoreFilter) in
  let hasScoreOk :=
    if includeNoScore then true
    else match repairability_score d with Some _ => true | None => false end in
  matchesSearch && matchesBrand && matchesScore && hasScoreOk.

Definition getFilteredData (dom : Dom) (devicesData : list Device) : list Device :=
  List.filter (recordKept dom) devicesData.

(** [Array.prototype.sort(comparefn)]: [x] is placed before the first
    element it does not have to follow, so elements that compare equal
    keep their order. *)
Section ArraySort.
Context {A : Type} (comparefn : A -> A -> Z).

Fixpoint insertSorted (x : A) (l : list A) : list A :=
  match l with
  | [] => [x]
  | y :: l' =>
      if comparefn x y <=? 0 then x :: y :: l' else y :: insertSorted x l'
  end.

Definition arraySort (l : list A) : list A :=
  List.fold_right insertSorted [] l.
End ArraySort.

(** [A < B] on numbers. *)
Definition numLt (a b : Q) : bool := negb (Qle_bool b a).

(** [Array.isArray(d.teardown_urls) ? d.teardown_urls.length : 0] *)
Definition teardownCount (d : Device) : Q :=
  match teardown_urls d with
  | Some l => inject_Z (Z.of_nat (length l))
  | None => 0%Q
  end.

Definition isNumericKey (k : string) : bool :=
  String.eqb k "repairability_score" || String.eqb k "teardown".

(** The operand of the numeric branch: the teardown count for the key
    [teardown], else [d.repairability_score ?? -1]. *)
Definition numericOperand (k : string) (d : Device) : Q :=
  if String.eqb k "teardown" then teardownCount d
  else match repairability_score d with
       | Some q => q
       | None => (-1)%Q
       end.

(** [[object Object],...]: what [toString] gives for an array of records. *)
Definition arrayToString (l : list Teardown) : string :=
  String.concat "," (List.map (fun _ => "[object Object]") l).

(** The operand of the string branch: [(d[key] || '').toString()], for a
    key that is neither [repairability_score] nor [teardown]. *)
Definition stringOperand (k : string) (d : Device) : string :=
  if String.eqb k "name" then name d
  else if String.eqb k "brand" then default "" (brand d)
  else if String.eqb k "link" then default "" (link d)
  else if String.eqb k "teardown_urls" then
    match teardown_urls d with
    | Some l => arrayToString l
    | None => ""
    end
  else "".

Definition before (dir : Direction) : Z :=
  match dir with asc => -1 | desc => 1 end.

Definition after (dir : Direction) : Z :=
  match dir with asc => 1 | desc => -1 end.

(** The comparator of [sortData]. *)
Definition compareDevices (s : SortState) (a b : Device) : Z :=
  if isNumericKey (key s) then
    let A := numericOperand (key s) a in
    let B := numericOperand (key s) b in
    if numLt A B then before (direction s)
    else if numLt B A then after (direction s)
    else 0
  else
    let A := Js.toLowerCase (stringOperand (key s) a) in
    let B := Js.toLowerCase (stringOperand (key s) b) in
    if Js.strLt A B then before (direction s)
    else if Js.strLt B A then after (direction s)
    else 0.

Definition sortData (currentSort : SortState) (data : list Device) : list Device :=
  arraySort (compareDevices currentSort) data.

(** The update of [currentSort] in [toggleSort(key)]. *)
Definition toggleSort (k : string) (currentSort : SortState) : SortState :=
  if String.eqb (key currentSort) k then
    mkSort (key currentSort)
           (match direction currentSort with asc => desc | desc => asc end)
  else mkSort k asc.

(** ** Teardown aggregation *)

Definition TAG_PRIORITY : gmap string Z :=
  {[ "starred" := 0; "user_contributed" := 1; "archived" := 2 ]}.

(** The names of the properties an object literal inherits from
    [Object.prototype]: methods and accessors, none of them a number. *)
Definition objectPrototypeKeys : list string :=
  [ "constructor"; "hasOwnProperty"; "isPrototypeOf"; "propertyIsEnumerable";
    "toLocaleString"; "toString"; "valueOf"; "__proto__";
    "__defineGetter__"; "__defineSetter__"; "__lookupGetter__"; "__lookupSetter__" ].

(** [TAG_PRIORITY[a] ?? 999] as the number the subtraction makes of it:
    the priority of an own key, [NaN] ([None]) for an inherited
    property, which is not nullish, and 999 for any other name. *)
Definition tagPriority (a : string) : option Z :=
  match TAG_PRIORITY !! a with
  | Some n => Some n
  | None => if existsb (String.eqb a) objectPrototypeKeys then None else Some 999
  end.

(** The comparator of [sortTags]; the sort takes a [NaN] result for
    [+0]. *)
Definition compareTags (a b : string) : Z :=
  match tagPriority a, tagPriority b with
  | Some x, Some y => x - y
  | _, _ => 0
  end.

Definition sortTags (tags : list string) : list string :=
  arraySort compareTags tags.

(** [Array.isArray(t.tags) && t.tags.includes('archived')] *)
Definition isArchivedTeardown (t : Teardown) : bool :=
  match tags t with
  | Some l => existsb (String.eqb "archived") l
  | None => false
  end.

(** The comparator of [sortTeardowns], on the entries paired with their
    index. *)
Definition compareIndexed (a b : Teardown * nat) : Z :=
  let aArchived := if isArchivedTeardown (fst a) then 1 else 0 in
  let bArchived := if isArchivedTeardown (fst b) then 1 else 0 in
  if negb (aArchived =? bArchived) then aArchived - bArchived
  else Z.of_nat (snd a) - Z.of_nat (snd b).

(** [teardowns.map((t, i) => ({t, i}))], counting from [i0]. *)
Fixpoint withIndexFrom (i0 : nat) (teardowns : list Teardown) : list (Teardown * nat) :=
  match teardowns with
  | [] => []
  | t :: rest => (t, i0) :: withIndexFrom (S i0) rest
  end.

Definition sortTeardowns (teardowns : list Teardown) : list Teardown :=
  let withIndex := withIndexFrom 0 teardowns in
  List.map fst (arraySort compareIndexed withIndex).

(** [set.add(t)] on a [Set] kept in insertion order. *)
Definition setAdd (set : list string) (t : string) : list string :=
  if existsb (String.eqb t) set then set else (set ++ [t])%list.

Definition aggregateTeardownTags (teardownUrls : list Teardown) : list string :=
  let set :=
    List.fold_left
      (fun set td => List.fold_left setAdd (default [] (tags td)) set)
      teardownUrls [] in
  sortTags set.

(** [sortTeardowns] on arrays held in a store: [map] allocates a new
    array, [sort] sorts that array in place, the final [map] allocates
    the result. *)
Inductive ArrayObj :=
  | TeardownArray (l : list Teardown)
  | IndexedArray (l : list (Teardown * nat)).

Definition allocArray (o : ArrayObj) (h : gmap nat ArrayObj) : nat * gmap nat ArrayObj :=
  let r := fresh (dom h) in (r, <[r := o]> h).

Definition sortInPlace (o : ArrayObj) : ArrayObj :=
  match o with
  | IndexedArray l => IndexedArray (arraySort compareIndexed l)
  | TeardownArray l => TeardownArray l
  end.

Definition sortTeardownsIn (teardowns : nat) (h : gmap nat ArrayObj)
  : option (nat * gmap nat ArrayObj) :=
  match h !! teardowns with
  | Some (TeardownArray ts) =>
      let '(withIndex, h1) := allocArray (IndexedArray (withIndexFrom 0 ts)) h in
      let h2 := alter sortInPlace withIndex h1 in
      match h2 !! withIndex with
      | Some (IndexedArray sorted) =>
          Some (allocArray (TeardownArray (List.map fst sorted)) h2)
      | _ => None
      end
  | _ => None
  end.

(** ** Selection tracker *)

Definition MAX_COMPARE : nat := 5.

(** [`${d.name}__${d.brand ?? ''}`] *)
Definition selIdOf (d : Device) : string :=
  name d +:+ "__" +:+ default "" (brand d).

Definition capacityMessage : string :=
  "You can compare up to " +:+ Js.numberToString (Z.of_nat MAX_COMPARE)
  +:+ " devices. Deselect one to add another.".

(** What the [change] handler of a row's checkbox leaves behind: the
    selection, the state of the checkbox, the message handed to
    [notifyAction] and whether the drawer was refreshed with a warning. *)
Record ChangeOutcome := mkOutcome {
  selection : gset string;
  checked : bool;
  notified : option string;
  warned : bool
}.

(** The [change] listener wired to the checkbox of the row of [selId];
    [cbChecked] is the state the click gave the checkbox. *)
Definition onCompareChange (selId : string) (cbChecked : bool)
    (selectedForCompare : gset string) : ChangeOutcome :=
  if cbChecked then
    if (MAX_COMPARE <=? size selectedForCompare)%nat then
      mkOutcome selectedForCompare false (Some capacityMessage) true
    else
      mkOutcome ({[selId]} ∪ selectedForCompare) true None false
  else
    mkOutcome (selectedForCompare ∖ {[selId]}) false None false.

(** The selection after a series of checkbox changes, each given by the
    identifier of the row and the state the click gave its checkbox. *)
Definition afterChanges (events : list (string * bool))
    (selectedForCompare : gset string) : gset string :=
  List.fold_left
    (fun sel e => selection (onCompareChange (fst e) (snd e) sel))
    events selectedForCompare.

(** ** Chart buckets *)

(** [Number.isInteger(s)] *)
Definition isInteger (s : Q) : bool := Qeq_bool s (inject_Z (Qfloor s)).

(** The bucket a record increments, if any:
    [Number.isInteger(s) && s >= 0 && s <= 10]. *)
Definition bucketOf (d : Device) : option nat :=
  match repairability_score d with
  | Some s =>
      if isInteger s && Qle_bool 0 s && Qle_bool s 10
      then Some (Z.to_nat (Qfloor s))
      else None
  | None => None
  end.

(** [Array(11).fill(0)] followed by the [forEach] with [buckets[s]++]. *)
Definition chartBuckets (data : list Device) : list nat :=
  List.fold_left
    (fun buckets d =>
       match bucketOf d with
       | Some s => alter S s buckets
       | None => buckets
       end)
    data (replicate 11 0%nat).

Inductive ChartResult :=
  | NoDataForChart            (* 'No data available for chart' *)
  | CanvasNotFound            (* 'Chart canvas not found' *)
  | ChartDrawn (buckets : list nat).

(** [renderChart(data)] of the chart module; [canvas] tells whether the
    page has a canvas with a 2d context to draw on. *)
Definition renderChart (canvas : bool) (data : list Device) : ChartResult :=
  match data with
  | [] => NoDataForChart
  | _ =>
      let buckets := chartBuckets data in
      if canvas then ChartDrawn buckets else CanvasNotFound
  end.

(** ** State/URL synchroniser *)

(** A [URLSearchParams] object: its list of name-value pairs, with the
    application/x-www-form-urlencoded serialiser behind [toString] and
    the parser behind [new URLSearchParams(text)]. *)
Module URLSearchParams.

Definition t := list (string * string).

Definition get (k : string) (ps : t) : option string :=
  match List.find (fun p => String.eqb (fst p) k) ps with
  | Some p => Some (snd p)
  | None => None
  end.

Definition delete (k : string) (ps : t) : t :=
  List.filter (fun p => negb (String.eqb (fst p) k)) ps.

(** [set] overwrites the first pair named [k] and drops the others, or
    appends a pair. *)
Fixpoint set (k v : string) (ps : t) : t :=
  match ps with
  | [] => [(k, v)]
  | p :: rest =>
      if String.eqb (fst p) k then (k, v) :: delete k rest
      else p :: set k v rest
  end.

(** Characters the serialiser leaves as they are: letters, digits and
    [*], [-], [.], [_]. *)
Definition unreserved (c : ascii) : bool :=
  let n := nat_of_ascii c in
  ((48 <=? n) && (n <=? 57) || (65 <=? n) && (n <=? 90) ||
   (97 <=? n) && (n <=? 122) ||
   (n =? 42) || (n =? 45) || (n =? 46) || (n =? 95))%nat.

Definition hexDigit (n : nat) : ascii :=
  ascii_of_nat (if (n <? 10)%nat then 48 + n else 55 + n).

Definition encodeChar (c : ascii) : string :=
  if Ascii.eqb c " " then "+"
  else if unreserved c then String c ""
  else
    let n := nat_of_ascii c in
    String "%" (String (hexDigit (n / 16)) (String (hexDigit (n mod 16)) "")).

Fixpoint encode (s : string) : string :=
  match s with
  | EmptyString => EmptyString
  | String c r => encodeChar c +:+ encode r
  end.

Definition serializePair (p : string * string) : string :=
  encode (fst p) +:+ "=" +:+ encode (snd p).

(** [params.toString()] *)
Definition toString (ps : t) : string :=
  String.concat "&" (List.map serializePair ps).

Definition hexVal (c : ascii) : option nat :=
  let n := nat_of_ascii c in
  if ((48 <=? n) && (n <=? 57))%nat then Some (n - 48)%nat
  else if ((65 <=? n) && (n <=? 70))%nat then Some (n - 55)%nat
  else if ((97 <=? n) && (n <=? 102))%nat then Some (n - 87)%nat
  else None.

(** Percent-decoding: [%XY] with two hexadecimal digits is one byte, any
    other [%] stands for itself.  The bytes are kept as they are (the
    browser goes on to read them as UTF-8, which changes nothing for
    ASCII text). *)
Fixpoint percentDecode (s : string) : string :=
  match s with
  | EmptyString => EmptyString
  | String c t =>
      if Ascii.eqb c "%" then
        match t with
        | String a (String b r) =>
            match hexVal a, hexVal b with
            | Some h, Some l => String (ascii_of_nat (16 * h + l)) (percentDecode r)
            | _, _ => String c (percentDecode t)
            end
        | _ => String c (percentDecode t)
        end
      else String c (percentDecode t)
  end.

Fixpoint plusToSpace (s : string) : string :=
  match s with
  | EmptyString => EmptyString
  | String c r => String (if Ascii.eqb c "+" then " "%char else c) (plusToSpace r)
  end.

Definition decode (s : string) : string := percentDecode (plusToSpace s).

(** The text before and after the first [c], if there is one. *)
Fixpoint splitFirst (c : ascii) (s : string) : option (string * string) :=
  match s with
  | EmptyString => None
  | String a r =>
      if Ascii.eqb a c then Some (EmptyString, r)
      else match splitFirst c r with
           | Some (x, y) => Some (String a x, y)
           | None => None
           end
  end.

Definition parsePair (bytes : string) : string * string :=
  match splitFirst "=" bytes with
  | Some (n, v) => (decode n, decode v)
  | None => (decode bytes, EmptyString)
  end.

Definition parse (input : string) : t :=
  List.map parsePair (List.filter Js.truthy (Js.split "&" input)).

(** [new URLSearchParams(init)] for a string: a leading [?] is dropped. *)
Definition ofString (init : string) : t :=
  match init with
  | String "?" r => parse r
  | _ => parse init
  end.

End URLSearchParams.

Record Page := mkPage {
  dom : Dom;
  currentSort : SortState;
  locationSearch : string;            (* location.search *)
  brandFilterOptions : list string    (* the values of the options of #brandFilter *)
}.

(** [select.value = v] on a select holding [options]: the first option
    of value [v] becomes the selected one; when there is none, no option
    is selected and [select.value] reads as the empty text. *)
Definition selectValue (options : list string) (v : string) : string :=
  if existsb (String.eqb v) options then v else "".

Definition directionName (d : Direction) : string :=
  match d with asc => "asc" | desc => "desc" end.

(** [params.get(k) || ''] *)
Definition getOrEmpty (k : string) (ps : URLSearchParams.t) : string :=
  default "" (URLSearchParams.get k ps).

(** [if (!params.get(k)) params.delete(k)] *)
Definition cleanEmpty (ps : URLSearchParams.t) (k : string) : URLSearchParams.t :=
  if Js.truthy (getOrEmpty k ps) then ps else URLSearchParams.delete k ps.

(** The parameters [stateToQuery] ends up with, before they are written
    to the address. *)
Definition queryParams (p : Page) : URLSearchParams.t :=
  let params := URLSearchParams.ofString (locationSearch p) in
  let params := URLSearchParams.set "q" (searchInput (dom p)) params in
  let params := URLSearchParams.set "brand" (brandFilter (dom p)) params in
  let params :=
    URLSearchParams.set "sort"
      (key (currentSort p) +:+ ":" +:+ directionName (direction (currentSort p)))
      params in
  let scoreHidden := scoreFilterValue (dom p) in
  let params := URLSearchParams.set "score" scoreHidden params in
  let includeNoScore := if includeNoScoreChecked (dom p) then "1" else "" in
  let params := URLSearchParams.set "noscore" includeNoScore params in
  List.fold_left cleanEmpty ["q"; "brand"; "score"; "noscore"] params.

(** [history.replaceState(null, '', qs ? `?${qs}` : location.pathname)]
    leaves [?qs], or nothing, in [location.search]. *)
Definition stateToQuery (p : Page) : Page :=
  let qs := URLSearchParams.toString (queryParams p) in
  mkPage (dom p) (currentSort p) (if Js.truthy qs then "?" +:+ qs else "")
         (brandFilterOptions p).

(** The assignment to [currentSort] guarded by [sort.includes(':')]. *)
Definition sortFromQuery (sort : string) (current : SortState) : SortState :=
  if Js.includes sort ":" then
    let parts := Js.split ":" sort in
    let key' := List.nth 0 parts "" in
    let dir := List.nth 1 parts "" in
    let k := if Js.truthy key' then key' else key current in
    let d :=
      if String.eqb dir "asc" then asc
      else if String.eqb dir "desc" then desc
      else direction current in
    mkSort k d
  else current.

Definition queryToState (p : Page) : Page :=
  let params := URLSearchParams.ofString (locationSearch p) in
  let q := getOrEmpty "q" params in
  let brand := getOrEmpty "brand" params in
  let sort := getOrEmpty "sort" params in
  let score := getOrEmpty "score" params in
  let noscore :=
    match URLSearchParams.get "noscore" params with
    | Some v => String.eqb v "1"
    | None => false
    end in
  let els :=
    if Js.truthy score then (scoreFilterEls (dom p) ++ [score])%list
    else scoreFilterEls (dom p) in
  mkPage (mkDom q (selectValue (brandFilterOptions p) brand) els (Some noscore))
         (sortFromQuery sort (currentSort p))
         (locationSearch p)
         (brandFilterOptions p).

(** The page as the script finds it at start-up, for a given address.
    The manufacturers are put into [#brandFilter] by
    [populateBrandFilter], from the data, once [loadData] has it: until
    then the select holds the empty choice only. *)
Definition pageAtLoad (search : string) : Page :=
  mkPage (mkDom "" "" [] None) (mkSort "name" asc) search [""].

(** The filter/sort/include-unscored configuration of a page. *)
Record Config := mkConfig {
  cfgSearch : string;
  cfgBrand : string;
  cfgSort : SortState;
  cfgScore : string;
  cfgIncludeUnscored : bool
}.

Definition configOf (p : Page) : Config :=
  mkConfig (searchInput (dom p)) (brandFilter (dom p)) (currentSort p)
           (scoreFilterValue (dom p)) (includeNoScoreChecked (dom p)).

(** ** The filter as the specification words it *)

(** A filter state: the search text, the brand (or any brand), the score
    to match (or none) and whether unscored devices are included. *)
Record FilterState := mkFilter {
  searchText : string;
  brandSel : option string;
  scoreSel : option Z;
  includeUnscored : bool
}.

(** The form controls showing a filter state: the search box holds the
    text, the brand select holds the brand or the empty value of "All
    manufacturers", the hidden [scoreFilter] input exists only while a
    score is selected and holds the score as the chart's click handler
    stores it ([scoreFilter.value = score]), and the [includeNoScore]
    checkbox holds the flag. *)
Definition domOf (f : FilterState) : Dom :=
  mkDom (searchText f)
        (default "" (brandSel f))
        (match scoreSel f with
         | Some n => [Js.numberToString n]
         | None => []
         end)
        (Some (includeUnscored f)).

(** Text of ASCII characters only. *)
Fixpoint asciiText (s : string) : bool :=
  match s with
  | EmptyString => true
  | String c r => (nat_of_ascii c <? 128)%nat && asciiText r
  end.

(** An integer that a JavaScript number holds exactly. *)
Definition safeInteger (n : Z) : Prop := Z.abs n <= 9007199254740992.

(** The filter states the statements are made for.  The brands offered
    by the select are non-empty ([populateBrandFilter] keeps the truthy
    ones): the empty value is the "All manufacturers" choice.  The
    search text is ASCII and the score is an integer a number holds
    exactly (the scores of the site are 0 to 10). *)
Definition validFilter (f : FilterState) : Prop :=
  (brandSel f <> Some "") /\
  asciiText (searchText f) = true /\
  (forall n, scoreSel f = Some n -> safeInteger n).

(** The capital letters, each with its small letter. *)
Definition letterCases : list (ascii * ascii) :=
  List.combine (list_ascii_of_string "ABCDEFGHIJKLMNOPQRSTUVWXYZ")
               (list_ascii_of_string "abcdefghijklmnopqrstuvwxyz").

(** The same character, or the same letter in capital and in small. *)
Definition sameCharIgnoringCase (a b : ascii) : Prop :=
  a = b \/ In (a, b) letterCases \/ In (b, a) letterCases.

(** The same text up to the case of its letters, character by
    character. *)
Inductive sameIgnoringCase : string -> string -> Prop :=
  | same_empty : sameIgnoringCase "" ""
  | same_String (a b : ascii) (s t : string) :
      sameCharIgnoringCase a b -> sameIgnoringCase s t ->
      sameIgnoringCase (String a s) (String b t).

(** [text] occurs in [s], up to the case of the letters. *)
Definition containsIgnoringCase (s text : string) : Prop :=
  exists pre mid post, s = pre +:+ mid +:+ post /\ sameIgnoringCase mid text.

Definition keeps (f : FilterState) (d : Device) : Prop :=
  containsIgnoringCase (name d) (searchText f) /\
  (brandSel f = None \/ brand d = brandSel f) /\
  (scoreSel f = None \/
   exists n q, scoreSel f = Some n /\ repairability_score d = Some q /\ (q == inject_Z n)%Q) /\
  (includeUnscored f = true \/ is_Some (repairability_score d)).

(** The same four conditions read off the form controls themselves: an
    empty brand or score value means "unset", and the score to match is
    the integer the hidden input denotes (as [parseInt] reads it). *)
Definition keepsOnPage (dom : Dom) (d : Device) : Prop :=
  containsIgnoringCase (name d) (searchInput dom) /\
  (brandFilter dom = "" \/ brand d = Some (brandFilter dom)) /\
  (scoreFilterValue dom = "" \/
   exists n q, Js.parseInt (scoreFilterValue dom) = Some n /\
               repairability_score d = Some q /\ (q == inject_Z n)%Q) /\
  (includeNoScoreChecked dom = true \/ is_Some (repairability_score d)).

(** Value of a run of decimal digits, most significant first. *)
Fixpoint uintValue (d : Decimal.uint) (acc : Z) : Z :=
  match d with
  | Decimal.Nil => acc
  | Decimal.D0 d => uintValue d (acc * 10 + 0)
  | Decimal.D1 d => uintValue d (acc * 10 + 1)
  | Decimal.D2 d => uintValue d (acc * 10 + 2)
  | Decimal.D3 d => uintValue d (acc * 10 + 3)
  | Decimal.D4 d => uintValue d (acc * 10 + 4)
  | Decimal.D5 d => uintValue d (acc * 10 + 5)
  | Decimal.D6 d => uintValue d (acc * 10 + 6)
  | Decimal.D7 d => uintValue d (acc * 10 + 7)
  | Decimal.D8 d => uintValue d (acc * 10 + 8)
  | Decimal.D9 d => uintValue d (acc * 10 + 9)
  end.

(** The dataset of the scenarios. *)
Definition deviceA : Device := mkDevice "A" (Some "X") None (Some 9%Q) None.
Definition deviceB : Device := mkDevice "B" (Some "Y") None (Some 3%Q) None.
Definition deviceC : Device := mkDevice "C" (Some "X") None None None.


(** ** Comparison keys of the sort *)


(** Two records have the same extracted comparison key under the sort
    state [s]: the operands the comparator ends up comparing are equal. *)
Definition sameKey (s : SortState) (r d : Device) : bool :=
  if isNumericKey (key s) then
    Qeq_bool (numericOperand (key s) r) (numericOperand (key s) d)
  else
    String.eqb (Js.toLowerCase (stringOperand (key s) r))
               (Js.toLowerCase (stringOperand (key s) d)).

Definition hasScore (d : Device) : bool :=
  match repairability_score d with Some _ => true | None => false end.

(** The teardown list of the scenario. *)
Definition teardownT1 : Teardown := mkTeardown "T1" "" None (Some ["archived"]).
Definition teardownT2 : Teardown := mkTeardown "T2" "" None (Some []).

(** A teardown carries the tag [t]. *)
Definition hasTag (t : string) (td : Teardown) : Prop :=
  exists ts, tags td = Some ts /\ In t ts.

(** The place of a tag in the badge order: starred, user_contributed,
    archived, then the tags that are none of these. *)
Definition tagRank (t : string) : nat :=
  if String.eqb t "starred" then 0
  else if String.eqb t "user_contributed" then 1
  else if String.eqb t "archived" then 2
  else 3.

(** A tag that does not name a property of [Object.prototype]. *)
Definition plainTag (t : string) : Prop := ~ In t objectPrototypeKeys.

(** ** Chart buckets, in the words of the specification *)

(** The score of the record is an integer between 0 and 10. *)
Definition integerScoreInRange (d : Device) : Prop :=
  exists s z, repairability_score d = Some s /\ (s == inject_Z z)%Q /\ 0 <= z <= 10.

(** The score of the record is the integer [i]. *)
Definition scoreIs (i : nat) (d : Device) : bool :=
  match repairability_score d with
  | Some s => Qeq_bool s (inject_Z (Z.of_nat i))
  | None => false
  end.

(** ** Sort keys that survive the URL *)

(** A sort key the query can carry: not empty and without a colon.  The
    keys of the table columns are of this kind, and so is every key
    [queryToState] or a column header ever stores. *)
Definition validSortKey (k : string) : Prop :=
  Js.truthy k = true /\ Js.includes k ":" = false.

(** No character of [s] is [c]. *)
Fixpoint lacks (c : ascii) (s : string) : bool :=
  match s with
  | EmptyString => true
  | String a r => negb (Ascii.eqb a c) && lacks c r
  end.

(** The state of the round-trip scenario. *)
Definition scenarioPage : Page :=
  mkPage (mkDom "pixel" "Google" ["7"] (Some true))
         (mkSort "repairability_score" desc)
         "?utm=x&q=old"
         [""; "Apple"; "Google"].

(** ** The comparator of the first version of the script

    The oldest script of the site (without the comparison drawer and the
    include-unscored toggle) orders the teardown column by the address of
    the first teardown: [a.teardown_urls?.[0]?.url || ''], compared as a
    lower-cased string. *)
Module Legacy.

Definition firstTeardownUrl (d : Device) : string :=
  match teardown_urls d with
  | Some (t :: _) => url t
  | _ => ""
  end.

Definition stringOperand (k : string) (d : Device) : string :=
  if String.eqb k "teardown" then firstTeardownUrl d
  else stringOperand k d.

Definition compareDevices (s : SortState) (a b : Device) : Z :=
  if String.eqb (key s) "repairability_score" then
    let A := default (-1)%Q (repairability_score a) in
    let B := default (-1)%Q (repairability_score b) in
    if numLt A B then before (direction s)
    else if numLt B A then after (direction s)
    else 0
  else
    let A := Js.toLowerCase (stringOperand (key s) a) in
    let B := Js.toLowerCase (stringOperand (key s) b) in
    if Js.strLt A B then before (direction s)
    else if Js.strLt B A then after (direction s)
    else 0.

End Legacy.

(** ** The render pass *)

(** The view [renderTable] computes and hands to the table, the exports
    and the chart: [sortData(getFilteredData())]. *)
Definition derivedView (dom : Dom) (currentSort : SortState)
    (devicesData : list Device) : list Device :=
  sortData currentSort (getFilteredData dom devicesData).

(** ** The handlers of the controls

    Each handler changes the form controls or [currentSort] and then
    calls [renderTable] (which leaves them alone) and [stateToQuery]. *)

(** [document.getElementById('scoreFilter')?.remove()] *)
Definition removeScoreFilter (d : Dom) : Dom :=
  mkDom (searchInput d) (brandFilter d) (List.tl (scoreFilterEls d)) (includeNoScore d).

(** The [onClick] of the chart, for the bar of index [score]: the search
    box and the brand select are emptied, the first [scoreFilter] input
    is removed and a new one holding the index is appended. *)
Definition chartBarClick (score : nat) (p : Page) : Page :=
  let d := removeScoreFilter (mkDom "" "" (scoreFilterEls (dom p)) (includeNoScore (dom p))) in
  let d := mkDom (searchInput d) (brandFilter d)
                 (scoreFilterEls d ++ [Js.numberToString (Z.of_nat score)])
                 (includeNoScore d) in
  stateToQuery (mkPage d (currentSort p) (locationSearch p)
              (brandFilterOptions p)).

(** The click on the "Score: n" chip. *)
Definition scoreChipClear (p : Page) : Page :=
  stateToQuery (mkPage (removeScoreFilter (dom p)) (currentSort p) (locationSearch p)
              (brandFilterOptions p)).

(** [setSegmentState(includeNo)] followed by the click handler of the
    segmented control. *)
Definition segmentClick (includeNo : bool) (p : Page) : Page :=
  let d := mkDom (searchInput (dom p)) (brandFilter (dom p))
                 (scoreFilterEls (dom p)) (Some includeNo) in
  stateToQuery (mkPage d (currentSort p) (locationSearch p)
              (brandFilterOptions p)).

(** The click on the reset button. *)
Definition resetClick (p : Page) : Page :=
  let d := removeScoreFilter (mkDom "" "" (scoreFilterEls (dom p)) (includeNoScore (dom p))) in
  let d := mkDom (searchInput d) (brandFilter d) (scoreFilterEls d) (Some false) in
  stateToQuery (mkPage d (mkSort "name" asc) (locationSearch p)
              (brandFilterOptions p)).

(** The click on a column header carrying [data-sort-key = k]. *)
Definition headerClick (k : string) (p : Page) : Page :=
  stateToQuery (mkPage (dom p) (toggleSort k (currentSort p)) (locationSearch p)
              (brandFilterOptions p)).

(** The [change] handler of the brand select, once the user chose [b]. *)
Definition brandChange (b : string) (p : Page) : Page :=
  let d := mkDom (searchInput (dom p)) b (scoreFilterEls (dom p)) (includeNoScore (dom p)) in
  stateToQuery (mkPage d (currentSort p) (locationSearch p)
              (brandFilterOptions p)).

(** Typing in the search box changes its value at once; the debounced
    handler runs later. *)
Definition typeSearch (text : string) (p : Page) : Page :=
  let d := mkDom text (brandFilter (dom p)) (scoreFilterEls (dom p)) (includeNoScore (dom p)) in
  mkPage d (currentSort p) (locationSearch p) (brandFilterOptions p).

Definition debouncedRender (p : Page) : Page := stateToQuery p.

Inductive Event :=
  | TypeSearch (text : string)
  | DebouncedRender
  | BrandChange (b : string)
  | HeaderClick (k : string)
  | BarClick (score : nat)
  | ScoreChipClear
  | SegmentClick (includeNo : bool)
  | ResetClick.

Definition handle (p : Page) (e : Event) : Page :=
  match e with
  | TypeSearch text => typeSearch text p
  | DebouncedRender => debouncedRender p
  | BrandChange b => brandChange b p
  | HeaderClick k => headerClick k p
  | BarClick score => chartBarClick score p
  | ScoreChipClear => scoreChipClear p
  | SegmentClick includeNo => segmentClick includeNo p
  | ResetClick => resetClick p
  end.

(** The page after start-up ([queryToState] on the loaded address) and a
    series of events. *)
Definition pageAfter (search : string) (events : list Event) : Page :=
  List.fold_left handle events (queryToState (pageAtLoad search)).

(** Header keys are the keys of columns. *)
Definition headerKeysValid (events : list Event) : Prop :=
  Forall (fun e => match e with
                   | HeaderClick k => validSortKey k
                   | _ => True
                   end) events.

(** Every handler but the keystroke itself ends with [stateToQuery]. *)
Definition writesAddress (e : Event) : bool :=
  match e with TypeSearch _ => false | _ => true end.

(** ** What the address holds *)

(** The names [stateToQuery] writes. *)
Definition ownParam (k : string) : bool :=
  existsb (String.eqb k) ["q"; "brand"; "sort"; "score"; "noscore"].

(** The parameters of other names, in their order. *)
Definition foreignParams (ps : URLSearchParams.t) : URLSearchParams.t :=
  List.filter (fun p => negb (ownParam (fst p))) ps.

(** How many parameters are named [k]. *)
Definition occurrences (k : string) (ps : URLSearchParams.t) : nat :=
  length (List.filter (fun p => String.eqb (fst p) k) ps).


(** ** Manufacturer options *)

(** The comparator [Array.prototype.sort] uses when none is given,
    on strings. *)
Definition defaultCompare (x y : string) : Z :=
  if Js.strLt x y then -1 else if Js.strLt y x then 1 else 0.

(** [Boolean(b)] for a manufacturer field. *)
Definition brandTruthy (b : option string) : bool :=
  match b with Some s => Js.truthy s | None => false end.

(** [[...new Set(devicesData.map(d => d.brand).filter(Boolean))].sort()] *)
Definition brandsOf (devicesData : list Device) : list string :=
  let kept := List.filter brandTruthy (List.map brand devicesData) in
  let set := List.fold_left setAdd (List.map (default "") kept) [] in
  arraySort defaultCompare set.

(** The values of the options [populateBrandFilter] leaves in the
    manufacturer control. *)
Definition populateBrandFilter (devicesData : list Device) : list string :=
  "" :: brandsOf devicesData.

(** ** Rows to compare *)

(** [window.lastFiltered || getFilteredData()] *)
Definition rowsOrFiltered (lastFiltered : option (list Device)) (dom : Dom)
    (devicesData : list Device) : list Device :=
  match lastFiltered with
  | Some rows => rows
  | None => getFilteredData dom devicesData
  end.

Definition isSelected (selectedForCompare : gset string) (d : Device) : bool :=
  bool_decide (selIdOf d ∈ selectedForCompare).

Definition selectedRows (selectedForCompare : gset string)
    (lastFiltered : option (list Device)) (dom : Dom) (devicesData : list Device)
  : list Device :=
  let all := rowsOrFiltered lastFiltered dom devicesData in
  firstn 5 (List.filter (isSelected selectedForCompare) all).

Definition overflowMessage : string :=
  "You can compare up to " +:+ Js.numberToString (Z.of_nat MAX_COMPARE)
  +:+ " devices. Showing the first " +:+ Js.numberToString (Z.of_nat MAX_COMPARE)
  +:+ ".".

(** What a click on the Compare button does: the messages handed to
    [notifyAction], and the devices the modal is built from, if it is. *)
Record CompareOutcome := mkCompare {
  notices : list string;
  modalItems : option (list Device)
}.

Definition compareClick (selectedForCompare : gset string)
    (lastFiltered : option (list Device)) (dom : Dom) (devicesData : list Device)
  : CompareOutcome :=
  let items := selectedRows selectedForCompare lastFiltered dom devicesData in
  let first :=
    if (MAX_COMPARE <? size selectedForCompare)%nat then [overflowMessage] else [] in
  if (2 <=? length items)%nat then mkCompare first (Some items)
  else mkCompare (first ++ ["Select at least 2 devices to compare."])%list None.

(** ** Export *)

Definition dquote : ascii := Eval cbv in ascii_of_nat 34.
Definition CR : ascii := Eval cbv in ascii_of_nat 13.
Definition LF : ascii := Eval cbv in ascii_of_nat 10.
Definition CRLF : string := String CR (String LF "").

(** [s.replaceAll(q, q + q)] for the double quote [q]. *)
Fixpoint doubleQuotes (s : string) : string :=
  match s with
  | EmptyString => EmptyString
  | String c r =>
      if Ascii.eqb c dquote then String dquote (String dquote (doubleQuotes r))
      else String c (doubleQuotes r)
  end.

(** The values handed to [toCsvRow]. *)
Inductive CsvValue :=
  | VNull
  | VString (s : string)
  | VNumber (n : Q).

Section CsvExport.
(** [String(n)] for a number [n]. *)
Variable numberText : Q -> string.

(** [String(v ?? '')] *)
Definition csvString (v : CsvValue) : string :=
  match v with
  | VNull => ""
  | VString s => s
  | VNumber n => numberText n
  end.

Definition toCsvRow (fields : list CsvValue) : string :=
  String.concat ","
    (List.map (fun v => String dquote "" +:+ doubleQuotes (csvString v) +:+ String dquote "")
              fields).

Definition csvHeader : list string := ["name"; "brand"; "repairability_score"; "link"].

(** The fields [exportCsv] writes for a device. *)
Definition csvFields (d : Device) : list CsvValue :=
  [ VString (name d);
    VString (default "" (brand d));
    match repairability_score d with Some n => VNumber n | None => VString "" end;
    VString (default "" (link d)) ].

(** The text [exportCsv] puts into the file. *)
Definition exportCsv (lastFiltered : option (list Device)) (dom : Dom)
    (devicesData : list Device) : string :=
  let rows := rowsOrFiltered lastFiltered dom devicesData in
  let lines :=
    ([toCsvRow (List.map VString csvHeader)]
       ++ List.map (fun d => toCsvRow (csvFields d)) rows)%list in
  String.concat CRLF lines.

End CsvExport.

(** A field between its quotes, and a record of such fields. *)
Definition quoted (v : string) : string :=
  String dquote "" +:+ doubleQuotes v +:+ String dquote "".

Definition rowText (cells : list string) : string :=
  String.concat "," (List.map quoted cells).

(** A reader of comma-separated text whose fields are all quoted (RFC
    4180): the records of a text, each a list of fields.  The first
    field of the first record of the result is the one being read. *)
Inductive ReaderState := FieldStart | InField | AfterQuote | AfterCR.

Definition pushChar (c : ascii) (r : option (list (list string)))
  : option (list (list string)) :=
  match r with
  | Some ((f :: row) :: more) => Some ((String c f :: row) :: more)
  | _ => None
  end.

Definition newField (r : option (list (list string))) : option (list (list string)) :=
  match r with
  | Some (row :: more) => Some (("" :: row) :: more)
  | _ => None
  end.

Definition newRecord (r : option (list (list string))) : option (list (list string)) :=
  match r with
  | Some more => Some ([""] :: more)
  | None => None
  end.

Fixpoint readFrom (st : ReaderState) (s : string) : option (list (list string)) :=
  match s with
  | EmptyString =>
      match st with
      | AfterQuote => Some [[""]]
      | _ => None
      end
  | String c r =>
      match st with
      | FieldStart => if Ascii.eqb c dquote then readFrom InField r else None
      | InField =>
          if Ascii.eqb c dquote then readFrom AfterQuote r
          else pushChar c (readFrom InField r)
      | AfterQuote =>
          if Ascii.eqb c dquote then pushChar dquote (readFrom InField r)
          else if Ascii.eqb c "," then newField (readFrom FieldStart r)
          else if Ascii.eqb c CR then readFrom AfterCR r
          else None
      | AfterCR => if Ascii.eqb c LF then newRecord (readFrom FieldStart r) else None
      end
  end.

Definition readCsv (s : string) : option (list (list string)) := readFrom FieldStart s.
From Stdlib Require Import Lqa.

(** ** Age of the data file *)

(** The text between "update: " and " ago", from the difference of the
    two dates in milliseconds ([Math.floor] of a quotient of integers is
    the floor division). *)
Definition ageStr (diffMs : Z) : string :=
  let diffMin := diffMs / 60000 in
  let diffH := diffMin / 60 in
  let diffD := diffH / 24 in
  if 0 <? diffD then Js.numberToString diffD +:+ " day(s)"
  else if 0 <? diffH then Js.numberToString diffH +:+ " hour(s)"
  else if 0 <? diffMin then Js.numberToString diffMin +:+ " minute(s)"
  else "less than 1 minute".

(** What the [HEAD] request gives: it fails, or it answers without a
    [Last-Modified] header, or with one that is not a date, or with the
    date of the file (in milliseconds). *)
Inductive HeadResponse :=
  | HeadFailed
  | HeadWithoutDate
  | HeadInvalidDate
  | HeadDated (fileDate : Z).

(** The text [updateFileAge] leaves in [#fileAge]; [now] is the
    current time in milliseconds. *)
Definition updateFileAge (now : Z) (res : HeadResponse) : string :=
  match res with
  | HeadDated fileDate =>
      "Last datasource update: " +:+ ageStr (now - fileDate) +:+ " ago"
  | HeadInvalidDate =>
      (* every comparison with [NaN] is false *)
      "Last datasource update: " +:+ "less than 1 minute" +:+ " ago"
  | HeadWithoutDate | HeadFailed => "File age not available"
  end.

(** ** Placing the floating panels

    Pixel lengths are rationals, like the other numbers of the
    development; the rounding of floating-point arithmetic is left out. *)

(** [Math.max] and [Math.min] on numbers. *)
Definition mathMax (a b : Q) : Q := if Qle_bool a b then b else a.
Definition mathMin (a b : Q) : Q := if Qle_bool a b then a else b.

(** [n || d] for a number [n]. *)
Definition numberOr (n d : Q) : Q := if Qeq_bool n 0 then d else n.

(** The part of [getBoundingClientRect()] the script reads. *)
Record Rect := mkRect { rectTop : Q; rectBottom : Q; rectLeft : Q }.

(** The [top] and [left] that [positionPortalRelativeToToggle] gives the
    teardown panel, from the rectangle of the toggle, the measured size
    of the panel and the size of the window. *)
Definition positionPortalRelativeToToggle (rect : Rect)
    (offsetWidth offsetHeight innerWidth innerHeight : Q) : Q * Q :=
  let margin := 8%Q in
  let portalWidth := numberOr offsetWidth 320 in
  let portalHeight := numberOr offsetHeight 200 in
  let top := (rectBottom rect + margin)%Q in
  let left := rectLeft rect in
  let left :=
    if numLt innerWidth (left + portalWidth + 8)%Q
    then mathMax 8 (innerWidth - portalWidth - 8)%Q
    else left in
  let top :=
    if numLt innerHeight (top + portalHeight + 8)%Q
    then
      let altTop := (rectTop rect - margin - portalHeight)%Q in
      if numLt 8 altTop then altTop else top
    else top in
  (mathMax 8 top, left).

(** The [top] and [left] that [positionTip] gives the tooltip of the
    information button. *)
Definition positionTip (rect : Rect) (offsetWidth offsetHeight innerWidth : Q) : Q * Q :=
  let margin := 8%Q in
  let top := (rectTop rect - offsetHeight - margin)%Q in
  let top := if numLt top 8 then (rectBottom rect + margin)%Q else top in
  let left := mathMin (mathMax 8 (rectLeft rect)) (innerWidth - offsetWidth - 8)%Q in
  (mathMax 8 top, left).

(** ** Theme *)

Inductive Theme := light | dark.

Definition themeName (t : Theme) : string :=
  match t with light => "light" | dark => "dark" end.

(** [localStorage] is a map from keys to texts. *)
Definition getStoredTheme (localStorage : gmap string string) : option Theme :=
  match localStorage !! "theme" with
  | Some v =>
      if String.eqb v "light" then Some light
      else if String.eqb v "dark" then Some dark
      else None
  | None => None
  end.

Definition computeActiveTheme (localStorage : gmap string string)
    (systemPrefersDark : bool) : Theme :=
  match getStoredTheme localStorage with
  | Some light => light
  | Some dark => dark
  | None => if systemPrefersDark then dark else light
  end.

(** The storage, the preference of the system and the theme the body
    of the page carries. *)
Record ThemeState := mkThemeState {
  localStorage : gmap string string;
  systemPrefersDark : bool;
  shownTheme : Theme
}.

Definition applyTheme (s : ThemeState) : ThemeState :=
  mkThemeState (localStorage s) (systemPrefersDark s)
    (computeActiveTheme (localStorage s) (systemPrefersDark s)).

Inductive ThemeEvent :=
  | ThemeToggleClick
  | SystemThemeChange (prefersDark : bool).

Definition themeStep (s : ThemeState) (e : ThemeEvent) : ThemeState :=
  match e with
  | ThemeToggleClick =>
      let next :=
        match getStoredTheme (localStorage s) with
        | Some light => dark
        | _ => light
        end in
      applyTheme (mkThemeState (<["theme" := themeName next]> (localStorage s))
                               (systemPrefersDark s) (shownTheme s))
  | SystemThemeChange prefersDark =>
      let s1 := mkThemeState (localStorage s) prefersDark (shownTheme s) in
      match getStoredTheme (localStorage s) with
      | None => applyTheme s1
      | Some _ => s1
      end
  end.

(** The page after [DOMContentLoaded] and a series of events. *)
Definition themeAfter (storage : gmap string string) (prefersDark : bool)
    (events : list ThemeEvent) : ThemeState :=
  List.fold_left themeStep events
    (applyTheme (mkThemeState storage prefersDark light)).

(** ** Row density *)

(** [localStorage.getItem(k) || d] *)
Definition getItemOr (k d : string) (storage : gmap string string) : string :=
  match storage !! k with
  | Some v => if Js.truthy v then v else d
  | None => d
  end.

(** Whether [applyDensityFromStorage] leaves the class [compact-rows]
    on the body. *)
Definition applyDensityFromStorage (storage : gmap string string) : bool :=
  String.eqb (getItemOr "density" "compact" storage) "compact".

(** The storage after a click on the density button. *)
Definition densityClick (storage : gmap string string) : gmap string string :=
  let curr := getItemOr "density" "comfortable" storage in
  let next := if String.eqb curr "compact" then "comfortable" else "compact" in
  <["density" := next]> storage.

(** ** Background animation *)

(** The two variables of the animation, and the frame requests the
    browser holds together with the handle it gives out next. *)
Record BgState := mkBg {
  animateBG : bool;
  bgRafId : option nat;
  requested : gset nat;
  nextHandle : nat
}.

(** [bgRafId = requestAnimationFrame(tickBG)] *)
Definition requestTick (s : BgState) : BgState :=
  mkBg (animateBG s) (Some (nextHandle s))
       ({[nextHandle s]} ∪ requested s) (S (nextHandle s)).

Definition tickBG (s : BgState) : BgState :=
  if animateBG s then requestTick s else s.

Definition startBG (s : BgState) : BgState :=
  if negb (animateBG s) then s
  else match bgRafId s with
       | None => requestTick (mkBg true (bgRafId s) (requested s) (nextHandle s))
       | Some _ => s
       end.

Definition stopBG (s : BgState) : BgState :=
  match bgRafId s with
  | Some id => mkBg false None (requested s ∖ {[id]}) (nextHandle s)
  | None => mkBg false None (requested s) (nextHandle s)
  end.

Inductive BgEvent :=
  | FrameDue (id : nat)              (* the browser runs a requested frame *)
  | VisibilityChange (hidden : bool).

Definition bgStep (prefersReducedMotion : bool) (s : BgState) (e : BgEvent) : BgState :=
  match e with
  | FrameDue id =>
      if bool_decide (id ∈ requested s)
      then tickBG (mkBg (animateBG s) (bgRafId s) (requested s ∖ {[id]}) (nextHandle s))
      else s
  | VisibilityChange hidden =>
      if hidden then stopBG s
      else if negb prefersReducedMotion
           then startBG (mkBg true (bgRafId s) (requested s) (nextHandle s))
           else s
  end.

Definition bgAtLoad (prefersReducedMotion : bool) : BgState :=
  let s := mkBg true None ∅ 0 in
  if negb prefersReducedMotion then startBG s else s.

Definition bgAfter (prefersReducedMotion : bool) (events : list BgEvent) : BgState :=
  List.fold_left (bgStep prefersReducedMotion) events (bgAtLoad prefersReducedMotion).

(** [document.hidden] after the events, on a page that was hidden or
    not when it loaded (the script does not read it then). *)
Definition hiddenAfter (hiddenAtLoad : bool) (events : list BgEvent) : bool :=
  List.fold_left
    (fun h e => match e with VisibilityChange hidden => hidden | FrameDue _ => h end)
    events hiddenAtLoad.

(** What the last visibility change reported, if there was one. *)
Definition lastVisibilityChange (events : list BgEvent) : option bool :=
  List.fold_left
    (fun o e => match e with VisibilityChange hidden => Some hidden | FrameDue _ => o end)
    events None.

(** ** The page as a whole

    The variables of the script and the parts of the document that the
    table renderer, the comparison drawer, the chart requests and
    [loadData] write. *)

(** The content of [#deviceTable]: the placeholder rows, the row "No
    devices found", the row "Failed to load data", or one row for each
    device with the state of its checkbox. *)
Inductive TableBody :=
  | SkeletonRows
  | NoDevicesRow
  | FailedRow
  | DeviceRows (rows : list (Device * bool)).

Record Screen := mkScreen {
  tableBody : TableBody;
  deviceCount : string;        (* text of #deviceCount *)
  compareCount : string;       (* text of #compareCount *)
  drawerHidden : bool;         (* class hidden of #compareDrawer *)
  compareDisabled : bool       (* #compareBtn.disabled *)
}.

Definition refreshDrawer (selectedForCompare : gset string) (s : Screen) : Screen :=
  let n := size selectedForCompare in
  mkScreen (tableBody s) (deviceCount s)
    (Js.numberToString (Z.of_nat n) +:+ "/" +:+ Js.numberToString (Z.of_nat MAX_COMPARE)
       +:+ " selected")
    (n =? 0)%nat (n <? 2)%nat.

Definition populateTable (data : list Device) (selectedForCompare : gset string)
    (s : Screen) : Screen :=
  match data with
  | [] => mkScreen NoDevicesRow (deviceCount s) (compareCount s) (drawerHidden s)
                   (compareDisabled s)
  | _ :: _ =>
      let rows := List.map (fun d => (d, isSelected selectedForCompare d)) data in
      let s1 := refreshDrawer selectedForCompare
                  (mkScreen (DeviceRows rows) (deviceCount s) (compareCount s)
                            (drawerHidden s) (compareDisabled s)) in
      mkScreen (tableBody s1)
               (Js.numberToString (Z.of_nat (length data)) +:+ " Devices")
               (compareCount s1) (drawerHidden s1) (compareDisabled s1)
  end.

Record App := mkApp {
  page : Page;
  devicesData : list Device;
  selectedForCompare : gset string;
  lastFiltered : option (list Device);   (* window.lastFiltered *)
  screen : Screen;
  chartData : option (list Device);      (* the data of the last chart request *)
  chartErrorHidden : bool
}.



(** [renderTable({skipChart})]: the chart module draws the requests in
    the order they were made, so the chart ends up with the data of the
    last one. *)
Definition renderTable (skipChart : bool) (a : App) : App :=
  let data := getFilteredData (dom (page a)) (devicesData a) in
  let data := sortData (currentSort (page a)) data in
  mkApp (page a) (devicesData a) (selectedForCompare a) (Some data)
        (populateTable data (selectedForCompare a) (screen a))
        (if skipChart then chartData a else Some data)
        (chartErrorHidden a).




Inductive AppEvent :=
  | Control (e : Event)          (* a handler of the filter and sort controls *)
  | RowCheckbox (index : nat)    (* a click on the checkbox of a row *)
  | ClearCompare.                (* the Clear button of the drawer *)

Definition withPage (p : Page) (a : App) : App :=
  mkApp p (devicesData a) (selectedForCompare a) (lastFiltered a) (screen a)
        (chartData a) (chartErrorHidden a).

Definition withSelection (sel : gset string) (a : App) : App :=
  mkApp (page a) (devicesData a) sel (lastFiltered a) (screen a)
        (chartData a) (chartErrorHidden a).

Definition appStep (a : App) (ev : AppEvent) : App :=
  match ev with
  | Control e =>
      let a1 := withPage (handle (page a) e) a in
      match e with
      | TypeSearch _ => a1
      | SegmentClick _ => renderTable true a1
      | ResetClick => renderTable false (withSelection ∅ a1)
      | _ => renderTable false a1
      end
  | RowCheckbox index =>
      match tableBody (screen a) with
      | DeviceRows rows =>
          match rows !! index with
          | Some (d, wasChecked) =>
              let o := onCompareChange (selIdOf d) (negb wasChecked)
                         (selectedForCompare a) in
              let s := screen a in
              let s1 := mkScreen (DeviceRows (<[index := (d, checked o)]> rows))
                          (deviceCount s) (compareCount s) (drawerHidden s)
                          (compareDisabled s) in
              mkApp (page a) (devicesData a) (selection o) (lastFiltered a)
                    (refreshDrawer (selection o) s1)
                    (chartData a) (chartErrorHidden a)
          | None => a
          end
      | _ => a
      end
  | ClearCompare => renderTable false (withSelection ∅ a)
  end.









(** ** The first version of the script: its filter *)

Module FirstVersion.

(** The arrow function passed to [devicesData.filter] there: no test on
    the presence of a score. *)
Definition recordKept (dom : Dom) (d : Device) : bool :=
  let searchValue := Js.toLowerCase (searchInput dom) in
  let brandValue := brandFilter dom in
  let scoreFilter := scoreFilterValue dom in
  let matchesSearch := Js.includes (Js.toLowerCase (name d)) searchValue in
  let matchesBrand :=
    negb (Js.truthy brandValue) ||
    match brand d with
    | Some b => String.eqb b brandValue
    | None => false
    end in
  let matchesScore :=
    negb (Js.truthy scoreFilter) ||
    scoreStrictEq (repairability_score d) (Js.parseInt scoreFilter) in
  matchesSearch && matchesBrand && matchesScore.

Definition getFilteredData (dom : Dom) (devicesData : list Device) : list Device :=
  List.filter (recordKept dom) devicesData.

End FirstVersion.
(** * Properties *)

(** ** Strings *)

Lemma append_cons (c : ascii) (a b : string) :
  String c a +:+ b = String c (a +:+ b).
Proof. reflexivity. Qed.

Lemma append_empty (b : string) : "" +:+ b = b.
Proof. reflexivity. Qed.

Lemma startsWith_spec (sub s : string) :
  Js.startsWith s sub = true <-> exists post, s = sub +:+ post.
Proof.
  revert s. induction sub as [|a sub IH]; intros s.
  - split; [intros _; exists s; reflexivity | intros _; destruct s; reflexivity].
  - destruct s as [|b s]; simpl.
    + split; [discriminate | intros [post H]; discriminate].
    + destruct (Ascii.eqb_spec a b) as [->|Hne].
      * rewrite IH. split; intros [post H]; exists post;
          rewrite append_cons in *; congruence.
      * split; [discriminate | intros [post H]; rewrite append_cons in H; congruence].
Qed.

Lemma includes_spec (s sub : string) :
  Js.includes s sub = true <-> exists pre post, s = pre +:+ sub +:+ post.
Proof.
  induction s as [|c s IH].
  - change (Js.includes "" sub) with (Js.startsWith "" sub || false).
    rewrite orb_false_r, startsWith_spec. split.
    + intros [post H]. exists "", post. exact H.
    + intros (pre & post & H). destruct pre.
      * exists post. exact H.
      * discriminate.
  - change (Js.includes (String c s) sub)
      with (Js.startsWith (String c s) sub || Js.includes s sub).
    rewrite orb_true_iff, startsWith_spec, IH. split.
    + intros [[post H] | (pre & post & H)].
      * exists "", post. exact H.
      * exists (String c pre), post. rewrite append_cons. congruence.
    + intros (pre & post & H). destruct pre as [|c' pre].
      * left. exists post. exact H.
      * right. exists pre, post. rewrite append_cons in H. congruence.
Qed.

Lemma includes_empty (s : string) : Js.includes s "" = true.
Proof. apply includes_spec. exists "", s. reflexivity. Qed.

Lemma toLowerCase_app (a b : string) :
  Js.toLowerCase (a +:+ b) = Js.toLowerCase a +:+ Js.toLowerCase b.
Proof.
  induction a as [|c a IH]; [reflexivity|].
  rewrite append_cons. simpl. rewrite append_cons. congruence.
Qed.

Lemma toLowerCase_split (x y s : string) :
  Js.toLowerCase s = x +:+ y ->
  exists a b, s = a +:+ b /\ Js.toLowerCase a = x /\ Js.toLowerCase b = y.
Proof.
  revert s. induction x as [|c x IH]; intros s H.
  - exists "", s. auto.
  - rewrite append_cons in H.
    destruct s as [|c' s]; simpl in H; [discriminate|].
    injection H as Hc Hs. destruct (IH _ Hs) as (a & b & -> & Ha & Hb).
    exists (String c' a), b. simpl. rewrite Ha, Hc. auto.
Qed.

(** *** Letter case *)

Ltac find_in_list := repeat (first [left; reflexivity | right]).

Ltac same_char :=
  unfold sameCharIgnoringCase;
  first [ left; reflexivity
        | right; left; solve [vm_compute; find_in_list]
        | right; right; solve [vm_compute; find_in_list] ].

(** [lowerChar] leaves a character alone or takes a capital letter to
    its small letter. *)
Lemma lowerChar_cases (c : ascii) :
  Js.lowerChar c = c \/ In (c, Js.lowerChar c) letterCases.
Proof.
  destruct c as [[] [] [] [] [] [] [] []];
    first [left; reflexivity | right; vm_compute; find_in_list].
Qed.

Lemma letterCases_lower (a b : ascii) :
  In (a, b) letterCases ->
  Js.lowerChar a = b /\ Js.lowerChar b = b /\
  a = ascii_of_nat (nat_of_ascii b - 32).
Proof.
  intros H. vm_compute in H.
  repeat (destruct H as [H | H]; [injection H as <- <-; repeat split|]).
  destruct H.
Qed.

Lemma lowerChar_same (a b : ascii) :
  Js.lowerChar a = Js.lowerChar b <-> sameCharIgnoringCase a b.
Proof.
  unfold sameCharIgnoringCase. split.
  - intros H.
    destruct (lowerChar_cases a) as [Ha | Ha], (lowerChar_cases b) as [Hb | Hb].
    + left. congruence.
    + right. right. rewrite <- H, Ha in Hb. exact Hb.
    + right. left. rewrite H, Hb in Ha. exact Ha.
    + left. apply letterCases_lower in Ha as (_ & _ & Ha).
      apply letterCases_lower in Hb as (_ & _ & Hb). congruence.
  - intros [-> | [H | H]]; [reflexivity | |];
      apply letterCases_lower in H as (H1 & H2 & _); congruence.
Qed.

Lemma toLowerCase_same (s t : string) :
  Js.toLowerCase s = Js.toLowerCase t <-> sameIgnoringCase s t.
Proof.
  split.
  - revert t. induction s as [|a s IH]; intros [|b t] H; simpl in H;
      try discriminate; [constructor|].
    injection H as Hc Hs. constructor; [apply lowerChar_same, Hc | apply IH, Hs].
  - induction 1 as [|a b s t Hc _ IH]; [reflexivity|].
    simpl. apply lowerChar_same in Hc. congruence.
Qed.

Lemma includes_toLowerCase (s text : string) :
  Js.includes (Js.toLowerCase s) (Js.toLowerCase text) = true <->
  containsIgnoringCase s text.
Proof.
  rewrite includes_spec. unfold containsIgnoringCase. split.
  - intros (pre & post & H).
    apply toLowerCase_split in H as (a & r & -> & Ha & Hr).
    apply toLowerCase_split in Hr as (m & p & -> & Hm & Hp).
    exists a, m, p. split; [reflexivity | apply toLowerCase_same, Hm].
  - intros (pre & mid & post & -> & Hm). apply toLowerCase_same in Hm.
    exists (Js.toLowerCase pre), (Js.toLowerCase post).
    rewrite !toLowerCase_app, Hm. reflexivity.
Qed.

(** ** [parseInt] reads what [String] prints *)

Lemma digitsFrom_string_of_uint (d : Decimal.uint) (acc : Z) :
  Js.digitsFrom 10 (Some acc) (NilEmpty.string_of_uint d) = Some (uintValue d acc).
Proof.
  revert acc. induction d; intros acc; simpl; try apply IHd. reflexivity.
Qed.

Lemma uintValue_acc (d : Decimal.uint) (acc : positive) :
  uintValue d (Z.pos acc) = Z.pos (Pos.of_uint_acc d acc).
Proof.
  revert acc. induction d; intros acc; simpl; [reflexivity | ..];
    rewrite <- IHd; f_equal; lia.
Qed.

Lemma uintValue_of_uint (d : Decimal.uint) :
  uintValue d 0 = Z.of_N (Pos.of_uint d).
Proof.
  induction d; simpl; [reflexivity | exact IHd | ..]; apply uintValue_acc.
Qed.

(** The text of a run of digits is read as a decimal number, with or
    without a minus sign in front. *)
Lemma parseInt_string_of_uint (d : Decimal.uint) :
  d <> Decimal.Nil ->
  Js.parseInt (NilEmpty.string_of_uint d) = Some (1 * uintValue d 0) /\
  Js.parseInt (String "-" (NilEmpty.string_of_uint d)) = Some (-1 * uintValue d 0).
Proof.
  intros Hd.
  assert (H : Js.digitsFrom 10 None (NilEmpty.string_of_uint d) = Some (uintValue d 0)).
  { destruct d; try contradiction; simpl; apply digitsFrom_string_of_uint. }
  destruct d as [|d|d|d|d|d|d|d|d|d|d]; try contradiction;
    destruct d; unfold Js.parseInt; simpl in *; rewrite ?H; split; reflexivity.
Qed.

Lemma parseInt_numberToString (n : Z) :
  Js.parseInt (Js.numberToString n) = Some n /\
  Js.truthy (Js.numberToString n) = true.
Proof.
  unfold Js.numberToString. destruct n as [|p|p]; [split; reflexivity | |].
  - simpl. pose proof (DecimalPos.Unsigned.to_uint_nonnil p) as Hnil.
    destruct (parseInt_string_of_uint _ Hnil) as [H _].
    assert (Hs : NilZero.string_of_uint (Pos.to_uint p)
                 = NilEmpty.string_of_uint (Pos.to_uint p)).
    { destruct (Pos.to_uint p); [contradiction | reflexivity ..]. }
    rewrite Hs, H, uintValue_of_uint, DecimalPos.Unsigned.of_to.
    split; [f_equal; lia|].
    destruct (Pos.to_uint p); [contradiction | reflexivity ..].
  - simpl. pose proof (DecimalPos.Unsigned.to_uint_nonnil p) as Hnil.
    destruct (parseInt_string_of_uint _ Hnil) as [_ H].
    assert (Hs : NilZero.string_of_uint (Pos.to_uint p)
                 = NilEmpty.string_of_uint (Pos.to_uint p)).
    { destruct (Pos.to_uint p); [contradiction | reflexivity ..]. }
    rewrite Hs, H, uintValue_of_uint, DecimalPos.Unsigned.of_to.
    split; [f_equal; lia | reflexivity].
Qed.

(** ** The filter *)

Lemma truthy_nonempty (s : string) : Js.truthy s = true <-> s <> "".
Proof. destruct s; simpl; split; congruence. Qed.

Lemma not_truthy_empty (s : string) : negb (Js.truthy s) = true <-> s = "".
Proof. destruct s; simpl; split; congruence. Qed.

Lemma scoreStrictEq_spec (s : option Q) (r : option Z) :
  scoreStrictEq s r = true <->
  exists n q, r = Some n /\ s = Some q /\ (q == inject_Z n)%Q.
Proof.
  destruct s as [q|], r as [n|]; simpl.
  - rewrite Qeq_bool_iff. split.
    + intros H. exists n, q. auto.
    + intros (n' & q' & [= <-] & [= <-] & H). exact H.
  - split; [discriminate | intros (n & q' & [=] & _)].
  - split; [discriminate | intros (n' & q & _ & [=] & _)].
  - split; [discriminate | intros (n & q & [=] & _)].
Qed.

(** The arrow function of the filter, condition by condition. *)
Lemma recordKept_keepsOnPage (dom : Dom) (d : Device) :
  recordKept dom d = true <-> keepsOnPage dom d.
Proof.
  unfold recordKept, keepsOnPage.
  rewrite !andb_true_iff, !orb_true_iff, !not_truthy_empty.
  rewrite includes_toLowerCase, scoreStrictEq_spec.
  assert (Hb : match brand d with
               | Some b => String.eqb b (brandFilter dom)
               | None => false
               end = true <-> brand d = Some (brandFilter dom)).
  { destruct (brand d) as [b|].
    - rewrite String.eqb_eq. split; congruence.
    - split; discriminate. }
  assert (Hi : (if includeNoScoreChecked dom then true
                else match repairability_score d with
                     | Some _ => true
                     | None => false
                     end) = true <->
               (includeNoScoreChecked dom = true \/ is_Some (repairability_score d))).
  { destruct (includeNoScoreChecked dom); [split; auto|].
    destruct (repairability_score d) as [q|].
    - split; [right; eexists; reflexivity | reflexivity].
    - split; [discriminate | intros [[=] | [q [=]]]]. }
  rewrite Hb, Hi. tauto.
Qed.

Lemma keepsOnPage_domOf (f : FilterState) (d : Device) :
  validFilter f -> keepsOnPage (domOf f) d <-> keeps f d.
Proof.
  intros (Hbrand & _ & _). unfold keepsOnPage, keeps.
  destruct f as [text b sc inc]; simpl in *.
  assert (Hb : (default "" b = "" \/ brand d = Some (default "" b)) <->
               (b = None \/ brand d = b)).
  { destruct b as [b|]; simpl; [|tauto].
    split; [intros [->|H]; [contradiction | auto] | intros [[=]|H]; auto]. }
  assert (Hs : (scoreFilterValue (mkDom text (default "" b)
                   match sc with Some n => [Js.numberToString n] | None => [] end
                   (Some inc)) = "" \/
                exists n q,
                  Js.parseInt (scoreFilterValue (mkDom text (default "" b)
                     match sc with Some n => [Js.numberToString n] | None => [] end
                     (Some inc))) = Some n /\
                  repairability_score d = Some q /\ (q == inject_Z n)%Q) <->
               (sc = None \/
                exists n q, sc = Some n /\ repairability_score d = Some q /\
                            (q == inject_Z n)%Q)).
  { destruct sc as [n|]; unfold scoreFilterValue; simpl; [|tauto].
    destruct (parseInt_numberToString n) as [Hp Ht].
    rewrite Hp. apply truthy_nonempty in Ht. split.
    - intros [H | (n' & q & [= <-] & Hq & He)]; [contradiction|].
      right. exists n, q. auto.
    - intros [[=] | (n' & q & [= <-] & Hq & He)]. right. exists n, q. auto. }
  unfold includeNoScoreChecked at 1. simpl. rewrite Hb, Hs. tauto.
Qed.

Lemma recordKept_keeps (f : FilterState) (d : Device) :
  validFilter f -> recordKept (domOf f) d = true <-> keeps f d.
Proof.
  intros Hf. rewrite recordKept_keepsOnPage. now apply keepsOnPage_domOf.
Qed.

(** The device of the scenario on letter case. *)
Lemma pixel_contains :
  containsIgnoringCase "Google Pixel 7 Pro" "pIXel".
Proof.
  exists "Google ", "Pixel", " 7 Pro". split; [reflexivity|].
  repeat (apply same_String; [same_char|]). apply same_empty.
Qed.

(** C1. The filter keeps a record exactly when the name contains the
    search text up to the case of the letters, the brand is unset or
    equal to the record's, the score filter is unset or equal to the
    record's score, and unscored records are included or the record has
    a score; the kept records stay in their order.  So it is for every
    filter state the controls can show (a selected brand is not the
    empty text) whose search text is ASCII and whose score is an integer
    a number holds exactly, and for every record with an ASCII name.
    On the dataset A(X,9), B(Y,3), C(X,null) with brand X and unscored
    records excluded, the view is [A]; the search text pIXel keeps
    "Google Pixel 7 Pro" and drops "Pixelbook". *)
Theorem getFilteredData_keeps_iff :
  (forall f data d, validFilter f -> asciiText (name d) = true ->
     In d (getFilteredData (domOf f) data) <-> In d data /\ keeps f d) /\
  (forall f data, validFilter f ->
     Forall (fun d => asciiText (name d) = true) data ->
     exists keep : Device -> bool,
       (forall d, keep d = true <-> keeps f d) /\
       getFilteredData (domOf f) data = List.filter keep data) /\
  getFilteredData (domOf (mkFilter "" (Some "X") None false))
    [deviceA; deviceB; deviceC] = [deviceA] /\
  getFilteredData (domOf (mkFilter "pIXel 7" None None true))
    [mkDevice "Google Pixel 7 Pro" (Some "Google") None (Some 7%Q) None;
     mkDevice "Pixelbook" (Some "Google") None None None]
  = [mkDevice "Google Pixel 7 Pro" (Some "Google") None (Some 7%Q) None].
Proof.
  split; [|split; [|split]].
  - intros f data d Hf _. unfold getFilteredData.
    rewrite filter_In, recordKept_keeps by exact Hf. reflexivity.
  - intros f data Hf _. exists (recordKept (domOf f)).
    split; [intros d; now apply recordKept_keeps | reflexivity].
  - reflexivity.
  - reflexivity.
Qed.

Lemma getFilteredData_keeps_iff_witness :
  validFilter (mkFilter "pIXel" (Some "Google") (Some 7) false) /\
  asciiText "Google Pixel 7 Pro" = true /\
  In (mkDevice "Google Pixel 7 Pro" (Some "Google") None (Some 7%Q) None)
     (getFilteredData (domOf (mkFilter "pIXel" (Some "Google") (Some 7) false))
        [deviceA; mkDevice "Google Pixel 7 Pro" (Some "Google") None (Some 7%Q) None]).
Proof.
  assert (Hf : validFilter (mkFilter "pIXel" (Some "Google") (Some 7) false)).
  { split; [discriminate|]. split; [reflexivity|].
    intros n [= <-]. unfold safeInteger. simpl. lia. }
  split; [exact Hf|]. split; [reflexivity|].
  apply (proj1 getFilteredData_keeps_iff
           (mkFilter "pIXel" (Some "Google") (Some 7) false)
           [deviceA; mkDevice "Google Pixel 7 Pro" (Some "Google") None (Some 7%Q) None]
           (mkDevice "Google Pixel 7 Pro" (Some "Google") None (Some 7%Q) None)
           Hf eq_refl).
  split; [right; left; reflexivity|].
  split; [exact pixel_contains|]. split; [right; reflexivity|].
  split; [|right; eexists; reflexivity].
  right. exists 7, 7%Q. split; [reflexivity|]. split; reflexivity.
Defined.

(** C10. With the all-pass filter state (no search text, no brand, no
    score filter, unscored records included) the filter returns the
    dataset as it is. *)
Theorem getFilteredData_all_pass (devicesData : list Device) :
  getFilteredData (mkDom "" "" [] (Some true)) devicesData = devicesData /\
  getFilteredData (domOf (mkFilter "" None None true)) devicesData = devicesData /\
  (forall d, Js.includes (Js.toLowerCase (name d)) (Js.toLowerCase "") = true).
Proof.
  assert (H : forall d, recordKept (mkDom "" "" [] (Some true)) d = true).
  { intros d. unfold recordKept. simpl. rewrite includes_empty. reflexivity. }
  assert (Hall : getFilteredData (mkDom "" "" [] (Some true)) devicesData = devicesData).
  { unfold getFilteredData. induction devicesData as [|d l IH]; simpl.
    - reflexivity.
    - rewrite H, IH. reflexivity. }
  split; [exact Hall | split; [exact Hall |]].
  intros d. apply includes_empty.
Qed.

(** X1. The filter is idempotent: filtering a view again with the same
    state changes nothing. *)
Theorem getFilteredData_idempotent (dom : Dom) (devicesData : list Device) :
  getFilteredData dom (getFilteredData dom devicesData)
  = getFilteredData dom devicesData.
Proof.
  unfold getFilteredData. induction devicesData as [|d l IH]; simpl; [reflexivity|].
  destruct (recordKept dom d) eqn:E; simpl; [rewrite E, IH|]; auto.
Qed.

(** ** The sort primitive *)

Section ArraySortFacts.
Context {A : Type} (cmp : A -> A -> Z).

Lemma insertSorted_perm (x : A) (l : list A) :
  Permutation (insertSorted cmp x l) (x :: l).
Proof.
  induction l as [|y l IH]; simpl; [reflexivity|].
  destruct (cmp x y <=? 0); [reflexivity|].
  rewrite IH. apply perm_swap.
Qed.

Lemma arraySort_perm (l : list A) : Permutation (arraySort cmp l) l.
Proof.
  induction l as [|x l IH]; simpl; [reflexivity|].
  rewrite insertSorted_perm. apply perm_skip, IH.
Qed.

Lemma arraySort_length (l : list A) : length (arraySort cmp l) = length l.
Proof. apply Permutation_length, arraySort_perm. Qed.

Lemma arraySort_In (l : list A) (x : A) : In x (arraySort cmp l) <-> In x l.
Proof.
  split; apply Permutation_in; [|symmetry]; apply arraySort_perm.
Qed.

(** An element that may stay before everything in [l] is put in front. *)
Lemma insertSorted_front (x : A) (l : list A) :
  Forall (fun y => cmp x y <= 0) l -> insertSorted cmp x l = x :: l.
Proof.
  destruct l as [|y l]; simpl; [reflexivity|].
  intros H. apply Forall_cons_1 in H as [H _].
  apply Z.leb_le in H. rewrite H. reflexivity.
Qed.

(** An element that has to follow everything in [l1] travels past it. *)
Lemma insertSorted_skip (x : A) (l1 l2 : list A) :
  Forall (fun y => 0 < cmp x y) l1 ->
  insertSorted cmp x (l1 ++ l2) = l1 ++ insertSorted cmp x l2.
Proof.
  induction l1 as [|y l1 IH]; simpl; [reflexivity|].
  intros H. apply Forall_cons_1 in H as [Hy H].
  apply Z.leb_gt in Hy. rewrite Hy. f_equal. apply IH, H.
Qed.

(** Stability: a class of elements none of which has to follow another
    one keeps its order. *)
Lemma insertSorted_filter (P : A -> bool) (x : A) (l : list A) :
  (forall y, P x = true -> P y = true -> cmp x y <= 0) ->
  List.filter P (insertSorted cmp x l) = List.filter P (x :: l).
Proof.
  intros H. induction l as [|y l IH]; simpl; [reflexivity|].
  destruct (cmp x y <=? 0) eqn:E; simpl; [reflexivity|].
  simpl in IH. rewrite IH.
  destruct (P x) eqn:Px; [|reflexivity].
  destruct (P y) eqn:Py; [|reflexivity].
  apply Z.leb_gt in E. specialize (H y eq_refl Py). lia.
Qed.

Lemma arraySort_stable (P : A -> bool) (l : list A) :
  (forall x y, P x = true -> P y = true -> cmp x y <= 0) ->
  List.filter P (arraySort cmp l) = List.filter P l.
Proof.
  intros H. induction l as [|x l IH]; simpl; [reflexivity|].
  rewrite insertSorted_filter by (intros y; apply H).
  simpl. rewrite IH. reflexivity.
Qed.

(** Sortedness, for a comparator whose "may stay before" relation is
    total and transitive. *)
Lemma insertSorted_sorted (x : A) (l : list A) :
  (forall a b, cmp a b <= 0 \/ cmp b a <= 0) ->
  (forall a b c, cmp a b <= 0 -> cmp b c <= 0 -> cmp a c <= 0) ->
  StronglySorted (fun a b => cmp a b <= 0) l ->
  StronglySorted (fun a b => cmp a b <= 0) (insertSorted cmp x l).
Proof.
  intros Htot Htrans. induction l as [|y l IH]; simpl; intros Hs.
  - constructor; [constructor | constructor].
  - apply StronglySorted_inv in Hs as [Hs Hy].
    destruct (cmp x y <=? 0) eqn:E.
    + apply Z.leb_le in E. constructor; [constructor; assumption|].
      constructor; [exact E|].
      eapply Forall_impl; [exact Hy|]. intros z Hz. simpl in Hz.
      eapply Htrans; eassumption.
    + apply Z.leb_gt in E. constructor; [apply IH, Hs|].
      rewrite (insertSorted_perm x l). constructor; [|exact Hy].
      destruct (Htot x y); [lia | assumption].
Qed.

Lemma arraySort_sorted (l : list A) :
  (forall a b, cmp a b <= 0 \/ cmp b a <= 0) ->
  (forall a b c, cmp a b <= 0 -> cmp b c <= 0 -> cmp a c <= 0) ->
  StronglySorted (fun a b => cmp a b <= 0) (arraySort cmp l).
Proof.
  intros Htot Htrans. induction l as [|x l IH]; simpl.
  - constructor.
  - apply insertSorted_sorted; assumption.
Qed.

End ArraySortFacts.

(** ** The comparator of [sortData] *)

Lemma numLt_spec (a b : Q) : numLt a b = true <-> (a < b)%Q.
Proof.
  unfold numLt. rewrite negb_true_iff, <- not_true_iff_false, Qle_bool_iff.
  split; [apply Qnot_le_lt | apply Qlt_not_le].
Qed.

Lemma numLt_false (a b : Q) : numLt a b = false <-> (b <= a)%Q.
Proof.
  unfold numLt. rewrite negb_false_iff. apply Qle_bool_iff.
Qed.

Lemma strLt_irrefl (a : string) : Js.strLt a a = false.
Proof.
  unfold Js.strLt. pose proof (String.compare_antisym a a) as H.
  destruct (String.compare a a); simpl in H; congruence.
Qed.

Lemma strLt_none_eq (a b : string) :
  Js.strLt a b = false -> Js.strLt b a = false -> a = b.
Proof.
  unfold Js.strLt. rewrite (String.compare_antisym b a).
  destruct (String.compare a b) eqn:E; simpl; try discriminate.
  intros _ _. apply String.compare_eq_iff, E.
Qed.

Lemma before_nonzero (dir : Direction) : before dir <> 0.
Proof. destruct dir; discriminate. Qed.

Lemma after_nonzero (dir : Direction) : after dir <> 0.
Proof. destruct dir; discriminate. Qed.

(** The comparator reports a tie exactly for equal comparison keys. *)
Lemma compareDevices_tie (s : SortState) (a b : Device) :
  compareDevices s a b = 0 <-> sameKey s a b = true.
Proof.
  unfold compareDevices, sameKey. destruct (isNumericKey (key s)).
  - rewrite Qeq_bool_iff.
    destruct (numLt _ _) eqn:E1.
    + apply numLt_spec in E1. split.
      * intros H. now apply before_nonzero in H.
      * intros H. rewrite H in E1. now apply Qlt_irrefl in E1.
    + destruct (numLt (numericOperand (key s) b) _) eqn:E2.
      * apply numLt_spec in E2. split.
        -- intros H. now apply after_nonzero in H.
        -- intros H. rewrite H in E2. now apply Qlt_irrefl in E2.
      * apply numLt_false in E1, E2. split; [intros _ | reflexivity].
        apply Qle_antisym; assumption.
  - rewrite String.eqb_eq.
    destruct (Js.strLt _ _) eqn:E1.
    + split.
      * intros H. now apply before_nonzero in H.
      * intros H. rewrite H, strLt_irrefl in E1. discriminate.
    + destruct (Js.strLt (Js.toLowerCase (stringOperand (key s) b)) _) eqn:E2.
      * split.
        -- intros H. now apply after_nonzero in H.
        -- intros H. rewrite H, strLt_irrefl in E2. discriminate.
      * split; [intros _ | reflexivity]. now apply strLt_none_eq.
Qed.

Lemma sameKey_trans_l (s : SortState) (r x y : Device) :
  sameKey s r x = true -> sameKey s r y = true -> sameKey s x y = true.
Proof.
  unfold sameKey. destruct (isNumericKey (key s)).
  - rewrite !Qeq_bool_iff. intros H1 H2. rewrite <- H1, <- H2. reflexivity.
  - rewrite !String.eqb_eq. congruence.
Qed.

(** C6. The sort is stable for every key and direction: the records
    whose comparison key equals that of any given record come out in
    the order they went in (and the output is a rearrangement of the
    input in which ties are exactly the equal keys). *)
Theorem sortData_stable (s : SortState) (data : list Device) :
  (forall r, List.filter (sameKey s r) (sortData s data)
             = List.filter (sameKey s r) data) /\
  Permutation (sortData s data) data /\
  (forall a b, compareDevices s a b = 0 <-> sameKey s a b = true).
Proof.
  split; [|split].
  - intros r. apply arraySort_stable. intros x y Hx Hy.
    assert (compareDevices s x y = 0) as ->; [|lia].
    apply compareDevices_tie. eapply sameKey_trans_l; eassumption.
  - apply arraySort_perm.
  - intros a b. apply compareDevices_tie.
Qed.

(** ** Numeric sort keys *)

Lemma compareDevices_numeric_le (k : string) (dir : Direction) (a b : Device) :
  isNumericKey k = true ->
  compareDevices (mkSort k dir) a b <= 0 <->
  match dir with
  | asc => (numericOperand k a <= numericOperand k b)%Q
  | desc => (numericOperand k b <= numericOperand k a)%Q
  end.
Proof.
  intros Hk. unfold compareDevices. simpl. rewrite Hk.
  destruct (numLt (numericOperand k a) _) eqn:E1.
  - apply numLt_spec in E1. destruct dir; simpl.
    + split; [intros _; now apply Qlt_le_weak | lia].
    + split; [lia | intros H; exfalso; eapply Qlt_not_le; eassumption].
  - apply numLt_false in E1.
    destruct (numLt (numericOperand k b) _) eqn:E2.
    + apply numLt_spec in E2. destruct dir; simpl.
      * split; [lia | intros H; exfalso; eapply Qlt_not_le; eassumption].
      * split; [intros _; exact E1 | lia].
    + apply numLt_false in E2. destruct dir; simpl; split; auto; lia.
Qed.

Lemma StronglySorted_iff {A : Type} (R R' : A -> A -> Prop) (l : list A) :
  (forall a b, R a b <-> R' a b) -> StronglySorted R l -> StronglySorted R' l.
Proof.
  intros H. induction 1 as [|x l Hs IH Hx]; constructor; [exact IH|].
  eapply Forall_impl; [exact Hx|]. intros y. apply H.
Qed.

Lemma StronglySorted_after {A : Type} (R : A -> A -> Prop) (l1 l2 : list A) (x : A) :
  StronglySorted R (l1 ++ x :: l2) -> Forall (R x) l2.
Proof.
  induction l1 as [|y l1 IH]; simpl; intros H;
    apply StronglySorted_inv in H as [H Hx]; [exact Hx | apply IH, H].
Qed.

Lemma sortData_numeric_sorted (k : string) (dir : Direction) (data : list Device) :
  isNumericKey k = true ->
  StronglySorted
    (fun a b => match dir with
                | asc => (numericOperand k a <= numericOperand k b)%Q
                | desc => (numericOperand k b <= numericOperand k a)%Q
                end)
    (sortData (mkSort k dir) data).
Proof.
  intros Hk.
  apply (StronglySorted_iff (fun a b => compareDevices (mkSort k dir) a b <= 0)).
  { intros a b. now apply compareDevices_numeric_le. }
  apply arraySort_sorted.
  - intros a b. rewrite !compareDevices_numeric_le by exact Hk.
    destruct dir;
      destruct (Qlt_le_dec (numericOperand k a) (numericOperand k b)) as [H|H];
      auto using Qlt_le_weak.
  - intros a b c. rewrite !compareDevices_numeric_le by exact Hk.
    destruct dir; intros H1 H2; eapply Qle_trans; eassumption.
Qed.





(** C5. Under the score key a record without a score stands for -1 and
    so compares below every record with a (non-negative) score; in an
    ascending sort no unscored record follows a scored one, and the
    dataset A(9), B(3), C(null), filtered with unscored records
    included, sorts to C, B, A. *)
Theorem sortData_absent_score_first :
  (forall d, repairability_score d = None ->
     numericOperand "repairability_score" d = (-1)%Q) /\
  (forall dir a b q,
     repairability_score a = None ->
     repairability_score b = Some q -> (0 <= q)%Q ->
     compareDevices (mkSort "repairability_score" dir) a b = before dir /\
     compareDevices (mkSort "repairability_score" dir) b a = after dir) /\
  (forall data l1 x l2,
     (forall d q, In d data -> repairability_score d = Some q -> (0 <= q)%Q) ->
     sortData (mkSort "repairability_score" asc) data = l1 ++ x :: l2 ->
     hasScore x = true ->
     Forall (fun y => hasScore y = true) l2) /\
  sortData (mkSort "repairability_score" asc)
    (getFilteredData (domOf (mkFilter "" None None true))
       [deviceA; deviceB; deviceC])
  = [deviceC; deviceB; deviceA].
Proof.
  split; [|split; [|split]].
  - intros d H. unfold numericOperand. simpl. rewrite H. reflexivity.
  - intros dir a b q Ha Hb Hq. unfold compareDevices, numericOperand. simpl.
    rewrite Ha, Hb.
    assert (H1 : numLt (-1) q = true).
    { apply numLt_spec. eapply Qlt_le_trans; [|exact Hq]. reflexivity. }
    assert (H2 : numLt q (-1) = false).
    { apply numLt_false. apply Qlt_le_weak, numLt_spec, H1. }
    rewrite H1, H2. auto.
  - intros data l1 x l2 Hdata Hsort Hx.
    pose proof (sortData_numeric_sorted "repairability_score" asc data eq_refl) as Hs.
    rewrite Hsort in Hs. apply StronglySorted_after in Hs.
    assert (Hin : In x data).
    { apply (arraySort_In (compareDevices (mkSort "repairability_score" asc))).
      fold (sortData (mkSort "repairability_score" asc) data).
      rewrite Hsort. apply in_or_app. right. left. reflexivity. }
    eapply Forall_impl; [exact Hs|]. intros y Hy. simpl in Hy.
    unfold hasScore in *. unfold numericOperand in Hy. simpl in Hy.
    destruct (repairability_score x) as [q|] eqn:Ex; [|discriminate].
    destruct (repairability_score y) as [q'|]; [reflexivity|].
    exfalso. specialize (Hdata x q Hin Ex).
    assert (H : (0 <= -1)%Q) by (eapply Qle_trans; eassumption).
    now apply H.
  - reflexivity.
Qed.

Lemma sortData_absent_score_first_witness :
  repairability_score deviceC = None /\
  repairability_score deviceB = Some 3%Q /\
  (0 <= 3)%Q /\
  compareDevices (mkSort "repairability_score" asc) deviceC deviceB = before asc /\
  compareDevices (mkSort "repairability_score" asc) deviceB deviceC = after asc.
Proof.
  split; [reflexivity | split; [reflexivity | split; [discriminate |]]].
  apply (proj1 (proj2 sortData_absent_score_first) asc deviceC deviceB 3%Q);
    [reflexivity | reflexivity | discriminate].
Defined.

(** ** Teardown ordering *)

Lemma withIndexFrom_fst (i : nat) (l : list Teardown) :
  List.map fst (withIndexFrom i l) = l.
Proof. revert i. induction l as [|t l IH]; intros i; simpl; [|rewrite IH]; reflexivity. Qed.

Lemma withIndexFrom_ge (i : nat) (l : list Teardown) :
  Forall (fun p => (i <= snd p)%nat) (withIndexFrom i l).
Proof.
  revert i. induction l as [|t l IH]; intros i; simpl; constructor; [simpl; lia|].
  eapply Forall_impl; [apply (IH (S i))|]. intros p Hp. simpl in Hp. lia.
Qed.

Lemma withIndexFrom_filter (P : Teardown -> bool) (i : nat) (l : list Teardown) :
  List.map fst (List.filter (fun p => P (fst p)) (withIndexFrom i l)) = List.filter P l.
Proof.
  revert i. induction l as [|t l IH]; intros i; simpl; [reflexivity|].
  destruct (P t); simpl; rewrite IH; reflexivity.
Qed.

Lemma Forall_filter_both {A : Type} (P : A -> Prop) (f : A -> bool) (l : list A) :
  Forall P l -> Forall (fun x => P x /\ f x = true) (List.filter f l).
Proof.
  induction 1 as [|x l Hx Hl IH]; simpl; [constructor|].
  destruct (f x) eqn:E; [constructor; auto | exact IH].
Qed.

(** Sorting the indexed entries moves the archived ones behind the
    others and changes nothing else. *)
Lemma arraySort_compareIndexed (i : nat) (l : list Teardown) :
  arraySort compareIndexed (withIndexFrom i l) =
  List.filter (fun p => negb (isArchivedTeardown (fst p))) (withIndexFrom i l) ++
  List.filter (fun p => isArchivedTeardown (fst p)) (withIndexFrom i l).
Proof.
  revert i. induction l as [|t l IH]; intros i; [reflexivity|].
  change (withIndexFrom i (t :: l)) with ((t, i) :: withIndexFrom (S i) l).
  change (arraySort compareIndexed ((t, i) :: withIndexFrom (S i) l))
    with (insertSorted compareIndexed (t, i)
            (arraySort compareIndexed (withIndexFrom (S i) l))).
  rewrite IH.
  pose proof (Forall_filter_both _ (fun p => negb (isArchivedTeardown (fst p))) _
                (withIndexFrom_ge (S i) l)) as Hna.
  pose proof (Forall_filter_both _ (fun p => isArchivedTeardown (fst p)) _
                (withIndexFrom_ge (S i) l)) as Har.
  simpl List.filter. destruct (isArchivedTeardown t) eqn:Et; simpl negb; cbv iota.
  - rewrite insertSorted_skip.
    + rewrite insertSorted_front; [reflexivity|].
      eapply Forall_impl; [exact Har|]. intros [u j] [Hj Hu]. simpl in *.
      unfold compareIndexed. simpl. rewrite Et, Hu. simpl. lia.
    + eapply Forall_impl; [exact Hna|]. intros [u j] [Hj Hu]. simpl in *.
      apply negb_true_iff in Hu.
      unfold compareIndexed. simpl. rewrite Et, Hu. simpl. lia.
  - rewrite insertSorted_front; [reflexivity|].
    apply Forall_app. split.
    + eapply Forall_impl; [exact Hna|]. intros [u j] [Hj Hu]. simpl in *.
      apply negb_true_iff in Hu.
      unfold compareIndexed. simpl. rewrite Et, Hu. simpl. lia.
    + eapply Forall_impl; [exact Har|]. intros [u j] [Hj Hu]. simpl in *.
      unfold compareIndexed. simpl. rewrite Et, Hu. simpl. lia.
Qed.

Lemma sortTeardowns_partition (teardowns : list Teardown) :
  sortTeardowns teardowns =
  List.filter (fun t => negb (isArchivedTeardown t)) teardowns ++
  List.filter isArchivedTeardown teardowns.
Proof.
  unfold sortTeardowns. rewrite arraySort_compareIndexed, map_app.
  rewrite (withIndexFrom_filter (fun t => negb (isArchivedTeardown t))).
  rewrite (withIndexFrom_filter isArchivedTeardown). reflexivity.
Qed.

Lemma sortTeardowns_perm (teardowns : list Teardown) :
  Permutation (sortTeardowns teardowns) teardowns.
Proof.
  unfold sortTeardowns.
  rewrite <- (withIndexFrom_fst 0 teardowns) at 2.
  apply Permutation_map, arraySort_perm.
Qed.

(** ** Tag aggregation *)

Lemma existsb_eqb_In (t : string) (l : list string) :
  existsb (String.eqb t) l = true <-> In t l.
Proof.
  rewrite existsb_exists. split.
  - intros (x & Hx & He). apply String.eqb_eq in He. congruence.
  - intros H. exists t. split; [exact H | apply String.eqb_refl].
Qed.

Lemma setAdd_In (set : list string) (t x : string) :
  In x (setAdd set t) <-> In x set \/ x = t.
Proof.
  unfold setAdd. destruct (existsb (String.eqb t) set) eqn:E.
  - apply existsb_eqb_In in E. split; [auto | intros [H | ->]; assumption].
  - rewrite in_app_iff. simpl. intuition congruence.
Qed.

Lemma setAdd_NoDup (set : list string) (t : string) :
  NoDup set -> NoDup (setAdd set t).
Proof.
  intros H. unfold setAdd. destruct (existsb (String.eqb t) set) eqn:E; [exact H|].
  apply NoDup_app. split; [exact H | split].
  - intros x Hx Hx'. apply list_elem_of_In in Hx, Hx'. destruct Hx' as [<- | []].
    apply existsb_eqb_In in Hx. congruence.
  - apply NoDup_singleton.
Qed.

Lemma fold_setAdd_In (ts set : list string) (x : string) :
  In x (List.fold_left setAdd ts set) <-> In x set \/ In x ts.
Proof.
  revert set. induction ts as [|t ts IH]; intros set; simpl.
  - tauto.
  - rewrite IH, setAdd_In. intuition congruence.
Qed.

Lemma fold_setAdd_NoDup (ts set : list string) :
  NoDup set -> NoDup (List.fold_left setAdd ts set).
Proof.
  revert set. induction ts as [|t ts IH]; intros set H; simpl; [exact H|].
  apply IH, setAdd_NoDup, H.
Qed.

Lemma collect_tags_In (tds : list Teardown) (set : list string) (x : string) :
  In x (List.fold_left
          (fun set td => List.fold_left setAdd (default [] (tags td)) set) tds set)
  <-> In x set \/ exists td, In td tds /\ hasTag x td.
Proof.
  revert set. induction tds as [|td tds IH]; intros set; simpl.
  - split; [auto | intros [H | (td & [] & _)]; exact H].
  - rewrite IH, fold_setAdd_In. unfold hasTag. split.
    + intros [[H | H] | (td' & Hin & Htag)]; [auto | | right; exists td'; auto].
      right. exists td. split; [auto|].
      destruct (tags td) as [ts|]; simpl in H; [exists ts; auto | destruct H].
    + intros [H | (td' & [<- | Hin] & ts & Hts & Hx)]; [auto | | right; exists td'; eauto].
      left. right. rewrite Hts. exact Hx.
Qed.

Lemma collect_tags_NoDup (tds : list Teardown) (set : list string) :
  NoDup set ->
  NoDup (List.fold_left
           (fun set td => List.fold_left setAdd (default [] (tags td)) set) tds set).
Proof.
  revert set. induction tds as [|td tds IH]; intros set H; simpl; [exact H|].
  apply IH, fold_setAdd_NoDup, H.
Qed.

(** *** The priority of a tag *)

Lemma tagPriority_own :
  tagPriority "starred" = Some 0 /\
  tagPriority "user_contributed" = Some 1 /\
  tagPriority "archived" = Some 2.
Proof. repeat split; reflexivity. Qed.

Lemma tagPriority_other (t : string) :
  t <> "starred" -> t <> "user_contributed" -> t <> "archived" ->
  tagPriority t = if existsb (String.eqb t) objectPrototypeKeys then None else Some 999.
Proof.
  intros H1 H2 H3. unfold tagPriority, TAG_PRIORITY.
  rewrite !lookup_insert_ne by congruence.
  rewrite lookup_singleton_ne by congruence. reflexivity.
Qed.

(** A tag that names no inherited property has the priority of its
    rank: 0, 1, 2, and 999 for the tags of rank 3. *)
Lemma tagPriority_plain (t : string) :
  plainTag t ->
  tagPriority t = Some (match tagRank t with
                        | 0%nat => 0 | 1%nat => 1 | 2%nat => 2 | _ => 999
                        end).
Proof.
  intros Hp. unfold tagRank.
  destruct (String.eqb_spec t "starred") as [-> | H1]; [reflexivity|].
  destruct (String.eqb_spec t "user_contributed") as [-> | H2]; [reflexivity|].
  destruct (String.eqb_spec t "archived") as [-> | H3]; [reflexivity|].
  rewrite tagPriority_other by assumption.
  destruct (existsb (String.eqb t) objectPrototypeKeys) eqn:E; [|reflexivity].
  apply existsb_eqb_In in E. contradiction.
Qed.

Lemma tagRank_bound (t : string) : (tagRank t <= 3)%nat.
Proof.
  unfold tagRank. repeat (destruct (String.eqb t _); [lia|]). lia.
Qed.

Lemma compareTags_plain (a b : string) :
  plainTag a -> plainTag b ->
  (compareTags a b <=? 0)
  = (Z.of_nat (tagRank a) - Z.of_nat (tagRank b) <=? 0).
Proof.
  intros Ha Hb. unfold compareTags.
  rewrite (tagPriority_plain a Ha), (tagPriority_plain b Hb).
  pose proof (tagRank_bound a). pose proof (tagRank_bound b).
  destruct (tagRank a) as [|[|[|[|?]]]], (tagRank b) as [|[|[|[|?]]]];
    try lia; reflexivity.
Qed.

(** The sort looks at the sign of the comparator only, and only on the
    elements of the list. *)
Lemma insertSorted_ext {A : Type} (cmp cmp' : A -> A -> Z) (x : A) (l : list A) :
  (forall y, In y l -> (cmp x y <=? 0) = (cmp' x y <=? 0)) ->
  insertSorted cmp x l = insertSorted cmp' x l.
Proof.
  induction l as [|y l IH]; intros H; [reflexivity|].
  simpl. rewrite (H y) by (left; reflexivity).
  destruct (cmp' x y <=? 0); [reflexivity|].
  rewrite IH; [reflexivity|]. intros z Hz. apply H. right. exact Hz.
Qed.

Lemma arraySort_ext {A : Type} (cmp cmp' : A -> A -> Z) (l : list A) :
  (forall x y, In x l -> In y l -> (cmp x y <=? 0) = (cmp' x y <=? 0)) ->
  arraySort cmp l = arraySort cmp' l.
Proof.
  induction l as [|x l IH]; intros H; [reflexivity|].
  simpl. rewrite <- IH by (intros a b Ha Hb; apply H; right; assumption).
  apply insertSorted_ext. intros y Hy. apply arraySort_In in Hy.
  apply H; [left; reflexivity | right; exact Hy].
Qed.

Lemma sortTags_by_rank (l : list string) :
  Forall plainTag l ->
  sortTags l = arraySort (fun a b => Z.of_nat (tagRank a) - Z.of_nat (tagRank b)) l.
Proof.
  intros Hl. apply arraySort_ext. intros x y Hx Hy.
  rewrite List.Forall_forall in Hl. apply compareTags_plain; apply Hl; assumption.
Qed.

Lemma sortTags_sorted (l : list string) :
  Forall plainTag l ->
  StronglySorted (fun a b => (tagRank a <= tagRank b)%nat) (sortTags l).
Proof.
  intros Hl. rewrite (sortTags_by_rank l Hl).
  apply (StronglySorted_iff
           (fun a b => Z.of_nat (tagRank a) - Z.of_nat (tagRank b) <= 0)).
  { intros a b. lia. }
  apply (arraySort_sorted (fun a b => Z.of_nat (tagRank a) - Z.of_nat (tagRank b))).
  - intros a b. lia.
  - intros a b c. lia.
Qed.

Lemma isArchivedTeardown_hasTag (td : Teardown) :
  isArchivedTeardown td = true <-> hasTag "archived" td.
Proof.
  unfold isArchivedTeardown, hasTag. destruct (tags td) as [ts|].
  - rewrite existsb_eqb_In. split.
    + intros H. exists ts. auto.
    + intros (ts' & [= <-] & H). exact H.
  - split; [discriminate | intros (ts & [=] & _)].
Qed.

(** C8. A tag that names a property every object inherits, such as
    [toString], gets no number from the priority table: its comparisons
    are [NaN], the sort leaves it where it is, and the badge list of a
    teardown tagged toString, starred shows toString before starred
    although starred has the first rank and toString the last. *)
Theorem aggregateTeardownTags_inherited_name :
  tagPriority "toString" = None /\
  compareTags "toString" "starred" = 0 /\
  compareTags "starred" "toString" = 0 /\
  aggregateTeardownTags [mkTeardown "T" "" None (Some ["toString"; "starred"])]
  = ["toString"; "starred"] /\
  tagRank "starred" = 0%nat /\
  tagRank "toString" = 3%nat.
Proof. repeat split; reflexivity. Qed.

(** ** [sortTeardowns] and the store *)

Lemma allocArray_fresh (o : ArrayObj) (h : gmap nat ArrayObj) :
  h !! (allocArray o h).1 = None /\
  (allocArray o h).2 = <[(allocArray o h).1 := o]> h.
Proof.
  unfold allocArray. simpl. split; [|reflexivity].
  apply not_elem_of_dom, is_fresh.
Qed.

(** C9. [sortTeardowns] returns a permutation of its argument, in a new
    array: the array it was given, and every other array of the store,
    is left as it was. *)
Theorem sortTeardowns_permutes_and_preserves_input
    (h : gmap nat ArrayObj) (teardowns : nat) (ts : list Teardown) :
  h !! teardowns = Some (TeardownArray ts) ->
  Permutation ts (sortTeardowns ts) /\
  length (sortTeardowns ts) = length ts /\
  exists out h',
    sortTeardownsIn teardowns h = Some (out, h') /\
    h' !! out = Some (TeardownArray (sortTeardowns ts)) /\
    out <> teardowns /\
    h' !! teardowns = Some (TeardownArray ts) /\
    (forall l o, h !! l = Some o -> h' !! l = Some o).
Proof.
  intros Hts.
  split; [symmetry; apply sortTeardowns_perm|].
  split; [apply Permutation_length, sortTeardowns_perm|].
  unfold sortTeardownsIn. rewrite Hts.
  destruct (allocArray_fresh (IndexedArray (withIndexFrom 0 ts)) h) as [Hw Hh1].
  destruct (allocArray (IndexedArray (withIndexFrom 0 ts)) h) as [w h1].
  simpl in Hw, Hh1. subst h1.
  rewrite alter_insert_eq, lookup_insert_eq. simpl sortInPlace.
  set (h2 := <[w := IndexedArray (arraySort compareIndexed (withIndexFrom 0 ts))]> h).
  destruct (allocArray_fresh
              (TeardownArray (List.map fst (arraySort compareIndexed (withIndexFrom 0 ts))))
              h2) as [Hout Hh3].
  destruct (allocArray _ h2) as [out h3]. simpl in Hout, Hh3. subst h3.
  assert (Hframe : forall l o, h !! l = Some o -> h2 !! l = Some o /\ l <> out).
  { intros l o Hl. assert (w <> l) by congruence.
    assert (H2 : h2 !! l = Some o) by (unfold h2; rewrite lookup_insert_ne; assumption).
    split; [exact H2 | congruence]. }
  exists out, (<[out := TeardownArray
                   (List.map fst (arraySort compareIndexed (withIndexFrom 0 ts)))]> h2).
  split; [reflexivity|].
  split; [apply lookup_insert_eq|].
  destruct (Hframe _ _ Hts) as [H2 Hne].
  split; [congruence|].
  split.
  - rewrite lookup_insert_ne by congruence. exact H2.
  - intros l o Hl. destruct (Hframe _ _ Hl) as [H2' Hne'].
    rewrite lookup_insert_ne by congruence. exact H2'.
Qed.

Lemma sortTeardowns_permutes_and_preserves_input_witness :
  ({[ 0%nat := TeardownArray [teardownT1; teardownT2] ]} : gmap nat ArrayObj) !! 0%nat
    = Some (TeardownArray [teardownT1; teardownT2]) /\
  Permutation [teardownT1; teardownT2] (sortTeardowns [teardownT1; teardownT2]).
Proof.
  split; [reflexivity|].
  apply (sortTeardowns_permutes_and_preserves_input
           {[ 0%nat := TeardownArray [teardownT1; teardownT2] ]} 0%nat
           [teardownT1; teardownT2]).
  reflexivity.
Defined.

(** ** Selection tracker *)

Lemma onCompareChange_bounded (selId : string) (cbChecked : bool) (sel : gset string) :
  (size sel <= MAX_COMPARE)%nat ->
  (size (selection (onCompareChange selId cbChecked sel)) <= MAX_COMPARE)%nat.
Proof.
  intros H.
  assert (Hsub : (size (sel ∖ {[selId]}) <= size sel)%nat)
    by (apply subseteq_size, subseteq_difference_l; reflexivity).
  unfold onCompareChange. destruct cbChecked; [|simpl; lia].
  destruct (MAX_COMPARE <=? size sel)%nat eqn:E; simpl; [exact H|].
  apply Nat.leb_gt in E. rewrite size_union_alt, size_singleton. lia.
Qed.

(** C3. With five identifiers selected, ticking the checkbox of a sixth
    device is turned down: the selection stays as it was (five members,
    the new identifier not among them, none removed), the checkbox is
    cleared again, and the caller is told through [notifyAction] and the
    drawer warning; the handler returns normally. *)
Theorem onCompareChange_rejects_sixth (selectedForCompare : gset string) (selId : string) :
  size selectedForCompare = 5%nat ->
  (selId ∉ selectedForCompare) ->
  selection (onCompareChange selId true selectedForCompare) = selectedForCompare /\
  size (selection (onCompareChange selId true selectedForCompare)) = 5%nat /\
  (selId ∉ selection (onCompareChange selId true selectedForCompare)) /\
  checked (onCompareChange selId true selectedForCompare) = false /\
  notified (onCompareChange selId true selectedForCompare) =
    Some "You can compare up to 5 devices. Deselect one to add another." /\
  warned (onCompareChange selId true selectedForCompare) = true.
Proof.
  intros Hsize Hnew. unfold onCompareChange. rewrite Hsize. simpl.
  repeat split; auto.
Qed.

Lemma onCompareChange_rejects_sixth_witness :
  size ({[ "a"; "b"; "c"; "d"; "e" ]} : gset string) = 5%nat /\
  selection (onCompareChange "f" true {[ "a"; "b"; "c"; "d"; "e" ]})
  = {[ "a"; "b"; "c"; "d"; "e" ]}.
Proof.
  split; [reflexivity|].
  apply (onCompareChange_rejects_sixth {[ "a"; "b"; "c"; "d"; "e" ]} "f").
  - reflexivity.
  - intros H. vm_compute in H. discriminate H.
Defined.

(** ** Chart buckets *)

Lemma isInteger_spec (s : Q) :
  isInteger s = true <-> exists z, (s == inject_Z z)%Q.
Proof.
  unfold isInteger. rewrite Qeq_bool_iff. split.
  - intros H. exists (Qfloor s). exact H.
  - intros [z Hz]. rewrite Hz at 2. rewrite Qfloor_Z. exact Hz.
Qed.

Lemma bucketOf_spec (d : Device) (i : nat) :
  bucketOf d = Some i <->
  exists s z, repairability_score d = Some s /\ (s == inject_Z z)%Q /\
              0 <= z <= 10 /\ i = Z.to_nat z.
Proof.
  unfold bucketOf. destruct (repairability_score d) as [s|].
  - destruct (isInteger s && Qle_bool 0 s && Qle_bool s 10) eqn:E.
    + apply andb_true_iff in E as [E E3]. apply andb_true_iff in E as [E1 E2].
      apply Qeq_bool_iff in E1. apply Qle_bool_iff in E2, E3.
      rewrite E1 in E2, E3.
      change 0%Q with (inject_Z 0) in E2. change 10%Q with (inject_Z 10) in E3.
      rewrite <- Zle_Qle in E2, E3. split.
      * intros [= <-]. exists s, (Qfloor s). auto.
      * intros (s' & z & [= <-] & Hz & Hr & ->). f_equal. f_equal.
        rewrite Hz, Qfloor_Z. reflexivity.
    + split; [discriminate|]. intros (s' & z & [= <-] & Hz & Hr & _).
      exfalso. rewrite <- not_true_iff_false in E. apply E.
      rewrite !andb_true_iff, !Qle_bool_iff, isInteger_spec.
      split; [split|]; [exists z; exact Hz | |]; rewrite Hz.
      * change 0%Q with (inject_Z 0). rewrite <- Zle_Qle. lia.
      * change 10%Q with (inject_Z 10). rewrite <- Zle_Qle. lia.
  - split; [discriminate | intros (s & z & [=] & _)].
Qed.

Lemma bucketOf_lt (d : Device) (i : nat) : bucketOf d = Some i -> (i < 11)%nat.
Proof. rewrite bucketOf_spec. intros (s & z & _ & _ & Hr & ->). lia. Qed.

Lemma bucketOf_is_Some (d : Device) :
  is_Some (bucketOf d) <-> integerScoreInRange d.
Proof.
  unfold integerScoreInRange. split.
  - intros [i Hi]. apply bucketOf_spec in Hi as (s & z & H1 & H2 & H3 & _).
    exists s, z. auto.
  - intros (s & z & H1 & H2 & H3). exists (Z.to_nat z).
    apply bucketOf_spec. exists s, z. auto.
Qed.

(** A record lands in bucket [i] exactly when its score is [i]. *)
Lemma bucketOf_scoreIs (d : Device) (i : nat) :
  (i < 11)%nat ->
  match bucketOf d with Some j => Nat.eqb j i | None => false end = scoreIs i d.
Proof.
  intros Hi. apply eq_true_iff_eq. split.
  - destruct (bucketOf d) as [j|] eqn:E; [|discriminate].
    intros Hj. apply Nat.eqb_eq in Hj. subst j.
    apply bucketOf_spec in E as (s & z & Hs & Hz & Hr & ->).
    unfold scoreIs. rewrite Hs. apply Qeq_bool_iff. rewrite Hz.
    rewrite Z2Nat.id by lia. reflexivity.
  - unfold scoreIs. destruct (repairability_score d) as [s|] eqn:Es; [|discriminate].
    intros H. apply Qeq_bool_iff in H.
    assert (E : bucketOf d = Some i).
    { apply bucketOf_spec. exists s, (Z.of_nat i).
      split; [exact Es | split; [exact H | split; [lia | now rewrite Nat2Z.id]]]. }
    rewrite E. apply Nat.eqb_refl.
Qed.

Lemma length_alter_S (i : nat) (l : list nat) : length (alter S i l) = length l.
Proof. apply length_alter. Qed.

Lemma list_sum_alter_S (i : nat) (l : list nat) :
  (i < length l)%nat -> list_sum (alter S i l) = S (list_sum l).
Proof.
  revert i. induction l as [|x l IH]; intros i Hi; simpl in Hi; [lia|].
  destruct i as [|i]; [reflexivity|].
  change (alter S (S i) (x :: l)) with (x :: alter S i l).
  simpl list_sum. rewrite IH by lia. lia.
Qed.

Lemma nth_alter_S (i j : nat) (l : list nat) :
  (i < length l)%nat ->
  nth j (alter S i l) 0%nat = ((if Nat.eqb i j then 1 else 0) + nth j l 0)%nat.
Proof.
  revert i j. induction l as [|x l IH]; intros i j Hi; simpl in Hi; [lia|].
  destruct i as [|i], j as [|j]; try reflexivity.
  change (alter S (S i) (x :: l)) with (x :: alter S i l).
  change (nth (S j) (x :: alter S i l) 0%nat) with (nth j (alter S i l) 0%nat).
  rewrite IH by lia. reflexivity.
Qed.

(** The [forEach] loop, from any array of eleven counters. *)
Lemma forEach_buckets (data : list Device) (acc : list nat) :
  length acc = 11%nat ->
  let buckets :=
    List.fold_left
      (fun buckets d =>
         match bucketOf d with
         | Some s => alter S s buckets
         | None => buckets
         end) data acc in
  length buckets = 11%nat /\
  list_sum buckets =
    (list_sum acc +
     length (List.filter (fun d => match bucketOf d with Some _ => true | None => false end)
               data))%nat /\
  forall i, nth i buckets 0%nat =
    (nth i acc 0 +
     length (List.filter
               (fun d => match bucketOf d with Some j => Nat.eqb j i | None => false end)
               data))%nat.
Proof.
  revert acc. induction data as [|d data IH]; intros acc Hacc; simpl.
  - split; [exact Hacc | split; [lia | intros i; lia]].
  - destruct (bucketOf d) as [j|] eqn:E.
    + pose proof (bucketOf_lt _ _ E) as Hj.
      destruct (IH (alter S j acc)) as (H1 & H2 & H3).
      { rewrite length_alter_S. exact Hacc. }
      split; [exact H1 | split].
      * rewrite H2, list_sum_alter_S by lia. simpl. lia.
      * intros i. rewrite H3, nth_alter_S by lia.
        destruct (Nat.eqb j i); simpl; lia.
    + destruct (IH acc Hacc) as (H1 & H2 & H3).
      split; [exact H1 | split; [exact H2 | exact H3]].
Qed.

Lemma filter_length_all {A : Type} (f : A -> bool) (l : list A) :
  (length (List.filter f l) <= length l)%nat /\
  (length (List.filter f l) = length l <-> Forall (fun x => f x = true) l).
Proof.
  induction l as [|x l [IH1 IH2]]; simpl.
  - split; [lia | split; [constructor | reflexivity]].
  - destruct (f x) eqn:E; simpl.
    + split; [lia|]. split.
      * intros H. constructor; [exact E | apply IH2; lia].
      * intros H. apply Forall_cons_1 in H as [_ H]. apply IH2 in H. lia.
    + split; [lia|]. split; [lia|].
      intros H. apply Forall_cons_1 in H as [H _]. congruence.
Qed.

(** C7. For a non-empty dataset the chart is drawn from eleven buckets;
    bucket [i] counts the records whose score is the integer [i] (a
    record counts in a bucket only when its score is an integer from 0
    to 10), so the buckets add up to at most the number of records, and
    to exactly that number when and only when every score is an integer
    from 0 to 10. *)
Theorem renderChart_buckets (data : list Device) :
  data <> [] ->
  exists buckets,
    renderChart true data = ChartDrawn buckets /\
    length buckets = 11%nat /\
    (forall i, (i < 11)%nat ->
       nth i buckets 0%nat = length (List.filter (scoreIs i) data)) /\
    (forall d, is_Some (bucketOf d) <-> integerScoreInRange d) /\
    (list_sum buckets <= length data)%nat /\
    (list_sum buckets = length data <-> Forall integerScoreInRange data).
Proof.
  intros Hne. exists (chartBuckets data).
  split; [destruct data; [congruence | reflexivity]|].
  destruct (forEach_buckets data (replicate 11 0%nat) eq_refl) as (H1 & H2 & H3).
  fold (chartBuckets data) in H1, H2, H3.
  split; [exact H1|]. split; [|split; [exact bucketOf_is_Some|]].
  - intros i Hi. rewrite H3.
    assert (nth i (replicate 11 0%nat) 0%nat = 0%nat) as ->.
    { do 11 (destruct i as [|i]; [reflexivity|]). lia. }
    simpl. f_equal. apply filter_ext. intros d. now apply bucketOf_scoreIs.
  - rewrite H2. simpl.
    destruct (filter_length_all
                (fun d => match bucketOf d with Some _ => true | None => false end)
                data) as [Hle Heq].
    split; [exact Hle|]. rewrite Heq. rewrite !Forall_forall.
    split; intros H d Hd; specialize (H d Hd).
    + apply bucketOf_is_Some. destruct (bucketOf d); [eexists; reflexivity | discriminate].
    + apply bucketOf_is_Some in H as [j ->]. reflexivity.
Qed.

Lemma renderChart_buckets_witness :
  [deviceA; deviceB; deviceC] <> [] /\
  exists buckets,
    renderChart true [deviceA; deviceB; deviceC] = ChartDrawn buckets /\
    length buckets = 11%nat /\
    (forall i, (i < 11)%nat ->
       nth i buckets 0%nat
       = length (List.filter (scoreIs i) [deviceA; deviceB; deviceC])) /\
    (forall d, is_Some (bucketOf d) <-> integerScoreInRange d) /\
    (list_sum buckets <= length [deviceA; deviceB; deviceC])%nat /\
    (list_sum buckets = length [deviceA; deviceB; deviceC]
     <-> Forall integerScoreInRange [deviceA; deviceB; deviceC]).
Proof.
  split; [discriminate|].
  apply (renderChart_buckets [deviceA; deviceB; deviceC]). discriminate.
Defined.

(** ** URL parameters *)

Lemma truthy_false (s : string) : Js.truthy s = false -> s = "".
Proof. destruct s; [reflexivity | discriminate]. Qed.

Module URLSearchParamsFacts.
Import URLSearchParams.

Lemma get_delete_eq (k : string) (ps : t) : get k (delete k ps) = None.
Proof.
  unfold get, delete. induction ps as [|[k' v'] ps IH]; simpl; [reflexivity|].
  destruct (String.eqb k' k) eqn:E; simpl; [exact IH|].
  rewrite E. exact IH.
Qed.

Lemma get_delete_ne (k k' : string) (ps : t) :
  k <> k' -> get k' (delete k ps) = get k' ps.
Proof.
  intros Hne. unfold get, delete.
  induction ps as [|[k0 v0] ps IH]; simpl; [reflexivity|].
  destruct (String.eqb_spec k0 k) as [->|H0]; simpl.
  - destruct (String.eqb_spec k k'); [contradiction | exact IH].
  - destruct (String.eqb k0 k'); [reflexivity | exact IH].
Qed.

Lemma get_set_eq (k v : string) (ps : t) : get k (set k v ps) = Some v.
Proof.
  induction ps as [|[k' v'] ps IH]; simpl.
  - unfold get. simpl. rewrite String.eqb_refl. reflexivity.
  - destruct (String.eqb k' k) eqn:E.
    + unfold get. simpl. rewrite String.eqb_refl. reflexivity.
    + unfold get in *. simpl. rewrite E. exact IH.
Qed.

Lemma get_set_ne (k k' v : string) (ps : t) :
  k <> k' -> get k' (set k v ps) = get k' ps.
Proof.
  intros Hne. induction ps as [|[k0 v0] ps IH]; simpl.
  - unfold get. simpl. destruct (String.eqb_spec k k'); [contradiction | reflexivity].
  - destruct (String.eqb_spec k0 k) as [->|H0].
    + pose proof (get_delete_ne k k' ps Hne) as Hd. unfold get in *. simpl.
      destruct (String.eqb_spec k k'); [contradiction | exact Hd].
    + unfold get in *. simpl. destruct (String.eqb k0 k'); [reflexivity | exact IH].
Qed.

(** *** Text of a character *)

Lemma encodeChar_decoded (c : ascii) (rest : string) :
  percentDecode (plusToSpace (encodeChar c) +:+ rest) = String c (percentDecode rest).
Proof. destruct c as [[] [] [] [] [] [] [] []]; reflexivity. Qed.

Lemma encodeChar_lacks (c : ascii) :
  lacks "&" (encodeChar c) = true /\ lacks "=" (encodeChar c) = true.
Proof. destruct c as [[] [] [] [] [] [] [] []]; split; reflexivity. Qed.

(** *** Text of a string *)

Lemma lacks_app (c : ascii) (a b : string) :
  lacks c (a +:+ b) = lacks c a && lacks c b.
Proof.
  induction a as [|x a IH]; [reflexivity|].
  rewrite append_cons. simpl. rewrite IH, andb_assoc. reflexivity.
Qed.

Lemma plusToSpace_app (a b : string) :
  plusToSpace (a +:+ b) = plusToSpace a +:+ plusToSpace b.
Proof.
  induction a as [|x a IH]; [reflexivity|].
  rewrite append_cons. simpl. rewrite append_cons, IH. reflexivity.
Qed.

Lemma encode_lacks (s : string) :
  lacks "&" (encode s) = true /\ lacks "=" (encode s) = true.
Proof.
  induction s as [|c s [IH1 IH2]]; [split; reflexivity|].
  simpl encode. rewrite !lacks_app, IH1, IH2.
  destruct (encodeChar_lacks c) as [-> ->]. split; reflexivity.
Qed.

Lemma decode_encode (s : string) : decode (encode s) = s.
Proof.
  unfold decode. induction s as [|c s IH]; [reflexivity|].
  simpl encode. rewrite plusToSpace_app, encodeChar_decoded, IH. reflexivity.
Qed.

Lemma append_assoc (a b c : string) : (a +:+ b) +:+ c = a +:+ (b +:+ c).
Proof.
  induction a as [|x a IH]; [reflexivity|].
  rewrite !append_cons, IH. reflexivity.
Qed.

Lemma split_lacks (c : ascii) (k rest : string) :
  lacks c k = true ->
  Js.split c (k +:+ String c rest) = k :: Js.split c rest.
Proof.
  induction k as [|x k IH]; intros H.
  - simpl. rewrite Ascii.eqb_refl. reflexivity.
  - simpl in H. apply andb_true_iff in H as [Hx Hk]. apply negb_true_iff in Hx.
    rewrite append_cons. simpl. rewrite Hx, (IH Hk). reflexivity.
Qed.

Lemma split_lacks_whole (c : ascii) (k : string) :
  lacks c k = true -> Js.split c k = [k].
Proof.
  induction k as [|x k IH]; intros H; [reflexivity|].
  simpl in H. apply andb_true_iff in H as [Hx Hk]. apply negb_true_iff in Hx.
  simpl. rewrite Hx, (IH Hk). reflexivity.
Qed.

Lemma splitFirst_lacks (c : ascii) (k rest : string) :
  lacks c k = true ->
  splitFirst c (k +:+ String c rest) = Some (k, rest).
Proof.
  induction k as [|x k IH]; intros H.
  - simpl. rewrite Ascii.eqb_refl. reflexivity.
  - simpl in H. apply andb_true_iff in H as [Hx Hk]. apply negb_true_iff in Hx.
    rewrite append_cons. simpl. rewrite Hx, (IH Hk). reflexivity.
Qed.

(** *** Text of a parameter list *)

Lemma parsePair_serializePair (p : string * string) :
  parsePair (serializePair p) = p.
Proof.
  destruct p as [n v]. unfold parsePair, serializePair. simpl fst. simpl snd.
  change ("=" +:+ encode v) with (String "=" (encode v)).
  rewrite splitFirst_lacks by apply encode_lacks.
  rewrite !decode_encode. reflexivity.
Qed.

Lemma serializePair_lacks (p : string * string) :
  lacks "&" (serializePair p) = true /\ Js.truthy (serializePair p) = true.
Proof.
  unfold serializePair. split.
  - rewrite !lacks_app.
    destruct (encode_lacks (fst p)) as [-> _].
    destruct (encode_lacks (snd p)) as [-> _]. reflexivity.
  - destruct (encode (fst p)); reflexivity.
Qed.

Lemma split_toString (ps : t) :
  List.filter Js.truthy (Js.split "&" (toString ps)) = List.map serializePair ps.
Proof.
  unfold toString. induction ps as [|p ps IH]; [reflexivity|].
  destruct (serializePair_lacks p) as [Hl Ht].
  destruct ps as [|p' ps].
  - simpl. rewrite split_lacks_whole by exact Hl. simpl. rewrite Ht. reflexivity.
  - change (String.concat "&" (List.map serializePair (p :: p' :: ps)))
      with (serializePair p +:+
            String "&" (String.concat "&" (List.map serializePair (p' :: ps)))).
    rewrite split_lacks by exact Hl.
    cbn [List.filter]. rewrite Ht, IH. reflexivity.
Qed.

Lemma parse_toString (ps : t) : parse (toString ps) = ps.
Proof.
  unfold parse. rewrite split_toString, List.map_map.
  induction ps as [|p ps IH]; simpl; [reflexivity|].
  rewrite parsePair_serializePair, IH. reflexivity.
Qed.

(** What is written to the address reads back as the same parameters. *)
Lemma ofString_written (ps : t) :
  ofString (if Js.truthy (toString ps) then "?" +:+ toString ps else "") = ps.
Proof.
  destruct (Js.truthy (toString ps)) eqn:E.
  - change ("?" +:+ toString ps) with (String "?" (toString ps)).
    simpl ofString. apply parse_toString.
  - apply truthy_false in E. 
    destruct ps as [|p ps]; [reflexivity|]. exfalso.
    destruct (serializePair_lacks p) as [_ Ht].
    unfold toString in E. destruct ps as [|p' ps].
    + change (String.concat "&" (List.map serializePair [p]))
        with (serializePair p) in E.
      rewrite E in Ht. discriminate.
    + change (String.concat "&" (List.map serializePair (p :: p' :: ps)))
        with (serializePair p +:+
              String "&" (String.concat "&" (List.map serializePair (p' :: ps)))) in E.
      destruct (serializePair p); discriminate.
Qed.

End URLSearchParamsFacts.

(** ** The state/URL synchroniser *)

Lemma getOrEmpty_set_eq (k v : string) (ps : URLSearchParams.t) :
  getOrEmpty k (URLSearchParams.set k v ps) = v.
Proof. unfold getOrEmpty. rewrite URLSearchParamsFacts.get_set_eq. reflexivity. Qed.

Lemma getOrEmpty_set_ne (k k' v : string) (ps : URLSearchParams.t) :
  k <> k' -> getOrEmpty k' (URLSearchParams.set k v ps) = getOrEmpty k' ps.
Proof.
  intros H. unfold getOrEmpty.
  rewrite URLSearchParamsFacts.get_set_ne by exact H. reflexivity.
Qed.

(** Dropping an empty parameter does not change what [get(k) || ''] reads. *)
Lemma getOrEmpty_cleanEmpty (k k' : string) (ps : URLSearchParams.t) :
  getOrEmpty k' (cleanEmpty ps k) = getOrEmpty k' ps.
Proof.
  unfold cleanEmpty. destruct (Js.truthy (getOrEmpty k ps)) eqn:E; [reflexivity|].
  apply truthy_false in E. unfold getOrEmpty in *.
  destruct (String.eqb_spec k k') as [<-|Hne].
  - rewrite URLSearchParamsFacts.get_delete_eq. simpl. congruence.
  - rewrite URLSearchParamsFacts.get_delete_ne by exact Hne. reflexivity.
Qed.

(** [get(k) === '1'] reads the same as [(get(k) || '') === '1']. *)
Lemma getOrEmpty_is_1 (k : string) (ps : URLSearchParams.t) :
  match URLSearchParams.get k ps with
  | Some v => String.eqb v "1"
  | None => false
  end = String.eqb (getOrEmpty k ps) "1".
Proof. unfold getOrEmpty. destruct (URLSearchParams.get k ps); reflexivity. Qed.

Lemma includes_char_lacks (c : ascii) (s : string) :
  Js.includes s (String c "") = negb (lacks c s).
Proof.
  induction s as [|x s IH]; [reflexivity|].
  change (Js.includes (String x s) (String c ""))
    with ((if Ascii.eqb c x then Js.startsWith s "" else false)
          || Js.includes s (String c "")).
  simpl lacks. rewrite IH, (Ascii.eqb_sym x c).
  destruct (Ascii.eqb c x); [destruct s; reflexivity | reflexivity].
Qed.

Lemma validSortKey_lacks (k : string) :
  validSortKey k -> lacks ":" k = true.
Proof.
  intros [_ H]. rewrite includes_char_lacks in H.
  now apply negb_false_iff in H.
Qed.

Lemma sortFromQuery_round_trip (s current : SortState) :
  validSortKey (key s) ->
  sortFromQuery (key s +:+ ":" +:+ directionName (direction s)) current = s.
Proof.
  intros Hv. unfold sortFromQuery.
  assert (Js.includes (key s +:+ ":" +:+ directionName (direction s)) ":" = true) as ->.
  { apply includes_spec. exists (key s), (directionName (direction s)). reflexivity. }
  change (":" +:+ directionName (direction s))
    with (String ":" (directionName (direction s))).
  rewrite URLSearchParamsFacts.split_lacks by (apply validSortKey_lacks, Hv).
  destruct Hv as [Hk _]. destruct s as [k d]. simpl in *. rewrite Hk.
  destruct d; reflexivity.
Qed.

Lemma split_head_lacks (c : ascii) (s : string) :
  lacks c (List.nth 0 (Js.split c s) "") = true.
Proof.
  induction s as [|x s IH]; [reflexivity|].
  simpl Js.split. destruct (Ascii.eqb x c) eqn:E; [reflexivity|].
  destruct (Js.split c s) as [|h t]; simpl in *; rewrite E; [reflexivity | exact IH].
Qed.

(** Every key the script takes from the query is a valid sort key. *)
Lemma sortFromQuery_valid (sort : string) (current : SortState) :
  validSortKey (key current) -> validSortKey (key (sortFromQuery sort current)).
Proof.
  intros H. unfold sortFromQuery.
  destruct (Js.includes sort ":"); [|exact H]. simpl.
  destruct (Js.truthy (List.nth 0 (Js.split ":" sort) "")) eqn:E; [|exact H].
  split; [exact E|]. rewrite includes_char_lacks, split_head_lacks. reflexivity.
Qed.

(** So is every key a column header stores, when the header's key is. *)
Lemma toggleSort_valid (k : string) (current : SortState) :
  validSortKey k -> validSortKey (key current) ->
  validSortKey (key (toggleSort k current)).
Proof.
  intros Hk Hc. unfold toggleSort.
  destruct (String.eqb (key current) k); simpl; assumption.
Qed.

(** What [queryToState] makes of the parameters [stateToQuery] wrote,
    on any page without a [scoreFilter] input: the search text, the
    sort, the score and the flag come back; the brand comes back when
    the select offers it. *)
Lemma queryToState_after_stateToQuery (p p0 : Page) :
  validSortKey (key (currentSort p)) ->
  scoreFilterEls (dom p0) = [] ->
  configOf (queryToState
              (mkPage (dom p0) (currentSort p0) (locationSearch (stateToQuery p))
                      (brandFilterOptions p0)))
  = mkConfig (searchInput (dom p))
             (selectValue (brandFilterOptions p0) (brandFilter (dom p)))
             (currentSort p)
             (scoreFilterValue (dom p)) (includeNoScoreChecked (dom p)).
Proof.
  intros Hkey Hels. unfold queryToState, stateToQuery, configOf.
  cbn [locationSearch dom currentSort searchInput brandFilter brandFilterOptions].
  rewrite URLSearchParamsFacts.ofString_written.
  unfold queryParams. cbn [List.fold_left].
  rewrite !getOrEmpty_is_1, !getOrEmpty_cleanEmpty.
  rewrite !getOrEmpty_set_eq.
  repeat (rewrite getOrEmpty_set_ne by discriminate).
  rewrite !getOrEmpty_set_eq.
  repeat (rewrite getOrEmpty_set_ne by discriminate).
  rewrite !getOrEmpty_set_eq.
  repeat (rewrite getOrEmpty_set_ne by discriminate).
  rewrite !getOrEmpty_set_eq.
  repeat (rewrite getOrEmpty_set_ne by discriminate).
  rewrite !getOrEmpty_set_eq.
  rewrite sortFromQuery_round_trip by exact Hkey.
  rewrite Hels. f_equal.
  - unfold scoreFilterValue. simpl.
    destruct (scoreFilterEls (dom p)) as [|v els]; simpl; [reflexivity|].
    destruct v; reflexivity.
  - unfold includeNoScoreChecked. simpl.
    destruct (includeNoScore (dom p)) as [[|]|]; reflexivity.
Qed.

(** The select of a freshly loaded page takes no manufacturer. *)
Lemma selectValue_at_load (v : string) : selectValue [""] v = "".
Proof. unfold selectValue. simpl. destruct v; reflexivity. Qed.

Lemma fresh_page_after_stateToQuery (p : Page) :
  validSortKey (key (currentSort p)) ->
  configOf (queryToState (pageAtLoad (locationSearch (stateToQuery p))))
  = mkConfig (searchInput (dom p)) "" (currentSort p)
             (scoreFilterValue (dom p)) (includeNoScoreChecked (dom p)).
Proof.
  intros Hkey.
  pose proof (queryToState_after_stateToQuery p
                (mkPage (mkDom "" "" [] None) (mkSort "name" asc) "" [""])
                Hkey eq_refl) as H.
  cbn [dom currentSort brandFilterOptions] in H.
  rewrite selectValue_at_load in H. exact H.
Qed.

(** C2. The state pixel / Google / repairability_score descending /
    score 7 / unscored included is written to the address with its
    brand, but a freshly loaded page reading that address shows no
    brand: [queryToState] runs before the data is there, when the select
    has no manufacturer to take.  The search text, the sort, the score
    and the include-unscored flag do come back, for this state and for
    every state whose sort key the address can carry. *)
Theorem url_round_trip_drops_brand :
  locationSearch (stateToQuery scenarioPage)
  = "?utm=x&q=pixel&brand=Google&sort=repairability_score%3Adesc&score=7&noscore=1" /\
  configOf scenarioPage
  = mkConfig "pixel" "Google" (mkSort "repairability_score" desc) "7" true /\
  configOf (queryToState (pageAtLoad (locationSearch (stateToQuery scenarioPage))))
  = mkConfig "pixel" "" (mkSort "repairability_score" desc) "7" true /\
  (forall p,
     validSortKey (key (currentSort p)) ->
     configOf (queryToState (pageAtLoad (locationSearch (stateToQuery p))))
     = mkConfig (searchInput (dom p)) "" (currentSort p)
                (scoreFilterValue (dom p)) (includeNoScoreChecked (dom p))) /\
  Forall validSortKey ["name"; "brand"; "repairability_score"; "teardown"].
Proof.
  split; [reflexivity|]. split; [reflexivity|]. split; [reflexivity|].
  split; [exact fresh_page_after_stateToQuery|].
  repeat constructor.
Qed.

(** ** The sort, for every key *)

(** A three-way comparator built from a strict order, as [sortData]
    builds its own: "may stay before" is total and transitive. *)
Section ThreeWay.
Context {K : Type} (lt : K -> K -> bool).
Context (lt_asym : forall a b, lt a b = true -> lt b a = false).
Context (lt_cotrans : forall a b c, lt a c = true -> lt a b = true \/ lt b c = true).

Lemma threeWay_le (dir : Direction) (a b : K) :
  (if lt a b then before dir else if lt b a then after dir else 0) <= 0 <->
  match dir with asc => lt b a = false | desc => lt a b = false end.
Proof using lt_asym.
  destruct (lt a b) eqn:E1.
  - rewrite (lt_asym _ _ E1). destruct dir; simpl; split; auto; try lia; discriminate.
  - destruct (lt b a) eqn:E2; destruct dir; simpl; split; auto; try lia; discriminate.
Qed.

Lemma threeWay_total (dir : Direction) (a b : K) :
  (if lt a b then before dir else if lt b a then after dir else 0) <= 0 \/
  (if lt b a then before dir else if lt a b then after dir else 0) <= 0.
Proof using lt_asym.
  rewrite !threeWay_le.
  destruct (lt a b) eqn:E1; destruct (lt b a) eqn:E2; destruct dir; auto;
    rewrite (lt_asym _ _ E1) in E2; discriminate.
Qed.

Lemma threeWay_trans (dir : Direction) (a b c : K) :
  (if lt a b then before dir else if lt b a then after dir else 0) <= 0 ->
  (if lt b c then before dir else if lt c b then after dir else 0) <= 0 ->
  (if lt a c then before dir else if lt c a then after dir else 0) <= 0.
Proof using lt_asym lt_cotrans.
  rewrite !threeWay_le. destruct dir; intros H1 H2.
  - destruct (lt c a) eqn:E; [|reflexivity].
    destruct (lt_cotrans _ b _ E); congruence.
  - destruct (lt a c) eqn:E; [|reflexivity].
    destruct (lt_cotrans _ b _ E); congruence.
Qed.

End ThreeWay.

Lemma numLt_asym (a b : Q) : numLt a b = true -> numLt b a = false.
Proof. rewrite numLt_spec, numLt_false. apply Qlt_le_weak. Qed.

Lemma numLt_cotrans (a b c : Q) :
  numLt a c = true -> numLt a b = true \/ numLt b c = true.
Proof.
  rewrite !numLt_spec. intros H.
  destruct (Qlt_le_dec a b) as [Hab|Hba]; [left; exact Hab | right].
  eapply Qle_lt_trans; eassumption.
Qed.

Lemma strLt_spec (a b : string) :
  Js.strLt a b = true <-> OrderedTypeEx.String_as_OT.lt a b.
Proof.
  rewrite <- OrderedTypeEx.String_as_OT.cmp_lt.
  unfold Js.strLt, OrderedTypeEx.String_as_OT.cmp.
  destruct (String.compare a b); split; congruence.
Qed.

Lemma strLt_asym (a b : string) : Js.strLt a b = true -> Js.strLt b a = false.
Proof.
  unfold Js.strLt. rewrite (String.compare_antisym b a).
  destruct (String.compare a b); simpl; congruence.
Qed.

Lemma strLt_cotrans (a b c : string) :
  Js.strLt a c = true -> Js.strLt a b = true \/ Js.strLt b c = true.
Proof.
  intros Hac. destruct (Js.strLt a b) eqn:Eab; [left; reflexivity | right].
  destruct (Js.strLt b a) eqn:Eba.
  - apply strLt_spec. apply strLt_spec in Eba, Hac.
    eapply OrderedTypeEx.String_as_OT.lt_trans; eassumption.
  - rewrite <- (strLt_none_eq a b Eab Eba). exact Hac.
Qed.

(** X3. The view handed to the table is sorted by the comparator,
    whatever the key and the direction, and holds the records of the
    input. *)
Theorem sortData_sorted (s : SortState) (data : list Device) :
  StronglySorted (fun a b => compareDevices s a b <= 0) (sortData s data) /\
  Permutation (sortData s data) data.
Proof.
  split; [|apply arraySort_perm].
  apply arraySort_sorted; unfold compareDevices; destruct (isNumericKey (key s)).
  - intros a b. apply (threeWay_total numLt numLt_asym).
  - intros a b. apply (threeWay_total Js.strLt strLt_asym).
  - intros a b c. apply (threeWay_trans numLt numLt_asym numLt_cotrans).
  - intros a b c. apply (threeWay_trans Js.strLt strLt_asym strLt_cotrans).
Qed.

(** ** The selection, over time *)

(** X2. Whatever boxes are ticked and cleared, the selection never
    holds more than [MAX_COMPARE] identifiers. *)
Theorem selection_never_exceeds_capacity (events : list (string * bool)) :
  (size (afterChanges events ∅) <= MAX_COMPARE)%nat.
Proof.
  unfold afterChanges.
  assert (H : forall sel : gset string,
             (size sel <= MAX_COMPARE)%nat ->
             (size (List.fold_left
                      (fun sel e => selection (onCompareChange (fst e) (snd e) sel))
                      events sel) <= MAX_COMPARE)%nat).
  { induction events as [|e events IH]; intros sel Hsel; simpl; [exact Hsel|].
    apply IH, onCompareChange_bounded, Hsel. }
  apply H. rewrite size_empty. unfold MAX_COMPARE. lia.
Qed.

(** ** The first version of the script *)

(** There the teardown column is ordered by address, not by count: a
    record with two teardowns goes before a record with one when its
    first address is the smaller. *)
Lemma legacy_teardown_key_is_address :
  let two := mkDevice "P" None None None
               (Some [mkTeardown "" "a" None None; mkTeardown "" "z" None None]) in
  let one := mkDevice "Q" None None None (Some [mkTeardown "" "b" None None]) in
  Legacy.compareDevices (mkSort "teardown" asc) two one = -1 /\
  compareDevices (mkSort "teardown" asc) two one = 1.
Proof. split; reflexivity. Qed.

(** ** Filter and sort together *)

Lemma compareDevices_total (s : SortState) (a b : Device) :
  compareDevices s a b <= 0 \/ compareDevices s b a <= 0.
Proof.
  unfold compareDevices; destruct (isNumericKey (key s)).
  - apply (threeWay_total numLt numLt_asym).
  - apply (threeWay_total Js.strLt strLt_asym).
Qed.

Lemma compareDevices_trans (s : SortState) (a b c : Device) :
  compareDevices s a b <= 0 -> compareDevices s b c <= 0 ->
  compareDevices s a c <= 0.
Proof.
  unfold compareDevices; destruct (isNumericKey (key s)).
  - apply (threeWay_trans numLt numLt_asym numLt_cotrans).
  - apply (threeWay_trans Js.strLt strLt_asym strLt_cotrans).
Qed.

Section ArraySortFilter.
Context {A : Type} (cmp : A -> A -> Z).
Context (cmp_total : forall a b, cmp a b <= 0 \/ cmp b a <= 0).
Context (cmp_trans : forall a b c, cmp a b <= 0 -> cmp b c <= 0 -> cmp a c <= 0).

Lemma insertSorted_filter_sorted (P : A -> bool) (x : A) (l : list A) :
  StronglySorted (fun a b => cmp a b <= 0) l ->
  List.filter P (insertSorted cmp x l) =
  if P x then insertSorted cmp x (List.filter P l) else List.filter P l.
Proof using cmp_trans.
  induction l as [|y l IH]; intros Hs.
  - simpl. destruct (P x); reflexivity.
  - apply StronglySorted_inv in Hs as [Hs Hy]. simpl insertSorted.
    destruct (cmp x y <=? 0) eqn:E.
    + apply Z.leb_le in E.
      change (List.filter P (x :: y :: l))
        with (if P x then x :: List.filter P (y :: l) else List.filter P (y :: l)).
      destruct (P x); [|reflexivity].
      symmetry. apply insertSorted_front.
      apply Forall_forall. intros z Hz. apply list_elem_of_In, filter_In in Hz as [Hz _].
      destruct Hz as [<- | Hz]; [exact E|].
      rewrite Forall_forall in Hy. apply (cmp_trans _ y); [exact E|].
      apply Hy, list_elem_of_In, Hz.
    + change (List.filter P (y :: insertSorted cmp x l))
        with (if P y then y :: List.filter P (insertSorted cmp x l)
              else List.filter P (insertSorted cmp x l)).
      rewrite (IH Hs). simpl List.filter.
      destruct (P x), (P y); try reflexivity.
      simpl. rewrite E. reflexivity.
Qed.

(** Filtering the sorted array gives what sorting the filtered array
    gives. *)
Lemma arraySort_filter (P : A -> bool) (l : list A) :
  List.filter P (arraySort cmp l) = arraySort cmp (List.filter P l).
Proof using cmp_total cmp_trans.
  induction l as [|x l IH]; [reflexivity|].
  simpl arraySort. rewrite insertSorted_filter_sorted
    by (apply arraySort_sorted; assumption).
  rewrite IH. simpl. destruct (P x); reflexivity.
Qed.

End ArraySortFilter.

(** X4. The view does not depend on the order of the two steps of the
    render pass: sorting the filtered records gives the same list as
    filtering the sorted records, for every state of the form controls,
    every key and every direction. *)
Theorem derivedView_filter_sort_commute
    (dom : Dom) (s : SortState) (devicesData : list Device) :
  derivedView dom s devicesData = getFilteredData dom (sortData s devicesData).
Proof.
  unfold derivedView, getFilteredData, sortData. symmetry.
  apply arraySort_filter.
  - apply compareDevices_total.
  - apply compareDevices_trans.
Qed.

(** ** The chart of a reordered view *)

Lemma filter_length_perm {A : Type} (f : A -> bool) (l l' : list A) :
  Permutation l l' -> length (List.filter f l) = length (List.filter f l').
Proof.
  induction 1 as [|x l l' _ IH|x y l|l l' l'' _ IH1 _ IH2]; simpl.
  - reflexivity.
  - destruct (f x); simpl; congruence.
  - destruct (f x), (f y); reflexivity.
  - congruence.
Qed.

Lemma chartBuckets_nth (data : list Device) (i : nat) :
  nth i (chartBuckets data) 0%nat =
  length (List.filter
            (fun d => match bucketOf d with Some j => Nat.eqb j i | None => false end)
            data).
Proof.
  destruct (forEach_buckets data (replicate 11 0%nat) eq_refl) as (_ & _ & H).
  fold (chartBuckets data) in H. rewrite H.
  assert (nth i (replicate 11 0%nat) 0%nat = 0%nat) as ->; [|reflexivity].
  do 11 (destruct i as [|i]; [reflexivity|]). simpl. destruct i; reflexivity.
Qed.

Lemma chartBuckets_length (data : list Device) : length (chartBuckets data) = 11%nat.
Proof.
  destruct (forEach_buckets data (replicate 11 0%nat) eq_refl) as (H & _).
  exact H.
Qed.

(** X5. The histogram counts records, not positions: two datasets with
    the same records in any order give the same buckets, so the chart
    drawn from the sorted view is the chart of the filtered records
    whatever the sort key and direction. *)
Theorem chartBuckets_order_independent :
  (forall data data', Permutation data data' ->
     chartBuckets data = chartBuckets data') /\
  (forall dom s devicesData,
     chartBuckets (derivedView dom s devicesData)
     = chartBuckets (getFilteredData dom devicesData)).
Proof.
  assert (H : forall data data', Permutation data data' ->
                chartBuckets data = chartBuckets data').
  { intros data data' Hp. apply (nth_ext _ _ 0%nat 0%nat).
    - rewrite !chartBuckets_length. reflexivity.
    - intros i _. rewrite !chartBuckets_nth. now apply filter_length_perm. }
  split; [exact H|].
  intros dom s devicesData. apply H. unfold derivedView, sortData.
  apply arraySort_perm.
Qed.

Lemma chartBuckets_order_independent_witness :
  Permutation [deviceA; deviceB; deviceC] [deviceC; deviceA; deviceB] /\
  chartBuckets [deviceA; deviceB; deviceC] = chartBuckets [deviceC; deviceA; deviceB].
Proof.
  assert (Hp : Permutation [deviceA; deviceB; deviceC] [deviceC; deviceA; deviceB]).
  { apply Permutation_sym. apply (Permutation_cons_app [deviceA; deviceB] []). reflexivity. }
  split; [exact Hp|].
  apply (proj1 chartBuckets_order_independent _ _ Hp).
Defined.

(** ** The handlers of the controls *)

Lemma stateToQuery_dom (p : Page) :
  dom (stateToQuery p) = dom p /\ currentSort (stateToQuery p) = currentSort p.
Proof. split; reflexivity. Qed.

Lemma handle_score_filters (p : Page) (e : Event) :
  (length (scoreFilterEls (dom p)) <= 1)%nat ->
  (length (scoreFilterEls (dom (handle p e))) <= 1)%nat.
Proof.
  intros H. destruct e; simpl; try exact H;
    destruct (scoreFilterEls (dom p)) as [|v [|w l]]; simpl in *; lia.
Qed.

Lemma handle_valid_key (p : Page) (e : Event) :
  match e with HeaderClick k => validSortKey k | _ => True end ->
  validSortKey (key (currentSort p)) ->
  validSortKey (key (currentSort (handle p e))).
Proof.
  intros He H. destruct e; simpl; try exact H.
  - now apply toggleSort_valid.
  - split; reflexivity.
Qed.

Lemma pageAfter_snoc (search : string) (events : list Event) (e : Event) :
  pageAfter search (events ++ [e]) = handle (pageAfter search events) e.
Proof. unfold pageAfter. rewrite fold_left_app. reflexivity. Qed.

Lemma pageAfter_invariants (search : string) (events : list Event) :
  headerKeysValid events ->
  (length (scoreFilterEls (dom (pageAfter search events))) <= 1)%nat /\
  validSortKey (key (currentSort (pageAfter search events))).
Proof.
  induction events as [|e events IH] using rev_ind; intros Hv.
  - unfold pageAfter. simpl. split.
    + destruct (Js.truthy _); simpl; lia.
    + apply sortFromQuery_valid. split; reflexivity.
  - unfold headerKeysValid in Hv. apply Forall_app in Hv as [Hv He].
    apply Forall_cons_1 in He as [He _].
    destruct (IH Hv) as [H1 H2]. rewrite pageAfter_snoc. split.
    + now apply handle_score_filters.
    + now apply handle_valid_key.
Qed.

(** X6. From start-up on, whatever the address the page was opened with
    and whatever the user does, the page holds at most one [scoreFilter]
    input and the sort key stays one the address can carry (given that
    the column headers carry such keys). *)
Theorem handlers_keep_one_score_filter (search : string) (events : list Event) :
  headerKeysValid events ->
  (length (scoreFilterEls (dom (pageAfter search events))) <= 1)%nat /\
  validSortKey (key (currentSort (pageAfter search events))).
Proof. apply pageAfter_invariants. Qed.

Lemma handlers_keep_one_score_filter_witness :
  headerKeysValid [BarClick 3; HeaderClick "brand"; BarClick 7; ResetClick; BarClick 2] /\
  (length (scoreFilterEls
             (dom (pageAfter "?score=9"
                     [BarClick 3; HeaderClick "brand"; BarClick 7; ResetClick; BarClick 2])))
   <= 1)%nat.
Proof.
  assert (Hv : headerKeysValid
                 [BarClick 3; HeaderClick "brand"; BarClick 7; ResetClick; BarClick 2]).
  { repeat constructor. }
  split; [exact Hv|].
  apply (handlers_keep_one_score_filter "?score=9" _ Hv).
Defined.

Lemma address_brand (q : Page) :
  getOrEmpty "brand" (URLSearchParams.ofString (locationSearch (stateToQuery q)))
  = brandFilter (dom q).
Proof.
  unfold stateToQuery. cbn [locationSearch].
  rewrite URLSearchParamsFacts.ofString_written.
  unfold queryParams. cbn [List.fold_left].
  rewrite !getOrEmpty_cleanEmpty.
  repeat (rewrite getOrEmpty_set_ne by discriminate).
  rewrite getOrEmpty_set_eq. reflexivity.
Qed.

(** X7. After every handler that writes the address, the address
    carries the configuration on screen, the brand included.  Opening it
    in a fresh page restores the search text, the sort, the score filter
    and the include-unscored flag, but not the brand: the fresh page
    shows no brand, whatever brand the address carries (given that the
    column headers carry keys the address can carry). *)
Theorem address_restores_all_but_brand
    (search : string) (events : list Event) (e : Event) :
  headerKeysValid (events ++ [e]) ->
  writesAddress e = true ->
  let p := pageAfter search (events ++ [e]) in
  getOrEmpty "brand" (URLSearchParams.ofString (locationSearch p))
  = brandFilter (dom p) /\
  configOf (queryToState (pageAtLoad (locationSearch p)))
  = mkConfig (searchInput (dom p)) "" (currentSort p)
             (scoreFilterValue (dom p)) (includeNoScoreChecked (dom p)).
Proof.
  intros Hv He. cbv zeta. rewrite pageAfter_snoc.
  pose proof Hv as Hv'. unfold headerKeysValid in Hv'.
  apply Forall_app in Hv' as [Hv1 Hv2]. apply Forall_cons_1 in Hv2 as [Hk _].
  destruct (pageAfter_invariants search events Hv1) as [_ Hkey].
  set (p := pageAfter search events) in *.
  assert (Hgen : forall q,
             validSortKey (key (currentSort q)) ->
             getOrEmpty "brand"
               (URLSearchParams.ofString (locationSearch (stateToQuery q)))
             = brandFilter (dom (stateToQuery q)) /\
             configOf (queryToState (pageAtLoad (locationSearch (stateToQuery q))))
             = mkConfig (searchInput (dom (stateToQuery q))) ""
                        (currentSort (stateToQuery q))
                        (scoreFilterValue (dom (stateToQuery q)))
                        (includeNoScoreChecked (dom (stateToQuery q)))).
  { intros q Hq.
    split; [exact (address_brand q) | exact (fresh_page_after_stateToQuery q Hq)]. }
  destruct e; try discriminate He; simpl handle;
    unfold debouncedRender, brandChange, headerClick, chartBarClick,
           scoreChipClear, segmentClick, resetClick;
    apply Hgen; simpl; try exact Hkey.
  - now apply toggleSort_valid.
  - split; reflexivity.
Qed.

Lemma address_restores_all_but_brand_witness :
  headerKeysValid ([TypeSearch "pix"; BrandChange "Google"] ++ [HeaderClick "brand"]) /\
  writesAddress (HeaderClick "brand") = true /\
  brandFilter
    (dom (pageAfter "" ([TypeSearch "pix"; BrandChange "Google"] ++ [HeaderClick "brand"])))
  = "Google" /\
  configOf (queryToState
              (pageAtLoad
                 (locationSearch
                    (pageAfter "" ([TypeSearch "pix"; BrandChange "Google"]
                                     ++ [HeaderClick "brand"])))))
  = mkConfig "pix" "" (mkSort "brand" asc) "" false.
Proof.
  assert (Hv : headerKeysValid
                 ([TypeSearch "pix"; BrandChange "Google"] ++ [HeaderClick "brand"])).
  { repeat constructor. }
  split; [exact Hv | split; [reflexivity | split; [reflexivity|]]].
  apply (proj2 (address_restores_all_but_brand "" [TypeSearch "pix"; BrandChange "Google"]
                  (HeaderClick "brand") Hv eq_refl)).
Defined.

(** ** Clicking a bar, resetting *)

Lemma recordKept_score_only (i : nat) (inc : option bool) (d : Device) :
  recordKept (mkDom "" "" [Js.numberToString (Z.of_nat i)] inc) d = scoreIs i d.
Proof.
  unfold recordKept, scoreFilterValue. cbn [searchInput brandFilter scoreFilterEls].
  destruct (parseInt_numberToString (Z.of_nat i)) as [-> ->].
  change (Js.toLowerCase "") with "". rewrite includes_empty.
  unfold scoreIs, scoreStrictEq. simpl.
  destruct (repairability_score d) as [q|]; destruct (includeNoScoreChecked _);
    rewrite ?andb_true_r; reflexivity.
Qed.

Lemma chartBarClick_filter (p : Page) (i : nat) (devicesData : list Device) :
  (length (scoreFilterEls (dom p)) <= 1)%nat ->
  getFilteredData (dom (chartBarClick i p)) devicesData
  = List.filter (scoreIs i) devicesData.
Proof.
  intros Hels. unfold chartBarClick, getFilteredData, removeScoreFilter. simpl.
  assert (List.tl (scoreFilterEls (dom p)) = []) as ->.
  { destruct (scoreFilterEls (dom p)) as [|v [|w l]]; simpl in *; [reflexivity .. | lia]. }
  apply filter_ext. intros d. apply recordKept_score_only.
Qed.

(** X8. Clicking the bar of score [i] shows exactly the records of the
    whole dataset whose score is [i], whatever was typed or selected
    before, ordered by the sort state, which the click leaves as it is:
    the table is the sort of these records.  There are as many of them
    as the bar of the chart of the whole dataset counts. *)
Theorem chartBarClick_shows_bar (p : Page) (i : nat) (devicesData : list Device) :
  (length (scoreFilterEls (dom p)) <= 1)%nat ->
  (i < 11)%nat ->
  let shown :=
    sortData (currentSort (chartBarClick i p))
             (getFilteredData (dom (chartBarClick i p)) devicesData) in
  currentSort (chartBarClick i p) = currentSort p /\
  shown = sortData (currentSort p) (List.filter (scoreIs i) devicesData) /\
  (forall d, In d shown <-> In d devicesData /\ scoreIs i d = true) /\
  length shown = nth i (chartBuckets devicesData) 0%nat.
Proof.
  intros Hels Hi shown. subst shown.
  rewrite (chartBarClick_filter p i devicesData Hels).
  assert (Hs : currentSort (chartBarClick i p) = currentSort p) by reflexivity.
  rewrite Hs. split; [reflexivity|]. split; [reflexivity|]. split.
  - intros d. unfold sortData. rewrite arraySort_In. apply List.filter_In.
  - unfold sortData. rewrite arraySort_length, chartBuckets_nth. f_equal.
    apply filter_ext. intros d. symmetry. now apply bucketOf_scoreIs.
Qed.

Lemma chartBarClick_shows_bar_witness :
  (length (scoreFilterEls (dom scenarioPage)) <= 1)%nat /\ (9 < 11)%nat /\
  sortData (currentSort (chartBarClick 9 scenarioPage))
           (getFilteredData (dom (chartBarClick 9 scenarioPage))
                            [deviceA; deviceB; deviceC])
  = sortData (currentSort scenarioPage)
             (List.filter (scoreIs 9) [deviceA; deviceB; deviceC]).
Proof.
  assert (H1 : (length (scoreFilterEls (dom scenarioPage)) <= 1)%nat) by (simpl; lia).
  assert (H2 : (9 < 11)%nat) by lia.
  split; [exact H1 | split; [exact H2|]].
  apply (proj1 (proj2 (chartBarClick_shows_bar scenarioPage 9
                         [deviceA; deviceB; deviceC] H1 H2))).
Defined.

(** X9. The reset button brings the page to the configuration of a page
    opened without a query: no search text, no brand, no score filter,
    unscored devices left out, sorted by name ascending; the view is
    then the scored devices. *)
Theorem resetClick_is_fresh_page (p : Page) (devicesData : list Device) :
  (length (scoreFilterEls (dom p)) <= 1)%nat ->
  configOf (resetClick p) = configOf (queryToState (pageAtLoad "")) /\
  getFilteredData (dom (resetClick p)) devicesData = List.filter hasScore devicesData.
Proof.
  intros Hels. unfold resetClick, removeScoreFilter, configOf, getFilteredData. simpl.
  assert (List.tl (scoreFilterEls (dom p)) = []) as ->.
  { destruct (scoreFilterEls (dom p)) as [|v [|w l]]; simpl in *; [reflexivity .. | lia]. }
  split; [reflexivity|].
  apply filter_ext. intros d. unfold recordKept, hasScore. simpl.
  rewrite includes_empty. reflexivity.
Qed.

Lemma resetClick_is_fresh_page_witness :
  (length (scoreFilterEls (dom scenarioPage)) <= 1)%nat /\
  configOf (resetClick scenarioPage) = configOf (queryToState (pageAtLoad "")).
Proof.
  assert (H1 : (length (scoreFilterEls (dom scenarioPage)) <= 1)%nat) by (simpl; lia).
  split; [exact H1|].
  apply (resetClick_is_fresh_page scenarioPage [] H1).
Defined.

(** ** What the address holds *)

Module ParamsAlgebra.
Import URLSearchParams.

Lemma delete_filter (P : string * string -> bool) (k : string) (ps : t) :
  (forall v, P (k, v) = false) ->
  List.filter P (delete k ps) = List.filter P ps.
Proof.
  intros HP. unfold delete. induction ps as [|[k0 v0] ps IH]; simpl; [reflexivity|].
  destruct (String.eqb_spec k0 k) as [->|Hne]; simpl.
  - rewrite HP. exact IH.
  - rewrite IH. reflexivity.
Qed.

Lemma set_filter (P : string * string -> bool) (k v : string) (ps : t) :
  (forall v, P (k, v) = false) ->
  List.filter P (set k v ps) = List.filter P ps.
Proof.
  intros HP. induction ps as [|[k0 v0] ps IH]; simpl.
  - rewrite HP. reflexivity.
  - destruct (String.eqb_spec k0 k) as [->|Hne]; simpl.
    + rewrite !HP. now apply delete_filter.
    + rewrite IH. reflexivity.
Qed.

Lemma occurrences_delete_eq (k : string) (ps : t) : occurrences k (delete k ps) = 0%nat.
Proof.
  unfold occurrences, delete. induction ps as [|[k0 v0] ps IH]; simpl; [reflexivity|].
  destruct (String.eqb k0 k) eqn:E; simpl; [exact IH|]. rewrite E. exact IH.
Qed.

Lemma occurrences_set_eq (k v : string) (ps : t) : occurrences k (set k v ps) = 1%nat.
Proof.
  induction ps as [|[k0 v0] ps IH]; simpl.
  - unfold occurrences. simpl. rewrite String.eqb_refl. reflexivity.
  - destruct (String.eqb k0 k) eqn:E.
    + unfold occurrences. simpl. rewrite String.eqb_refl. simpl.
      f_equal. apply occurrences_delete_eq.
    + unfold occurrences in *. simpl. rewrite E. exact IH.
Qed.

Lemma occurrences_delete_ne (k k' : string) (ps : t) :
  k <> k' -> occurrences k' (delete k ps) = occurrences k' ps.
Proof.
  intros Hne. unfold occurrences. f_equal. apply delete_filter.
  intros v. simpl. now apply String.eqb_neq.
Qed.

Lemma occurrences_set_ne (k k' v : string) (ps : t) :
  k <> k' -> occurrences k' (set k v ps) = occurrences k' ps.
Proof.
  intros Hne. unfold occurrences. f_equal. apply set_filter.
  intros w. simpl. now apply String.eqb_neq.
Qed.

Lemma delete_absent (k : string) (ps : t) : get k ps = None -> delete k ps = ps.
Proof.
  unfold get, delete. induction ps as [|[k0 v0] ps IH]; simpl; [reflexivity|].
  destruct (String.eqb k0 k); simpl; [discriminate|].
  intros H. rewrite (IH H). reflexivity.
Qed.

Lemma occurrences_absent (k : string) (ps : t) :
  occurrences k ps = 0%nat -> get k ps = None.
Proof.
  unfold occurrences, get. induction ps as [|[k0 v0] ps IH]; simpl; [reflexivity|].
  destruct (String.eqb k0 k); simpl; [discriminate | exact IH].
Qed.

(** Setting a parameter to the value it has, when it occurs once,
    changes nothing. *)
Lemma set_same (k v : string) (ps : t) :
  get k ps = Some v -> (occurrences k ps <= 1)%nat -> set k v ps = ps.
Proof.
  induction ps as [|[k0 v0] ps IH]; simpl; [discriminate|].
  unfold get, occurrences in *. simpl.
  destruct (String.eqb_spec k0 k) as [->|Hne]; simpl.
  - intros [= ->] Hocc. f_equal. apply delete_absent.
    apply occurrences_absent. unfold occurrences. lia.
  - intros Hg Hocc. rewrite (IH Hg Hocc). reflexivity.
Qed.

Lemma delete_cons (k : string) (p : string * string) (ps : t) :
  delete k (p :: ps) = if String.eqb (fst p) k then delete k ps else p :: delete k ps.
Proof. unfold delete. simpl. destruct (String.eqb (fst p) k); reflexivity. Qed.

Lemma delete_idem (k : string) (ps : t) : delete k (delete k ps) = delete k ps.
Proof. apply delete_absent, URLSearchParamsFacts.get_delete_eq. Qed.

Lemma delete_set_eq (k v : string) (ps : t) : delete k (set k v ps) = delete k ps.
Proof.
  induction ps as [|p ps IH]; cbn [set].
  - rewrite delete_cons. cbn [fst]. rewrite String.eqb_refl. reflexivity.
  - rewrite (delete_cons k p ps). destruct (String.eqb (fst p) k) eqn:E.
    + rewrite delete_cons. cbn [fst]. rewrite String.eqb_refl. apply delete_idem.
    + rewrite delete_cons, E, IH. reflexivity.
Qed.

Lemma delete_delete (k k' : string) (ps : t) :
  delete k (delete k' ps) = delete k' (delete k ps).
Proof.
  induction ps as [|p ps IH]; [reflexivity|].
  rewrite !delete_cons.
  destruct (String.eqb (fst p) k') eqn:E1, (String.eqb (fst p) k) eqn:E2;
    rewrite ?delete_cons, ?E1, ?E2, IH; reflexivity.
Qed.

Lemma delete_app (k : string) (a b : t) : delete k (a ++ b) = delete k a ++ delete k b.
Proof. unfold delete. apply List.filter_app. Qed.

Lemma set_absent (k v : string) (ps : t) :
  get k ps = None -> set k v ps = ps ++ [(k, v)].
Proof.
  unfold get. induction ps as [|p ps IH]; simpl; [reflexivity|].
  destruct (String.eqb (fst p) k); [discriminate|].
  intros H. rewrite (IH H). reflexivity.
Qed.

(** Dropping one name and setting another can be done in either order. *)
Lemma delete_set_ne (k k' v : string) (ps : t) :
  k <> k' -> delete k (set k' v ps) = set k' v (delete k ps).
Proof.
  intros Hne.
  assert (Hkk : String.eqb k' k = false) by (apply String.eqb_neq; congruence).
  induction ps as [|p ps IH]; cbn [set].
  - rewrite delete_cons. cbn [fst]. rewrite Hkk. reflexivity.
  - rewrite (delete_cons k p ps).
    destruct (String.eqb (fst p) k') eqn:E1.
    + assert (E2 : String.eqb (fst p) k = false).
      { apply String.eqb_eq in E1. apply String.eqb_neq. congruence. }
      rewrite E2, delete_cons. cbn [fst set]. rewrite Hkk, E1, delete_delete.
      reflexivity.
    + rewrite delete_cons. destruct (String.eqb (fst p) k) eqn:E2.
      * exact IH.
      * cbn [set]. rewrite E1, IH. reflexivity.
Qed.

End ParamsAlgebra.

Lemma get_cleanEmpty_ne (k k' : string) (ps : URLSearchParams.t) :
  k <> k' -> URLSearchParams.get k' (cleanEmpty ps k) = URLSearchParams.get k' ps.
Proof.
  intros Hne. unfold cleanEmpty. destruct (Js.truthy _); [reflexivity|].
  now apply URLSearchParamsFacts.get_delete_ne.
Qed.

Lemma get_cleanEmpty_eq (k v : string) (ps : URLSearchParams.t) :
  URLSearchParams.get k (cleanEmpty ps k) = Some v ->
  URLSearchParams.get k ps = Some v /\ v <> "".
Proof.
  unfold cleanEmpty. destruct (Js.truthy (getOrEmpty k ps)) eqn:E.
  - intros H. split; [exact H|]. unfold getOrEmpty in E. rewrite H in E.
    simpl in E. now apply truthy_nonempty.
  - rewrite URLSearchParamsFacts.get_delete_eq. discriminate.
Qed.

Lemma occurrences_cleanEmpty (k k' : string) (ps : URLSearchParams.t) :
  (occurrences k' (cleanEmpty ps k) <= occurrences k' ps)%nat.
Proof.
  unfold cleanEmpty. destruct (Js.truthy _); [lia|].
  destruct (String.eqb_spec k k') as [<-|Hne].
  - rewrite ParamsAlgebra.occurrences_delete_eq. lia.
  - rewrite ParamsAlgebra.occurrences_delete_ne by exact Hne. lia.
Qed.

Lemma foreignParams_cleanEmpty (k : string) (ps : URLSearchParams.t) :
  ownParam k = true -> foreignParams (cleanEmpty ps k) = foreignParams ps.
Proof.
  intros Hk. unfold cleanEmpty. destruct (Js.truthy _); [reflexivity|].
  apply ParamsAlgebra.delete_filter. intros v. simpl. rewrite Hk. reflexivity.
Qed.

Lemma foreignParams_set (k v : string) (ps : URLSearchParams.t) :
  ownParam k = true -> foreignParams (URLSearchParams.set k v ps) = foreignParams ps.
Proof.
  intros Hk. apply ParamsAlgebra.set_filter. intros w. simpl. rewrite Hk. reflexivity.
Qed.

Lemma ownParam_cases (k : string) :
  ownParam k = true ->
  k = "q" \/ k = "brand" \/ k = "sort" \/ k = "score" \/ k = "noscore".
Proof.
  unfold ownParam. simpl. rewrite !orb_true_iff, !String.eqb_eq.
  intuition discriminate.
Qed.

Lemma queryParams_contents (p : Page) :
  (forall k v, In k ["q"; "brand"; "score"; "noscore"] ->
     URLSearchParams.get k (queryParams p) = Some v -> v <> "") /\
  URLSearchParams.get "sort" (queryParams p)
  = Some (key (currentSort p) +:+ ":" +:+ directionName (direction (currentSort p))) /\
  (forall k, ownParam k = true -> (occurrences k (queryParams p) <= 1)%nat) /\
  foreignParams (queryParams p)
  = foreignParams (URLSearchParams.ofString (locationSearch p)).
Proof.
  unfold queryParams. cbn [List.fold_left].
  split; [|split; [|split]].
  - intros k v Hk Hg. simpl in Hk.
    destruct Hk as [<- | [<- | [<- | [<- | []]]]].
    + rewrite !(get_cleanEmpty_ne _ "q") in Hg by discriminate.
      now apply get_cleanEmpty_eq in Hg.
    + rewrite !(get_cleanEmpty_ne _ "brand") in Hg by discriminate.
      now apply get_cleanEmpty_eq in Hg.
    + rewrite !(get_cleanEmpty_ne _ "score") in Hg by discriminate.
      now apply get_cleanEmpty_eq in Hg.
    + now apply get_cleanEmpty_eq in Hg.
  - rewrite !(get_cleanEmpty_ne _ "sort") by discriminate.
    rewrite !(URLSearchParamsFacts.get_set_ne _ "sort") by discriminate.
    apply URLSearchParamsFacts.get_set_eq.
  - intros k Hk.
    repeat (etransitivity; [apply occurrences_cleanEmpty|]).
    destruct (ownParam_cases k Hk) as [-> | [-> | [-> | [-> | ->]]]];
      repeat (rewrite ParamsAlgebra.occurrences_set_ne by discriminate);
      rewrite ParamsAlgebra.occurrences_set_eq; lia.
  - rewrite !foreignParams_cleanEmpty by reflexivity.
    rewrite !foreignParams_set by reflexivity. reflexivity.
Qed.

Lemma ofString_stateToQuery (p : Page) :
  URLSearchParams.ofString (locationSearch (stateToQuery p)) = queryParams p.
Proof. apply URLSearchParamsFacts.ofString_written. Qed.

(** X10. What [stateToQuery] leaves in the address: the search text,
    brand, score and include-unscored parameters appear only with a
    non-empty value, the sort parameter is always there, each of the
    five names appears at most once, and the parameters of any other
    name are kept as they were, in their order. *)
Theorem stateToQuery_address_contents (p : Page) :
  (forall k v, In k ["q"; "brand"; "score"; "noscore"] ->
     URLSearchParams.get k (URLSearchParams.ofString (locationSearch (stateToQuery p)))
     = Some v -> v <> "") /\
  URLSearchParams.get "sort"
    (URLSearchParams.ofString (locationSearch (stateToQuery p)))
  = Some (key (currentSort p) +:+ ":" +:+ directionName (direction (currentSort p))) /\
  (forall k, ownParam k = true ->
     (occurrences k (URLSearchParams.ofString (locationSearch (stateToQuery p))) <= 1)%nat) /\
  foreignParams (URLSearchParams.ofString (locationSearch (stateToQuery p)))
  = foreignParams (URLSearchParams.ofString (locationSearch p)).
Proof. rewrite ofString_stateToQuery. apply queryParams_contents. Qed.

Lemma stateToQuery_address_contents_witness :
  In "q" ["q"; "brand"; "score"; "noscore"] /\
  URLSearchParams.get "q"
    (URLSearchParams.ofString (locationSearch (stateToQuery scenarioPage)))
  = Some "pixel" /\ "pixel" <> "".
Proof.
  assert (H1 : In "q" ["q"; "brand"; "score"; "noscore"]) by (left; reflexivity).
  assert (H2 : URLSearchParams.get "q"
                 (URLSearchParams.ofString (locationSearch (stateToQuery scenarioPage)))
               = Some "pixel") by reflexivity.
  split; [exact H1 | split; [exact H2|]].
  apply (proj1 (stateToQuery_address_contents scenarioPage) "q" "pixel" H1 H2).
Defined.

(** The values [stateToQuery] writes, as [get(k) || ''] reads them. *)
Lemma queryParams_values (p : Page) :
  getOrEmpty "q" (queryParams p) = searchInput (dom p) /\
  getOrEmpty "brand" (queryParams p) = brandFilter (dom p) /\
  getOrEmpty "score" (queryParams p) = scoreFilterValue (dom p) /\
  getOrEmpty "noscore" (queryParams p)
  = (if includeNoScoreChecked (dom p) then "1" else "").
Proof.
  unfold queryParams. cbn [List.fold_left].
  rewrite !getOrEmpty_cleanEmpty.
  repeat split;
    repeat (rewrite getOrEmpty_set_ne by discriminate);
    apply getOrEmpty_set_eq.
Qed.

Section Resync.
Context (ps : URLSearchParams.t) (vq vb vs vsc vn : string).
Context (Hq : if Js.truthy vq then URLSearchParams.get "q" ps = Some vq
              else URLSearchParams.get "q" ps = None).
Context (Hb : if Js.truthy vb then URLSearchParams.get "brand" ps = Some vb
              else URLSearchParams.get "brand" ps = None).
Context (Hsc : if Js.truthy vsc then URLSearchParams.get "score" ps = Some vsc
               else URLSearchParams.get "score" ps = None).
Context (Hn : if Js.truthy vn then URLSearchParams.get "noscore" ps = Some vn
              else URLSearchParams.get "noscore" ps = None).
Context (Hs : URLSearchParams.get "sort" ps = Some vs).
Context (Hocc : forall k, ownParam k = true -> (occurrences k ps <= 1)%nat).

Ltac clean_stage H :=
  unfold cleanEmpty;
  repeat (rewrite getOrEmpty_set_ne by discriminate);
  rewrite getOrEmpty_set_eq;
  match type of H with
  | if Js.truthy ?v then _ else _ =>
      destruct (Js.truthy v) eqn:E;
      [ rewrite (ParamsAlgebra.set_same _ _ _ H) by (apply Hocc; reflexivity); reflexivity
      | apply truthy_false in E; subst v;
        repeat (rewrite ParamsAlgebra.delete_set_ne by discriminate);
        rewrite ParamsAlgebra.delete_set_eq, (ParamsAlgebra.delete_absent _ _ H);
        reflexivity ]
  end.

(** Writing to an address what it already says leaves its parameters as
    they are. *)
Lemma resync :
  List.fold_left cleanEmpty ["q"; "brand"; "score"; "noscore"]
    (URLSearchParams.set "noscore" vn
       (URLSearchParams.set "score" vsc
          (URLSearchParams.set "sort" vs
             (URLSearchParams.set "brand" vb
                (URLSearchParams.set "q" vq ps)))))
  = ps.
Proof using Hq Hb Hsc Hn Hs Hocc.
  cbn [List.fold_left].
  assert (E1 : cleanEmpty
                 (URLSearchParams.set "noscore" vn
                    (URLSearchParams.set "score" vsc
                       (URLSearchParams.set "sort" vs
                          (URLSearchParams.set "brand" vb
                             (URLSearchParams.set "q" vq ps))))) "q"
               = URLSearchParams.set "noscore" vn
                   (URLSearchParams.set "score" vsc
                      (URLSearchParams.set "sort" vs
                         (URLSearchParams.set "brand" vb ps)))).
  { clean_stage Hq. }
  assert (E2 : cleanEmpty
                 (URLSearchParams.set "noscore" vn
                    (URLSearchParams.set "score" vsc
                       (URLSearchParams.set "sort" vs
                          (URLSearchParams.set "brand" vb ps)))) "brand"
               = URLSearchParams.set "noscore" vn
                   (URLSearchParams.set "score" vsc
                      (URLSearchParams.set "sort" vs ps))).
  { clean_stage Hb. }
  assert (E3 : URLSearchParams.set "sort" vs ps = ps).
  { apply ParamsAlgebra.set_same; [exact Hs | now apply Hocc]. }
  assert (E4 : cleanEmpty
                 (URLSearchParams.set "noscore" vn
                    (URLSearchParams.set "score" vsc ps)) "score"
               = URLSearchParams.set "noscore" vn ps).
  { clean_stage Hsc. }
  assert (E5 : cleanEmpty (URLSearchParams.set "noscore" vn ps) "noscore" = ps).
  { clean_stage Hn. }
  rewrite E1, E2, E3, E4, E5. reflexivity.
Qed.

End Resync.

Lemma get_of_getOrEmpty (k v : string) (ps : URLSearchParams.t) :
  getOrEmpty k ps = v ->
  (forall w, URLSearchParams.get k ps = Some w -> w <> "") ->
  if Js.truthy v then URLSearchParams.get k ps = Some v
  else URLSearchParams.get k ps = None.
Proof.
  unfold getOrEmpty. intros Hv Hne.
  destruct (URLSearchParams.get k ps) as [w|]; simpl in Hv; subst v.
  - assert (Js.truthy w = true) as -> by (apply truthy_nonempty, Hne; reflexivity).
    reflexivity.
  - reflexivity.
Qed.

Lemma queryParams_stateToQuery (p : Page) :
  queryParams (stateToQuery p) = queryParams p.
Proof.
  destruct (queryParams_contents p) as (Ha & Hs & Hocc & _).
  destruct (queryParams_values p) as (Vq & Vb & Vsc & Vn).
  unfold queryParams at 1. rewrite ofString_stateToQuery.
  destruct (stateToQuery_dom p) as [-> ->].
  apply resync; try (apply get_of_getOrEmpty; [assumption|]);
    try (intros w; apply Ha; simpl; tauto); assumption.
Qed.

(** X11. Writing the address twice is writing it once: [stateToQuery]
    on a page whose address it has just written leaves the address, and
    the page, as they are. *)
Theorem stateToQuery_idempotent (p : Page) :
  stateToQuery (stateToQuery p) = stateToQuery p.
Proof.
  unfold stateToQuery at 1. rewrite queryParams_stateToQuery. reflexivity.
Qed.

(** ** Column headers *)

Lemma before_after_opp (dir : Direction) :
  before (match dir with asc => desc | desc => asc end) = - before dir /\
  after (match dir with asc => desc | desc => asc end) = - after dir.
Proof. destruct dir; split; reflexivity. Qed.

(** X12. A click on the header of the active column reverses every
    comparison of the sort (the comparator changes sign, so ties stay
    ties) and a second click restores the sort state; a click on
    another header selects its key in ascending direction. *)
Theorem toggleSort_reverses (s : SortState) :
  (forall a b,
     compareDevices (toggleSort (key s) s) a b = - compareDevices s a b) /\
  toggleSort (key s) (toggleSort (key s) s) = s /\
  (forall k, k <> key s -> toggleSort k s = mkSort k asc).
Proof.
  split; [|split].
  - intros a b. unfold toggleSort. rewrite String.eqb_refl.
    unfold compareDevices. cbn [key direction].
    destruct (before_after_opp (direction s)) as [-> ->].
    destruct (isNumericKey (key s)).
    + destruct (numLt _ _); [reflexivity|]. destruct (numLt _ _); reflexivity.
    + destruct (Js.strLt _ _); [reflexivity|]. destruct (Js.strLt _ _); reflexivity.
  - unfold toggleSort. rewrite String.eqb_refl. cbn [key direction].
    rewrite String.eqb_refl. destruct s as [k []]; reflexivity.
  - intros k Hk. unfold toggleSort.
    destruct (String.eqb_spec (key s) k); [congruence | reflexivity].
Qed.

Lemma toggleSort_reverses_witness :
  "brand" <> key (mkSort "name" desc) /\
  toggleSort "brand" (mkSort "name" desc) = mkSort "brand" asc.
Proof.
  split; [discriminate|].
  apply (proj2 (proj2 (toggleSort_reverses (mkSort "name" desc))) "brand").
  discriminate.
Defined.

(** ** Sorting what is sorted *)

Lemma arraySort_sorted_id {A : Type} (cmp : A -> A -> Z) (l : list A) :
  StronglySorted (fun a b => cmp a b <= 0) l -> arraySort cmp l = l.
Proof.
  induction 1 as [|x l Hs IH Hx]; [reflexivity|].
  simpl. rewrite IH. apply insertSorted_front. exact Hx.
Qed.

Lemma filter_filter_neg {A : Type} (f : A -> bool) (l : list A) :
  List.filter (fun x => negb (f x)) (List.filter f l) = [] /\
  List.filter f (List.filter (fun x => negb (f x)) l) = [] /\
  List.filter f (List.filter f l) = List.filter f l /\
  List.filter (fun x => negb (f x)) (List.filter (fun x => negb (f x)) l)
  = List.filter (fun x => negb (f x)) l.
Proof.
  induction l as [|x l (H1 & H2 & H3 & H4)]; simpl; [auto|].
  destruct (f x) eqn:E; simpl; rewrite ?E; simpl; rewrite ?H1, ?H2, ?H3, ?H4; auto.
Qed.

Lemma sortTags_idempotent (tags : list string) :
  Forall plainTag tags -> sortTags (sortTags tags) = sortTags tags.
Proof.
  intros Hp.
  assert (Hp' : Forall plainTag (sortTags tags)).
  { apply List.Forall_forall. intros t Ht. unfold sortTags in Ht.
    apply arraySort_In in Ht. revert t Ht. apply List.Forall_forall, Hp. }
  unfold sortTags at 1. apply arraySort_sorted_id.
  pose proof (sortTags_sorted tags Hp) as Hs.
  revert Hp' Hs. generalize (sortTags tags). intros l Hl Hs.
  induction Hs as [|x l Hs IH Hx]; [constructor|].
  apply List.Forall_cons_iff in Hl as [Hpx Hl].
  constructor; [apply IH, Hl|].
  apply List.Forall_forall. intros y Hy.
  rewrite List.Forall_forall in Hx, Hl.
  apply Z.leb_le. rewrite (compareTags_plain x y Hpx (Hl y Hy)).
  apply Z.leb_le. specialize (Hx y Hy). lia.
Qed.

(** X13. The two orderings of teardown data are idempotent: ordering an
    already ordered teardown list changes nothing, and neither does
    ordering an already ordered tag list when no tag names a property
    every object inherits (the comparator is consistent on such tags);
    the badge list of such tags is already in tag order. *)
Theorem teardown_orderings_idempotent :
  (forall teardowns, sortTeardowns (sortTeardowns teardowns) = sortTeardowns teardowns) /\
  (forall tags, Forall plainTag tags -> sortTags (sortTags tags) = sortTags tags) /\
  (forall teardownUrls,
     (forall td t, In td teardownUrls -> hasTag t td -> plainTag t) ->
     sortTags (aggregateTeardownTags teardownUrls) = aggregateTeardownTags teardownUrls).
Proof.
  split; [|split; [exact sortTags_idempotent|]].
  - intros l. rewrite (sortTeardowns_partition (sortTeardowns l)).
    rewrite (sortTeardowns_partition l), !List.filter_app.
    destruct (filter_filter_neg isArchivedTeardown l) as (H1 & H2 & H3 & H4).
    rewrite H1, H2, H3, H4, app_nil_r. reflexivity.
  - intros tds Hp. unfold aggregateTeardownTags. apply sortTags_idempotent.
    apply List.Forall_forall. intros t Ht.
    apply collect_tags_In in Ht as [[] | (td & Hin & Htag)].
    exact (Hp td t Hin Htag).
Qed.

Lemma teardown_orderings_idempotent_witness :
  Forall plainTag ["archived"; "difficult"; "starred"] /\
  sortTags (sortTags ["archived"; "difficult"; "starred"])
  = sortTags ["archived"; "difficult"; "starred"].
Proof.
  assert (H : Forall plainTag ["archived"; "difficult"; "starred"]).
  { repeat constructor; unfold plainTag; simpl; intuition discriminate. }
  split; [exact H|].
  apply (proj1 (proj2 teardown_orderings_idempotent) _ H).
Defined.

(** ** Manufacturer options *)

Lemma defaultCompare_le (a b : string) :
  defaultCompare a b <= 0 <-> Js.strLt b a = false.
Proof. apply (threeWay_le Js.strLt strLt_asym asc). Qed.

Lemma brandsOf_In (devicesData : list Device) (b : string) :
  In b (brandsOf devicesData) <->
  b <> "" /\ exists d, In d devicesData /\ brand d = Some b.
Proof.
  unfold brandsOf. rewrite arraySort_In, fold_setAdd_In, in_map_iff. split.
  - intros [[] | (o & <- & Ho)]. apply List.filter_In in Ho as [Ho Ht].
    apply in_map_iff in Ho as (d & <- & Hd).
    destruct (brand d) as [s|] eqn:E; [|discriminate]. simpl in *.
    split; [apply truthy_nonempty, Ht | exists d; auto].
  - intros (Hb & d & Hd & E). right. exists (Some b). split; [reflexivity|].
    apply List.filter_In. split; [rewrite <- E; apply in_map, Hd|].
    apply truthy_nonempty, Hb.
Qed.

Lemma StronglySorted_strict {A : Type} (R : A -> A -> Prop) (l : list A) :
  List.NoDup l -> StronglySorted R l ->
  StronglySorted (fun a b => R a b /\ a <> b) l.
Proof.
  intros Hnd Hs. induction Hs as [|x l Hs IH Hx]; [constructor|].
  apply List.NoDup_cons_iff in Hnd as [Hx' Hnd].
  constructor; [apply IH, Hnd|].
  apply List.Forall_forall. intros y Hy. split.
  - revert y Hy. apply List.Forall_forall, Hx.
  - intros ->. contradiction.
Qed.

(** X14. The manufacturer control offers the empty choice first and
    then exactly the non-empty manufacturers that occur in the data,
    each once, in strictly ascending order; and each offered
    manufacturer, chosen with no other filter and unscored devices
    included, gives a table that is not empty. *)
Theorem populateBrandFilter_options (devicesData : list Device) :
  populateBrandFilter devicesData = "" :: brandsOf devicesData /\
  (forall b, In b (brandsOf devicesData) <->
             b <> "" /\ exists d, In d devicesData /\ brand d = Some b) /\
  StronglySorted (fun a b => Js.strLt a b = true) (brandsOf devicesData) /\
  (forall b, In b (brandsOf devicesData) ->
     exists d, In d (getFilteredData (mkDom "" b [] (Some true)) devicesData)).
Proof.
  split; [reflexivity|]. split; [apply brandsOf_In|]. split.
  - assert (Hnd : List.NoDup (brandsOf devicesData)).
    { unfold brandsOf. apply NoDup_ListNoDup.
      rewrite arraySort_perm. apply fold_setAdd_NoDup. constructor. }
    assert (Hs : StronglySorted (fun a b => defaultCompare a b <= 0) (brandsOf devicesData)).
    { apply arraySort_sorted.
      - intros a b. apply (threeWay_total Js.strLt strLt_asym asc).
      - intros a b c. apply (threeWay_trans Js.strLt strLt_asym strLt_cotrans asc). }
    eapply StronglySorted_iff; [|apply (StronglySorted_strict _ _ Hnd Hs)].
    intros a b. simpl. rewrite defaultCompare_le. split.
    + intros [H1 H2]. destruct (Js.strLt a b) eqn:E; [reflexivity|].
      destruct H2. apply strLt_none_eq; assumption.
    + intros H. split; [apply strLt_asym, H|].
      intros ->. rewrite strLt_irrefl in H. discriminate.
  - intros b Hb. apply brandsOf_In in Hb as (Hb & d & Hd & E).
    exists d. apply List.filter_In. split; [exact Hd|].
    unfold recordKept. cbn [searchInput brandFilter scoreFilterValue scoreFilterEls
      includeNoScoreChecked includeNoScore].
    change (Js.toLowerCase "") with "". rewrite includes_empty, E, String.eqb_refl.
    simpl. rewrite orb_true_r. reflexivity.
Qed.

Lemma populateBrandFilter_options_witness :
  In "X" (brandsOf [deviceA; deviceB; deviceC]) /\
  exists d, In d (getFilteredData (mkDom "" "X" [] (Some true)) [deviceA; deviceB; deviceC]).
Proof.
  assert (H : In "X" (brandsOf [deviceA; deviceB; deviceC])) by (vm_compute; auto).
  split; [exact H|].
  apply (proj2 (proj2 (proj2 (populateBrandFilter_options [deviceA; deviceB; deviceC]))) "X" H).
Defined.

(** ** Rows to compare *)

Lemma afterChanges_bounded (events : list (string * bool)) (sel : gset string) :
  (size sel <= MAX_COMPARE)%nat -> (size (afterChanges events sel) <= MAX_COMPARE)%nat.
Proof.
  unfold afterChanges. revert sel.
  induction events as [|e events IH]; intros sel Hsel; simpl; [exact Hsel|].
  apply IH, onCompareChange_bounded, Hsel.
Qed.

Lemma selected_ids_bounded (sel : gset string) (all : list Device) :
  List.NoDup (List.map selIdOf all) ->
  (length (List.filter (isSelected sel) all) <= size sel)%nat.
Proof.
  intros Hnd.
  assert (Hnd' : NoDup (List.map selIdOf (List.filter (isSelected sel) all))).
  { apply NoDup_ListNoDup. revert Hnd. induction all as [|d all IH]; simpl; intros Hnd.
    - constructor.
    - apply List.NoDup_cons_iff in Hnd as [Hd Hnd].
      destruct (isSelected sel d); [|apply IH, Hnd].
      simpl. constructor; [|apply IH, Hnd].
      intros Hin. apply Hd. apply in_map_iff in Hin as (x & Hx & Hin).
      apply in_map_iff. exists x. split; [exact Hx|].
      apply List.filter_In in Hin. tauto. }
  rewrite <- (length_map selIdOf), <- (size_list_to_set (C := gset string)) by exact Hnd'.
  apply subseteq_size. intros x Hx. apply elem_of_list_to_set in Hx.
  apply list_elem_of_In, in_map_iff in Hx as (d & <- & Hd).
  apply List.filter_In in Hd as [_ Hd]. unfold isSelected in Hd.
  apply bool_decide_eq_true in Hd. exact Hd.
Qed.

(** X15. The Compare button works on the rows of the current view
    whose identifier is selected, in the order of the view.  When the
    identifiers of the view are distinct and the selection was built by
    ticking and clearing boxes, none of these rows is cut off and the
    message about showing only the first five is never issued; the
    modal opens on them when they are two or more, otherwise the user
    is asked to select two. *)
Theorem compareClick_uses_selected_view_rows
    (events : list (string * bool)) (lastFiltered : option (list Device))
    (dom : Dom) (devicesData : list Device) :
  let sel := afterChanges events ∅ in
  let all := rowsOrFiltered lastFiltered dom devicesData in
  let rows := List.filter (isSelected sel) all in
  List.NoDup (List.map selIdOf all) ->
  selectedRows sel lastFiltered dom devicesData = rows /\
  (forall d, In d rows <-> In d all /\ selIdOf d ∈ sel) /\
  compareClick sel lastFiltered dom devicesData =
    (if (2 <=? length rows)%nat then mkCompare [] (Some rows)
     else mkCompare ["Select at least 2 devices to compare."] None).
Proof.
  intros sel all rows Hnd.
  assert (Hsel : (size sel <= 5)%nat).
  { apply (afterChanges_bounded events ∅). rewrite size_empty. unfold MAX_COMPARE. lia. }
  assert (Hrows : selectedRows sel lastFiltered dom devicesData = rows).
  { unfold selectedRows. apply firstn_all2.
    exact (Nat.le_trans _ _ _ (selected_ids_bounded sel all Hnd) Hsel). }
  split; [exact Hrows|]. split.
  - intros d. unfold rows. rewrite List.filter_In. unfold isSelected.
    rewrite bool_decide_eq_true. reflexivity.
  - unfold compareClick. rewrite Hrows.
    replace (MAX_COMPARE <? size sel)%nat with false
      by (symmetry; apply Nat.ltb_ge; exact Hsel).
    reflexivity.
Qed.

Lemma compareClick_uses_selected_view_rows_witness :
  List.NoDup (List.map selIdOf [deviceA; deviceB; deviceC]) /\
  selectedRows (afterChanges [("A__X", true); ("C__X", true)] ∅)
    (Some [deviceA; deviceB; deviceC]) (mkDom "" "" [] None) [] = [deviceA; deviceC].
Proof.
  assert (H : List.NoDup (List.map selIdOf [deviceA; deviceB; deviceC])).
  { repeat constructor; simpl; intuition discriminate. }
  split; [exact H|].
  rewrite (proj1 (compareClick_uses_selected_view_rows
             [("A__X", true); ("C__X", true)] (Some [deviceA; deviceB; deviceC])
             (mkDom "" "" [] None) [] H)).
  vm_compute. reflexivity.
Defined.

(** ** Export *)

Lemma append_nil_r (s : string) : s +:+ "" = s.
Proof. induction s as [|c s IH]; [reflexivity|]. rewrite append_cons, IH. reflexivity. Qed.

Lemma concat_cons2 (sep x y : string) (l : list string) :
  String.concat sep (x :: y :: l) = x +:+ sep +:+ String.concat sep (y :: l).
Proof. reflexivity. Qed.

Lemma readFrom_body (v rest : string) (f : string) (row : list string)
    (more : list (list string)) :
  readFrom AfterQuote rest = Some ((f :: row) :: more) ->
  readFrom InField (doubleQuotes v +:+ String dquote rest)
  = Some (((v +:+ f) :: row) :: more).
Proof.
  intros Hrest. induction v as [|c v IH].
  - cbn [doubleQuotes]. rewrite !append_empty. cbn [readFrom].
    rewrite Ascii.eqb_refl. exact Hrest.
  - cbn [doubleQuotes]. destruct (Ascii.eqb c dquote) eqn:E.
    + apply Ascii.eqb_eq in E. subst c. rewrite !append_cons.
      cbn [readFrom]. rewrite Ascii.eqb_refl, IH. reflexivity.
    + rewrite !append_cons. cbn [readFrom]. rewrite E, IH. reflexivity.
Qed.

Lemma readFrom_quoted (v rest : string) (f : string) (row : list string)
    (more : list (list string)) :
  readFrom AfterQuote rest = Some ((f :: row) :: more) ->
  readFrom FieldStart (quoted v +:+ rest) = Some (((v +:+ f) :: row) :: more).
Proof.
  intros Hrest. unfold quoted. rewrite !append_cons, !append_empty, URLSearchParamsFacts.append_assoc.
  rewrite append_cons, append_empty.
  cbn [readFrom]. rewrite Ascii.eqb_refl. apply readFrom_body, Hrest.
Qed.

Lemma readFrom_row (cells : list string) (c0 tail : string) (more : list (list string)) :
  readFrom AfterQuote tail = Some ([""] :: more) ->
  readFrom FieldStart (rowText (c0 :: cells) +:+ tail) = Some ((c0 :: cells) :: more).
Proof.
  intros Htail. revert c0. induction cells as [|c1 cells IH]; intros c0.
  - unfold rowText. cbn [List.map String.concat].
    rewrite (readFrom_quoted c0 tail "" [] more Htail), append_nil_r. reflexivity.
  - unfold rowText. cbn [List.map]. rewrite concat_cons2, !URLSearchParamsFacts.append_assoc.
    rewrite (readFrom_quoted c0 _ "" (c1 :: cells) more); [rewrite append_nil_r; reflexivity|].
    rewrite append_cons, append_empty. cbn [readFrom].
    change (readFrom FieldStart (rowText (c1 :: cells) +:+ tail)) with
      (readFrom FieldStart (rowText (c1 :: cells) +:+ tail)).
    change (String.concat "," (quoted c1 :: List.map quoted cells))
      with (rowText (c1 :: cells)).
    rewrite IH. reflexivity.
Qed.

Lemma rowText_cons (c0 : string) (cells : list string) :
  exists r, rowText (c0 :: cells) = String dquote r.
Proof.
  destruct cells as [|c1 cells]; unfold rowText; cbn [List.map];
    [cbn [String.concat] | rewrite concat_cons2];
    unfold quoted; rewrite !append_cons; eexists; reflexivity.
Qed.

Lemma readFrom_lines (rows : list (string * list string)) (r0 : string * list string) :
  readFrom FieldStart
    (String.concat CRLF (List.map (fun r => rowText (fst r :: snd r)) (r0 :: rows)))
  = Some (List.map (fun r => fst r :: snd r) (r0 :: rows)).
Proof.
  revert r0. induction rows as [|r1 rows IH]; intros r0.
  - cbn [List.map String.concat].
    rewrite <- (append_nil_r (rowText _)). apply readFrom_row. reflexivity.
  - cbn [List.map]. rewrite concat_cons2. apply readFrom_row.
    unfold CRLF at 1. rewrite !append_cons, append_empty. cbn [readFrom].
    specialize (IH r1). cbn [List.map] in IH. rewrite IH. reflexivity.
Qed.

Section ExportFacts.
Variable numberText : Q -> string.

Lemma toCsvRow_rowText (fields : list CsvValue) :
  toCsvRow numberText fields = rowText (List.map (csvString numberText) fields).
Proof. unfold toCsvRow, rowText. rewrite List.map_map. reflexivity. Qed.

Lemma toCsvRow_read (v : CsvValue) (fields : list CsvValue) :
  readCsv (toCsvRow numberText (v :: fields))
  = Some [List.map (csvString numberText) (v :: fields)].
Proof using Type.
  rewrite toCsvRow_rowText. unfold readCsv. cbn [List.map].
  rewrite <- (append_nil_r (rowText _)). apply readFrom_row. reflexivity.
Qed.

(** X16. The exported text is well-formed comma-separated text,
    whatever characters the names, manufacturers and addresses hold
    (quotes, commas, line breaks): read back, it gives the header and
    then, for each row of the view in order, its four cells unchanged.
    A row is determined by its text: two lists of fields with the same
    row text have the same cells. *)
Theorem exportCsv_reads_back :
  (forall lastFiltered dom devicesData,
     readCsv (exportCsv numberText lastFiltered dom devicesData)
     = Some (csvHeader ::
             List.map (fun d => List.map (csvString numberText) (csvFields d))
                      (rowsOrFiltered lastFiltered dom devicesData))) /\
  (forall fields fields',
     toCsvRow numberText fields = toCsvRow numberText fields' ->
     List.map (csvString numberText) fields = List.map (csvString numberText) fields').
Proof using Type.
  split.
  - intros lastFiltered dom devicesData. unfold exportCsv, readCsv.
    set (rows := rowsOrFiltered lastFiltered dom devicesData).
    pose (cells := fun d : Device =>
            (name d, [default "" (brand d);
                      csvString numberText
                        match repairability_score d with
                        | Some n => VNumber n | None => VString "" end;
                      default "" (link d)])).
    pose proof (readFrom_lines (List.map cells rows)
                  ("name", ["brand"; "repairability_score"; "link"])) as H.
    cbn [List.map app] in *. rewrite !List.map_map in H.
    rewrite !toCsvRow_rowText.
    erewrite (List.map_ext (fun d => toCsvRow numberText (csvFields d)));
      [|intros d; apply toCsvRow_rowText].
    exact H.
  - intros [|v fields] [|v' fields'] H; [reflexivity| | |].
    + rewrite !toCsvRow_rowText in H. cbn [List.map] in H.
      destruct (rowText_cons (csvString numberText v')
                  (List.map (csvString numberText) fields')) as [r Hr].
      rewrite Hr in H. discriminate H.
    + rewrite !toCsvRow_rowText in H. cbn [List.map] in H.
      destruct (rowText_cons (csvString numberText v)
                  (List.map (csvString numberText) fields)) as [r Hr].
      rewrite Hr in H. discriminate H.
    + pose proof (toCsvRow_read v fields) as H1.
      pose proof (toCsvRow_read v' fields') as H2.
      rewrite H in H1. rewrite H1 in H2. congruence.
Qed.

End ExportFacts.

Lemma exportCsv_reads_back_witness :
  List.map (csvString (fun _ => "9")) [VString "a,b"; VNull]
  = List.map (csvString (fun _ => "9")) [VString "a,b"; VString ""].
Proof.
  apply (proj2 (exportCsv_reads_back (fun _ => "9"))). reflexivity.
Defined.

(** ** Age of the data file *)

(** X17. The age of the data file is given in the largest whole unit
    that is not zero, rounded down: whole days from one day on, else
    whole hours (1 to 23), else whole minutes (1 to 59); below one
    minute, and for a file dated in the future, the text is "less than
    1 minute". *)
Theorem ageStr_largest_unit (diffMs : Z) :
  (86400000 <= diffMs ->
   ageStr diffMs = Js.numberToString (diffMs / 86400000) +:+ " day(s)" /\
   1 <= diffMs / 86400000) /\
  (3600000 <= diffMs < 86400000 ->
   ageStr diffMs = Js.numberToString (diffMs / 3600000) +:+ " hour(s)" /\
   1 <= diffMs / 3600000 <= 23) /\
  (60000 <= diffMs < 3600000 ->
   ageStr diffMs = Js.numberToString (diffMs / 60000) +:+ " minute(s)" /\
   1 <= diffMs / 60000 <= 59) /\
  (diffMs < 60000 -> ageStr diffMs = "less than 1 minute").
Proof.
  assert (HH : diffMs / 60000 / 60 = diffMs / 3600000)
    by (rewrite Z.div_div by lia; reflexivity).
  assert (HD : diffMs / 60000 / 60 / 24 = diffMs / 86400000)
    by (rewrite !Z.div_div by lia; reflexivity).
  unfold ageStr. cbv zeta. rewrite HD, HH.
  repeat split.
  - replace (0 <? diffMs / 86400000) with true; [reflexivity|].
    symmetry. apply Z.ltb_lt. Z.to_euclidean_division_equations. lia.
  - Z.to_euclidean_division_equations. lia.
  - replace (0 <? diffMs / 86400000) with false
      by (symmetry; apply Z.ltb_ge; Z.to_euclidean_division_equations; lia).
    replace (0 <? diffMs / 3600000) with true; [reflexivity|].
    symmetry. apply Z.ltb_lt. Z.to_euclidean_division_equations. lia.
  - Z.to_euclidean_division_equations. lia.
  - Z.to_euclidean_division_equations. lia.
  - replace (0 <? diffMs / 86400000) with false
      by (symmetry; apply Z.ltb_ge; Z.to_euclidean_division_equations; lia).
    replace (0 <? diffMs / 3600000) with false
      by (symmetry; apply Z.ltb_ge; Z.to_euclidean_division_equations; lia).
    replace (0 <? diffMs / 60000) with true; [reflexivity|].
    symmetry. apply Z.ltb_lt. Z.to_euclidean_division_equations. lia.
  - Z.to_euclidean_division_equations. lia.
  - Z.to_euclidean_division_equations. lia.
  - intros H.
    replace (0 <? diffMs / 86400000) with false
      by (symmetry; apply Z.ltb_ge; Z.to_euclidean_division_equations; lia).
    replace (0 <? diffMs / 3600000) with false
      by (symmetry; apply Z.ltb_ge; Z.to_euclidean_division_equations; lia).
    replace (0 <? diffMs / 60000) with false
      by (symmetry; apply Z.ltb_ge; Z.to_euclidean_division_equations; lia).
    reflexivity.
Qed.

Lemma ageStr_largest_unit_witness :
  3600000 <= 7500000 < 86400000 /\
  updateFileAge 10000000 (HeadDated 2500000) = "Last datasource update: 2 hour(s) ago".
Proof.
  split; [lia|]. unfold updateFileAge.
  change (10000000 - 2500000) with 7500000.
  rewrite (proj1 (proj1 (proj2 (ageStr_largest_unit 7500000)) ltac:(lia))).
  reflexivity.
Defined.

(** ** Placing the floating panels *)

Lemma mathMax_spec (a b : Q) :
  (a <= mathMax a b)%Q /\ (b <= mathMax a b)%Q /\
  ((b <= a)%Q -> mathMax a b == a) /\ ((a <= b)%Q -> mathMax a b = b).
Proof.
  unfold mathMax. destruct (Qle_bool a b) eqn:E.
  - apply Qle_bool_iff in E.
    repeat split; intros; try reflexivity; try lra.
  - assert (~ (a <= b)%Q) by (rewrite <- Qle_bool_iff; congruence).
    repeat split; intros; try reflexivity; try lra; exfalso; lra.
Qed.

Lemma mathMin_spec (a b : Q) :
  (mathMin a b <= a)%Q /\ (mathMin a b <= b)%Q /\
  ((a <= b)%Q -> mathMin a b = a) /\ ((b <= a)%Q -> mathMin a b == b).
Proof.
  unfold mathMin. destruct (Qle_bool a b) eqn:E.
  - apply Qle_bool_iff in E.
    repeat split; intros; try reflexivity; try lra.
  - assert (~ (a <= b)%Q) by (rewrite <- Qle_bool_iff; congruence).
    repeat split; intros; try reflexivity; try lra; exfalso; lra.
Qed.

Ltac by_numLt a b :=
  let E := fresh "E" in
  destruct (numLt a b) eqn:E;
  [apply numLt_spec in E | apply numLt_false in E].

(** X18. The teardown panel is never placed higher than 8 pixels from
    the top of the window.  When the window is wide enough for the
    panel and its margins, the panel ends at least 8 pixels before the
    right edge; when the toggle itself starts 8 pixels or more from the
    left edge, so does the panel.  The panel goes below the toggle when
    it fits there, and above it when it does not fit below and there is
    room above. *)
Theorem positionPortal_stays_in_window (rect : Rect)
    (offsetWidth offsetHeight innerWidth innerHeight : Q) :
  let portalWidth := numberOr offsetWidth 320 in
  let portalHeight := numberOr offsetHeight 200 in
  let p := positionPortalRelativeToToggle rect offsetWidth offsetHeight
             innerWidth innerHeight in
  (8 <= fst p)%Q /\
  ((portalWidth + 16 <= innerWidth)%Q ->
   (snd p + portalWidth + 8 <= innerWidth)%Q /\
   ((8 <= rectLeft rect)%Q -> (8 <= snd p)%Q)) /\
  ((rectBottom rect + 8 + portalHeight + 8 <= innerHeight)%Q ->
   (0 <= rectBottom rect)%Q -> fst p == rectBottom rect + 8) /\
  ((innerHeight < rectBottom rect + 8 + portalHeight + 8)%Q ->
   (8 < rectTop rect - 8 - portalHeight)%Q ->
   fst p + portalHeight + 8 == rectTop rect).
Proof.
  intros portalWidth portalHeight p. subst p.
  unfold positionPortalRelativeToToggle. cbv zeta.
  fold portalWidth portalHeight. cbn [fst snd].
  split; [apply mathMax_spec|]. split; [|split].
  - intros Hw.
    by_numLt innerWidth (rectLeft rect + portalWidth + 8)%Q.
    + destruct (mathMax_spec 8 (innerWidth - portalWidth - 8)) as (_ & H2 & _ & H4).
      rewrite H4 by lra. split; intros; lra.
    + split; intros; lra.
  - intros Hfit Hpos.
    by_numLt innerHeight (rectBottom rect + 8 + portalHeight + 8)%Q; [lra|].
    destruct (mathMax_spec 8 (rectBottom rect + 8)) as (_ & _ & _ & H4).
    rewrite H4 by lra. reflexivity.
  - intros Hno Habove.
    by_numLt innerHeight (rectBottom rect + 8 + portalHeight + 8)%Q; [|lra].
    by_numLt 8%Q (rectTop rect - 8 - portalHeight)%Q; [|lra].
    destruct (mathMax_spec 8 (rectTop rect - 8 - portalHeight)) as (_ & _ & _ & H4).
    rewrite H4 by lra. lra.
Qed.

Lemma positionPortal_stays_in_window_witness :
  (numberOr 0 320 + 16 <= 1000)%Q /\
  (snd (positionPortalRelativeToToggle (mkRect 100 120 900) 0 0 1000 700)
   + numberOr 0 320 + 8 <= 1000)%Q.
Proof.
  assert (H : (numberOr 0 320 + 16 <= 1000)%Q) by (vm_compute; discriminate).
  split; [exact H|].
  apply (proj1 (proj2 (positionPortal_stays_in_window (mkRect 100 120 900) 0 0 1000 700)) H).
Defined.

(** X19. The tooltip of the information button always ends at least 8
    pixels before the right edge of the window and is never placed
    higher than 8 pixels from the top; it starts at least 8 pixels from
    the left edge when the window is wide enough for it.  It sits above
    the button when there is room, otherwise below it. *)
Theorem positionTip_stays_in_window (rect : Rect)
    (offsetWidth offsetHeight innerWidth : Q) :
  let p := positionTip rect offsetWidth offsetHeight innerWidth in
  (8 <= fst p)%Q /\
  (snd p + offsetWidth + 8 <= innerWidth)%Q /\
  ((offsetWidth + 16 <= innerWidth)%Q -> (8 <= snd p)%Q) /\
  ((8 <= rectTop rect - offsetHeight - 8)%Q ->
   fst p + offsetHeight + 8 == rectTop rect) /\
  ((rectTop rect - offsetHeight - 8 < 8)%Q -> (0 <= rectBottom rect)%Q ->
   fst p == rectBottom rect + 8).
Proof.
  intros p. subst p. unfold positionTip. cbv zeta. cbn [fst snd].
  split; [apply mathMax_spec|]. split; [|split; [|split]].
  - pose proof (mathMin_spec (mathMax 8 (rectLeft rect)) (innerWidth - offsetWidth - 8)).
    lra.
  - intros Hw.
    destruct (mathMin_spec (mathMax 8 (rectLeft rect)) (innerWidth - offsetWidth - 8))
      as (_ & _ & H3 & H4).
    pose proof (mathMax_spec 8 (rectLeft rect)) as (H5 & _).
    destruct (Qlt_le_dec (innerWidth - offsetWidth - 8) (mathMax 8 (rectLeft rect))).
    + rewrite H4 by lra. lra.
    + rewrite H3 by lra. exact H5.
  - intros Habove.
    by_numLt (rectTop rect - offsetHeight - 8)%Q 8%Q; [lra|].
    destruct (mathMax_spec 8 (rectTop rect - offsetHeight - 8)) as (_ & _ & _ & H4).
    rewrite H4 by lra. lra.
  - intros Hno Hpos.
    by_numLt (rectTop rect - offsetHeight - 8)%Q 8%Q; [|lra].
    destruct (mathMax_spec 8 (rectBottom rect + 8)) as (_ & _ & _ & H4).
    rewrite H4 by lra. reflexivity.
Qed.

Lemma positionTip_stays_in_window_witness :
  (200 + 16 <= 360)%Q /\ (8 <= snd (positionTip (mkRect 30 50 300) 200 40 360))%Q.
Proof.
  assert (H : (200 + 16 <= 360)%Q) by (vm_compute; discriminate).
  split; [exact H|].
  apply (proj1 (proj2 (proj2 (positionTip_stays_in_window (mkRect 30 50 300) 200 40 360))) H).
Defined.

(** ** Theme *)

Lemma getStoredTheme_insert (t : Theme) (storage : gmap string string) :
  getStoredTheme (<["theme" := themeName t]> storage) = Some t.
Proof. unfold getStoredTheme. rewrite lookup_insert_eq. destruct t; reflexivity. Qed.

Lemma computeActiveTheme_stored (storage : gmap string string) (t : Theme) (b : bool) :
  getStoredTheme storage = Some t -> computeActiveTheme storage b = t.
Proof. unfold computeActiveTheme. intros ->. destruct t; reflexivity. Qed.

Lemma themeStep_shown (s : ThemeState) (e : ThemeEvent) :
  shownTheme s = computeActiveTheme (localStorage s) (systemPrefersDark s) ->
  shownTheme (themeStep s e)
  = computeActiveTheme (localStorage (themeStep s e)) (systemPrefersDark (themeStep s e)).
Proof.
  intros H. destruct e as [|b]; cbn [themeStep]; [reflexivity|].
  destruct (getStoredTheme (localStorage s)) as [t|] eqn:E; [|reflexivity].
  cbn [shownTheme localStorage systemPrefersDark]. rewrite H.
  rewrite !(computeActiveTheme_stored _ t) by exact E. reflexivity.
Qed.

Lemma themeStep_frame (s : ThemeState) (e : ThemeEvent) (k : string) :
  k <> "theme" -> localStorage (themeStep s e) !! k = localStorage s !! k.
Proof.
  intros Hk. destruct e as [|b]; cbn [themeStep].
  - cbn [applyTheme localStorage]. rewrite lookup_insert_ne by congruence. reflexivity.
  - destruct (getStoredTheme (localStorage s)); reflexivity.
Qed.

Lemma themeStep_keeps_choice (s : ThemeState) (e : ThemeEvent) :
  is_Some (getStoredTheme (localStorage s)) ->
  is_Some (getStoredTheme (localStorage (themeStep s e))).
Proof.
  intros H. destruct e as [|b]; cbn [themeStep].
  - cbn [applyTheme localStorage]. rewrite getStoredTheme_insert. eexists; reflexivity.
  - destruct (getStoredTheme (localStorage s)) eqn:E; [|destruct H; discriminate].
    cbn [localStorage]. rewrite E. eexists; reflexivity.
Qed.

Lemma themeAfter_snoc (storage : gmap string string) (b : bool)
    (events : list ThemeEvent) (e : ThemeEvent) :
  themeAfter storage b (events ++ [e]) = themeStep (themeAfter storage b events) e.
Proof. unfold themeAfter. rewrite fold_left_app. reflexivity. Qed.

Lemma themeAfter_shown (storage : gmap string string) (b : bool)
    (events : list ThemeEvent) :
  shownTheme (themeAfter storage b events)
  = computeActiveTheme (localStorage (themeAfter storage b events))
      (systemPrefersDark (themeAfter storage b events)).
Proof.
  induction events as [|e events IH] using rev_ind; [reflexivity|].
  rewrite themeAfter_snoc. apply themeStep_shown, IH.
Qed.

Lemma themeAfter_frame (storage : gmap string string) (b : bool)
    (events : list ThemeEvent) (k : string) :
  k <> "theme" -> localStorage (themeAfter storage b events) !! k = storage !! k.
Proof.
  intros Hk. induction events as [|e events IH] using rev_ind; [reflexivity|].
  rewrite themeAfter_snoc, themeStep_frame by exact Hk. exact IH.
Qed.

Lemma themeAfter_choice (storage : gmap string string) (b : bool)
    (events : list ThemeEvent) :
  In ThemeToggleClick events ->
  is_Some (getStoredTheme (localStorage (themeAfter storage b events))).
Proof.
  induction events as [|e events IH] using rev_ind; intros Hin; [destruct Hin|].
  rewrite themeAfter_snoc. apply in_app_iff in Hin as [Hin | [-> | []]].
  - apply themeStep_keeps_choice, IH, Hin.
  - cbn [themeStep applyTheme localStorage]. rewrite getStoredTheme_insert.
    eexists; reflexivity.
Qed.

(** X20. Through any series of clicks on the theme button and changes
    of the system preference, the theme on the page is the one
    [computeActiveTheme] gives for the storage and the system as they
    are; only the [theme] entry of the storage is ever written.  Once
    the button has been clicked an explicit choice is stored and the
    page shows it whatever the system prefers.  A click switches to the
    other theme when a choice is stored; the first click without a
    stored choice always gives the light theme. *)
Theorem theme_follows_choice_then_system (storage : gmap string string)
    (prefersDark : bool) (events : list ThemeEvent) :
  let s := themeAfter storage prefersDark events in
  shownTheme s = computeActiveTheme (localStorage s) (systemPrefersDark s) /\
  (forall k, k <> "theme" -> localStorage s !! k = storage !! k) /\
  (In ThemeToggleClick events -> getStoredTheme (localStorage s) = Some (shownTheme s)) /\
  shownTheme (themeStep s ThemeToggleClick)
  = match getStoredTheme (localStorage s) with
    | Some light => dark
    | _ => light
    end.
Proof.
  intros s. subst s.
  split; [apply themeAfter_shown|]. split; [|split].
  - intros k Hk. apply themeAfter_frame, Hk.
  - intros Hin. destruct (themeAfter_choice storage prefersDark events Hin) as [t Ht].
    rewrite themeAfter_shown, Ht. f_equal. symmetry.
    apply computeActiveTheme_stored, Ht.
  - cbn [themeStep applyTheme shownTheme localStorage systemPrefersDark].
    apply computeActiveTheme_stored, getStoredTheme_insert.
Qed.

Lemma theme_follows_choice_then_system_witness :
  In ThemeToggleClick [ThemeToggleClick; SystemThemeChange false] /\
  getStoredTheme
    (localStorage (themeAfter ∅ true [ThemeToggleClick; SystemThemeChange false]))
  = Some (shownTheme (themeAfter ∅ true [ThemeToggleClick; SystemThemeChange false])).
Proof.
  assert (H : In ThemeToggleClick [ThemeToggleClick; SystemThemeChange false])
    by (left; reflexivity).
  split; [exact H|].
  apply (proj1 (proj2 (proj2 (theme_follows_choice_then_system ∅ true
           [ThemeToggleClick; SystemThemeChange false]))) H).
Defined.

(** ** Row density *)

Lemma getItemOr_insert (k d v : string) (storage : gmap string string) :
  v <> "" -> getItemOr k d (<[k := v]> storage) = v.
Proof.
  intros Hv. unfold getItemOr. rewrite lookup_insert_eq.
  destruct v; [congruence | reflexivity].
Qed.

Lemma densityClick_stored (storage : gmap string string) :
  densityClick storage !! "density" = Some "comfortable" \/
  densityClick storage !! "density" = Some "compact".
Proof.
  unfold densityClick. rewrite lookup_insert_eq.
  destruct (String.eqb _ "compact"); auto.
Qed.

Lemma density_flip (storage : gmap string string) (v : string) :
  storage !! "density" = Some v -> v <> "" ->
  applyDensityFromStorage (densityClick storage) = negb (applyDensityFromStorage storage).
Proof.
  intros Hv Hne. unfold applyDensityFromStorage, densityClick.
  assert (H : forall d, getItemOr "density" d storage = v).
  { intros d. unfold getItemOr. rewrite Hv. destruct v; [congruence | reflexivity]. }
  rewrite !H. destruct (String.eqb v "compact").
  - rewrite getItemOr_insert by discriminate. reflexivity.
  - rewrite getItemOr_insert by discriminate. reflexivity.
Qed.

(** X21. A click on the density button switches between compact and
    comfortable rows whenever a density is stored, so from the second
    click on it always switches.  With nothing stored the rows are
    compact when the page loads and the first click leaves them
    compact.  Only the [density] entry of the storage is written. *)
Theorem densityClick_switches_when_stored (storage : gmap string string) :
  (forall v, storage !! "density" = Some v -> v <> "" ->
     applyDensityFromStorage (densityClick storage)
     = negb (applyDensityFromStorage storage)) /\
  (storage !! "density" = None \/ storage !! "density" = Some "" ->
     applyDensityFromStorage storage = true /\
     applyDensityFromStorage (densityClick storage) = true) /\
  applyDensityFromStorage (densityClick (densityClick storage))
  = negb (applyDensityFromStorage (densityClick storage)) /\
  (forall k, k <> "density" -> densityClick storage !! k = storage !! k).
Proof.
  split; [apply density_flip|]. split; [|split].
  - intros H.
    assert (Hd : forall d, getItemOr "density" d storage = d).
    { intros d. unfold getItemOr. destruct H as [-> | ->]; reflexivity. }
    unfold applyDensityFromStorage, densityClick. rewrite !Hd.
    change (String.eqb "comfortable" "compact") with false. cbv iota.
    rewrite getItemOr_insert by discriminate. split; reflexivity.
  - destruct (densityClick_stored storage) as [H | H];
      apply (density_flip _ _ H); discriminate.
  - intros k Hk. unfold densityClick. apply lookup_insert_ne. congruence.
Qed.

Lemma densityClick_switches_when_stored_witness :
  (∅ : gmap string string) !! "density" = None /\
  applyDensityFromStorage (densityClick ∅) = true.
Proof.
  split; [reflexivity|].
  apply (proj1 (proj2 (densityClick_switches_when_stored ∅))). left. reflexivity.
Defined.

(** ** Background animation *)

Lemma bgStep_invariant (prm : bool) (s : BgState) (e : BgEvent) (h : option bool) :
  let h' := match e with VisibilityChange hidden => Some hidden | FrameDue _ => h end in
  ((bgRafId s = None /\ requested s = ∅ /\ (prm = true \/ h = Some true)) \/
   (exists id, bgRafId s = Some id /\ requested s = {[id]} /\ animateBG s = true
               /\ prm = false /\ h <> Some true)) ->
  ((bgRafId (bgStep prm s e) = None /\ requested (bgStep prm s e) = ∅
    /\ (prm = true \/ h' = Some true)) \/
   (exists id, bgRafId (bgStep prm s e) = Some id /\ requested (bgStep prm s e) = {[id]}
               /\ animateBG (bgStep prm s e) = true /\ prm = false /\ h' <> Some true)).
Proof.
  intros h' [(Hid & Hreq & Hoff) | (id & Hid & Hreq & Han & Hprm & Hh)].
  - destruct e as [id | hidden]; cbn [bgStep].
    + rewrite Hreq. rewrite bool_decide_eq_false_2 by apply not_elem_of_empty.
      left. auto.
    + destruct hidden.
      * unfold stopBG. rewrite Hid. left. cbn. auto.
      * destruct prm; cbn [negb].
        -- left. auto.
        -- right. unfold startBG. cbn [animateBG negb bgRafId]. rewrite Hid.
           exists (nextHandle s). unfold requestTick. cbn.
           rewrite Hreq, (right_id_L ∅ (∪)). subst h'.
           repeat split; discriminate.
  - destruct e as [id' | hidden]; cbn [bgStep].
    + rewrite Hreq. destruct (decide (id' = id)) as [-> | Hne].
      * rewrite bool_decide_eq_true_2 by (apply elem_of_singleton; reflexivity).
        right. unfold tickBG. cbn [animateBG]. rewrite Han.
        exists (nextHandle s). unfold requestTick. cbn.
        rewrite difference_diag_L, (right_id_L ∅ (∪)). auto.
      * rewrite bool_decide_eq_false_2
          by (rewrite elem_of_singleton; exact Hne).
        right. exists id. auto.
    + destruct hidden.
      * left. unfold stopBG. rewrite Hid. cbn. rewrite Hreq, difference_diag_L. auto.
      * subst prm. cbn [negb]. right. unfold startBG. cbn [animateBG negb bgRafId].
        rewrite Hid. exists id. cbn. subst h'. repeat split; auto; discriminate.
Qed.

Lemma lastVisibilityChange_snoc (events : list BgEvent) (e : BgEvent) :
  lastVisibilityChange (events ++ [e])
  = match e with
    | VisibilityChange hidden => Some hidden
    | FrameDue _ => lastVisibilityChange events
    end.
Proof. unfold lastVisibilityChange. rewrite fold_left_app. reflexivity. Qed.

Lemma hiddenAfter_last (hiddenAtLoad : bool) (events : list BgEvent) :
  hiddenAfter hiddenAtLoad events
  = default hiddenAtLoad (lastVisibilityChange events).
Proof.
  induction events as [|e events IH] using rev_ind; [reflexivity|].
  rewrite lastVisibilityChange_snoc. unfold hiddenAfter in *.
  rewrite fold_left_app. cbn [List.fold_left]. destruct e; [exact IH | reflexivity].
Qed.

Lemma bgAfter_invariant (prm : bool) (events : list BgEvent) :
  (bgRafId (bgAfter prm events) = None /\ requested (bgAfter prm events) = ∅
   /\ (prm = true \/ lastVisibilityChange events = Some true)) \/
  (exists id, bgRafId (bgAfter prm events) = Some id
              /\ requested (bgAfter prm events) = {[id]}
              /\ animateBG (bgAfter prm events) = true
              /\ prm = false /\ lastVisibilityChange events <> Some true).
Proof.
  induction events as [|e events IH] using rev_ind.
  - destruct prm; [left; auto|]. right. exists 0%nat. cbn.
    rewrite (right_id_L ∅ (∪)). repeat split; discriminate.
  - unfold bgAfter. rewrite fold_left_app. cbn [List.fold_left].
    rewrite lastVisibilityChange_snoc.
    apply (bgStep_invariant prm _ e (lastVisibilityChange events) IH).
Qed.

(** X22. Whatever frames come due and however often the page is hidden
    and shown again, the browser holds at most one animation frame
    request of the script, and [bgRafId] is its handle.  With reduced
    motion preferred it holds none.  Otherwise it holds none exactly
    when the last visibility change reported the page hidden, and one in
    every other case: the animation neither runs twice at once nor dies.
    The script does not look at the visibility when it starts, so a page
    that loads hidden holds one request, hidden as it is, until its
    first visibility change. *)
Theorem background_animation_single_frame (prefersReducedMotion hiddenAtLoad : bool)
    (events : list BgEvent) :
  let s := bgAfter prefersReducedMotion events in
  (size (requested s) <= 1)%nat /\
  (prefersReducedMotion = true -> requested s = ∅ /\ bgRafId s = None) /\
  (prefersReducedMotion = false ->
     match lastVisibilityChange events with
     | Some true => requested s = ∅ /\ bgRafId s = None
     | _ => exists id, requested s = {[id]} /\ bgRafId s = Some id /\ animateBG s = true
     end) /\
  hiddenAfter hiddenAtLoad events
  = default hiddenAtLoad (lastVisibilityChange events) /\
  (prefersReducedMotion = false -> hiddenAtLoad = true ->
     lastVisibilityChange events = None ->
     hiddenAfter hiddenAtLoad events = true /\ size (requested s) = 1%nat).
Proof.
  intros s. subst s.
  pose proof (hiddenAfter_last hiddenAtLoad events) as Hh.
  destruct (bgAfter_invariant prefersReducedMotion events)
    as [(Hid & Hreq & Hoff) | (id & Hid & Hreq & Han & Hprm & Hv)].
  - rewrite Hreq, size_empty. split; [lia|]. split; [auto|].
    split; [|split; [exact Hh|]].
    + intros Hp. destruct Hoff as [Hoff | ->]; [congruence | auto].
    + intros Hp _ Hnone. destruct Hoff; congruence.
  - rewrite Hreq, size_singleton. split; [lia|]. split; [congruence|].
    split; [|split; [exact Hh|]].
    + intros _. destruct (lastVisibilityChange events) as [[|]|];
        [contradiction | |]; exists id; auto.
    + intros _ -> Hnone. rewrite Hh, Hnone. split; reflexivity.
Qed.

Lemma background_animation_single_frame_witness :
  hiddenAfter true [FrameDue 0%nat; FrameDue 1%nat] = true /\
  size (requested (bgAfter false [FrameDue 0%nat; FrameDue 1%nat])) = 1%nat.
Proof.
  apply (proj2 (proj2 (proj2 (proj2 (background_animation_single_frame false true
           [FrameDue 0%nat; FrameDue 1%nat])))));
    reflexivity.
Defined.

(** ** The page as a whole *)


















(** X24. A render that finds no device to show puts the row "No
    devices found" in the table and leaves the count label and the
    comparison drawer as they were: after the Clear button, or a reset,
    on an empty view the selection is empty while the drawer still shows
    the former count. *)
Theorem empty_view_keeps_labels (a : App) (ev : AppEvent) :
  match ev with
  | RowCheckbox _ | Control (TypeSearch _) => False
  | _ => True
  end ->
  lastFiltered (appStep a ev) = Some [] ->
  tableBody (screen (appStep a ev)) = NoDevicesRow /\
  deviceCount (screen (appStep a ev)) = deviceCount (screen a) /\
  compareCount (screen (appStep a ev)) = compareCount (screen a) /\
  drawerHidden (screen (appStep a ev)) = drawerHidden (screen a) /\
  compareDisabled (screen (appStep a ev)) = compareDisabled (screen a) /\
  (ev = ClearCompare \/ ev = Control ResetClick -> selectedForCompare (appStep a ev) = ∅).
Proof.
  assert (H : forall skip a0,
             lastFiltered (renderTable skip a0) = Some [] ->
             screen (renderTable skip a0)
             = mkScreen NoDevicesRow (deviceCount (screen a0)) (compareCount (screen a0))
                        (drawerHidden (screen a0)) (compareDisabled (screen a0))).
  { intros skip a0. unfold renderTable. cbn [lastFiltered screen].
    intros E. injection E as E. rewrite E. reflexivity. }
  intros Hev Hempty.
  destruct ev as [e | index |]; [destruct e | destruct Hev |]; try destruct Hev;
    cbn [appStep] in *; rewrite (H _ _ Hempty);
    cbn [tableBody deviceCount compareCount drawerHidden compareDisabled];
    (repeat split; try reflexivity);
    intros [E | E]; try discriminate E; reflexivity.
Qed.

Lemma empty_view_keeps_labels_witness :
  lastFiltered
    (appStep (mkApp (pageAtLoad "") [] {["A__X"]} None
                    (mkScreen SkeletonRows "3 Devices" "1/5 selected" false true)
                    None true) ClearCompare) = Some [] /\
  drawerHidden
    (screen (appStep (mkApp (pageAtLoad "") [] {["A__X"]} None
                            (mkScreen SkeletonRows "3 Devices" "1/5 selected" false true)
                            None true) ClearCompare)) = false /\
  selectedForCompare
    (appStep (mkApp (pageAtLoad "") [] {["A__X"]} None
                    (mkScreen SkeletonRows "3 Devices" "1/5 selected" false true)
                    None true) ClearCompare) = ∅.
Proof.
  assert (H : lastFiltered
    (appStep (mkApp (pageAtLoad "") [] {["A__X"]} None
                    (mkScreen SkeletonRows "3 Devices" "1/5 selected" false true)
                    None true) ClearCompare) = Some []) by reflexivity.
  split; [exact H|].
  pose proof (empty_view_keeps_labels _ ClearCompare I H) as (_ & _ & _ & Hd & _ & Hs).
  split; [exact Hd | apply Hs; left; reflexivity].
Defined.



(** ** The first version of the script and the current one *)

Lemma filter_filter_andb {A : Type} (f g : A -> bool) (l : list A) :
  List.filter g (List.filter f l) = List.filter (fun x => f x && g x) l.
Proof.
  induction l as [|x l IH]; simpl; [reflexivity|].
  destruct (f x); simpl; [destruct (g x); rewrite IH; reflexivity | exact IH].
Qed.

(** X26. The current script and the first one give the same table for
    the same controls, but for two things.  The current filter in "All
    devices" mode is the first version's filter, and in its default mode
    it keeps of that result the devices that have a score.  The two
    comparators agree on every sort key except [teardown]. *)
Theorem first_version_differences (dom : Dom) (devicesData : list Device) :
  getFilteredData
    (mkDom (searchInput dom) (brandFilter dom) (scoreFilterEls dom) (Some true))
    devicesData
  = FirstVersion.getFilteredData dom devicesData /\
  (includeNoScoreChecked dom = false ->
   getFilteredData dom devicesData
   = List.filter hasScore (FirstVersion.getFilteredData dom devicesData)) /\
  (forall s a b, key s <> "teardown" ->
     Legacy.compareDevices s a b = compareDevices s a b).
Proof.
  split; [|split].
  - unfold getFilteredData, FirstVersion.getFilteredData. apply List.filter_ext.
    intros d. unfold recordKept, FirstVersion.recordKept.
    cbn [searchInput brandFilter scoreFilterValue scoreFilterEls includeNoScoreChecked
         includeNoScore].
    rewrite andb_true_r. reflexivity.
  - intros Hno. unfold getFilteredData, FirstVersion.getFilteredData.
    rewrite filter_filter_andb. apply List.filter_ext.
    intros d. unfold recordKept, FirstVersion.recordKept, hasScore.
    rewrite Hno. reflexivity.
  - intros s a b Hk. unfold Legacy.compareDevices, compareDevices, isNumericKey,
      Legacy.stringOperand, numericOperand.
    destruct (String.eqb_spec (key s) "teardown") as [E | _]; [contradiction|].
    rewrite orb_false_r.
    destruct (String.eqb (key s) "repairability_score"); [|reflexivity].
    destruct (repairability_score a), (repairability_score b); reflexivity.
Qed.

Lemma first_version_differences_witness :
  includeNoScoreChecked (mkDom "" "X" [] None) = false /\
  getFilteredData (mkDom "" "X" [] None) [deviceA; deviceB; deviceC]
  = List.filter hasScore
      (FirstVersion.getFilteredData (mkDom "" "X" [] None) [deviceA; deviceB; deviceC]).
Proof.
  split; [reflexivity|].
  apply (proj1 (proj2 (first_version_differences (mkDom "" "X" [] None)
                         [deviceA; deviceB; deviceC]))).
  reflexivity.
Defined.

(** ** Teardown entries and badges *)

(** X27. Teardowns are shown with the entries that do not carry the tag
    archived first and those that carry it after them, each group in its
    original order (T1 archived, T2 plain gives T2, T1).  The badge list
    of a device shows each tag of its teardowns once; when no tag names
    a property every object inherits, it is ordered starred,
    user_contributed, archived, then the other tags. *)
Theorem teardowns_archived_last_tags_by_rank :
  (exists archived : Teardown -> bool,
     (forall td, archived td = true <-> hasTag "archived" td) /\
     forall teardowns,
       sortTeardowns teardowns =
       List.filter (fun t => negb (archived t)) teardowns ++
       List.filter archived teardowns) /\
  List.map title (sortTeardowns [teardownT1; teardownT2]) = ["T2"; "T1"] /\
  (forall teardownUrls,
     NoDup (aggregateTeardownTags teardownUrls) /\
     (forall t, In t (aggregateTeardownTags teardownUrls) <->
                exists td, In td teardownUrls /\ hasTag t td) /\
     ((forall td t, In td teardownUrls -> hasTag t td -> plainTag t) ->
      StronglySorted (fun a b => (tagRank a <= tagRank b)%nat)
        (aggregateTeardownTags teardownUrls))).
Proof.
  split; [|split; [reflexivity|]].
  - exists isArchivedTeardown.
    split; [exact isArchivedTeardown_hasTag | exact sortTeardowns_partition].
  - intros tds. unfold aggregateTeardownTags, sortTags at 1 2.
    split; [|split].
    + rewrite arraySort_perm. apply collect_tags_NoDup, NoDup_nil_2.
    + intros t. rewrite arraySort_In, collect_tags_In. simpl. tauto.
    + intros Hp. apply sortTags_sorted. apply List.Forall_forall. intros t Ht.
      apply collect_tags_In in Ht as [[] | (td & Hin & Htag)].
      exact (Hp td t Hin Htag).
Qed.

Lemma teardowns_archived_last_tags_by_rank_witness :
  aggregateTeardownTags
    [mkTeardown "T1" "" None (Some ["archived"; "difficult"]);
     mkTeardown "T2" "" None (Some ["starred"; "archived"])]
  = ["starred"; "archived"; "difficult"] /\
  StronglySorted (fun a b => (tagRank a <= tagRank b)%nat)
    (aggregateTeardownTags
       [mkTeardown "T1" "" None (Some ["archived"; "difficult"]);
        mkTeardown "T2" "" None (Some ["starred"; "archived"])]).
Proof.
  split; [reflexivity|].
  apply (proj2 (proj2 (proj2 (proj2 teardowns_archived_last_tags_by_rank)
           [mkTeardown "T1" "" None (Some ["archived"; "difficult"]);
            mkTeardown "T2" "" None (Some ["starred"; "archived"])]))).
  intros td t [<- | [<- | []]] (ts & [= <-] & Hin); simpl in Hin;
    unfold plainTag; simpl; intuition (subst; discriminate).
Defined.
